(** * PolyArt: the image-to-polygon pipeline of [PolygonArtCanvas.tsx]

    A shallow embedding of the pipeline of the low-polygon art generator:
    the median colour sampler, the de-duplicating point sampler, the Sobel
    edge field, the Delaunay refinement loop and the phased animation
    sequencer, followed by the properties the specification states about
    them.

    Numbers.  JavaScript numbers are modelled as exact rationals ([Q]);
    image dimensions, pixel channels and array indices are integers ([Z]).
    The rounding of IEEE doubles is modelled where the result depends on
    it, in the fitting of the canvas size ([roundDouble]); NaN and the
    infinities are outside the model.
    Built-ins whose result is a rounded real ([Math.sqrt], [Math.hypot]),
    the random source ([Math.random]) and the Delaunator library are
    parameters of the development. *)

From Stdlib Require Import ZArith QArith Qround Qabs Qpower Lia Lqa Permutation
  Sorted Ascii.
From stdpp Require Import gmap strings list pretty.

Open Scope Z_scope.

(** ** Points and pixel buffers *)

(** [type Point = [number, number]] *)
Definition Point : Type := (Q * Q)%type.

(** [type Triangle = [Point, Point, Point]] *)
Definition Triangle : Type := (Point * Point * Point)%type.

(** A [Uint8ClampedArray]: a list of channel values.  Reading outside the
    array yields [undefined], here [None]. *)
Definition readByte (data : list Z) (idx : Z) : option Z :=
  if idx <? 0 then None else data !! Z.to_nat idx.

(** What the type [Uint8ClampedArray] of an RGBA image of [width] by
    [height] pixels guarantees. *)
Definition pixelBuffer (width height : Z) (data : list Z) : Prop :=
  Z.of_nat (length data) = 4 * width * height ∧
  Forall (λ v, 0 <= v <= 255) data.

(** ** Colour sampler: [getMedianColor] *)

(** [Array.prototype.sort((a, b) => a - b)] on numbers: ascending order,
    [undefined] entries moved to the end. *)
Fixpoint insertSorted (x : Z) (l : list Z) : list Z :=
  match l with
  | [] => [x]
  | y :: l' => if x <=? y then x :: l else y :: insertSorted x l'
  end.

Definition sortAscending (l : list Z) : list Z := foldr insertSorted [] l.

Definition sortNumbers (l : list (option Z)) : list (option Z) :=
  let nums := omap id l in
  (Some <$> sortAscending nums) ++ replicate (length l - length nums)%nat None.

Module ColorSampler.

Record MedianColor := {
  r : option Z;
  g : option Z;
  b : option Z;
  cx : Z;
  cy : Z
}.

(** The five sample locations: the centroid, the three vertex-weighted
    blends and the centroid again. *)
Definition samples (p1 p2 p3 : Point) : list Point :=
  let cx := ((p1.1 + p2.1 + p3.1) / 3)%Q in
  let cy := ((p1.2 + p2.2 + p3.2) / 3)%Q in
  [ (cx, cy);
    (((2 * p1.1 + p2.1 + p3.1) / 4)%Q, ((2 * p1.2 + p2.2 + p3.2) / 4)%Q);
    (((p1.1 + 2 * p2.1 + p3.1) / 4)%Q, ((p1.2 + 2 * p2.2 + p3.2) / 4)%Q);
    (((p1.1 + p2.1 + 2 * p3.1) / 4)%Q, ((p1.2 + p2.2 + 2 * p3.2) / 4)%Q);
    (cx, cy) ].

Definition safeX (width : Z) (s : Point) : Z :=
  Z.max 0 (Z.min (width - 1) (Qfloor s.1)).

Definition safeY (height : Z) (s : Point) : Z :=
  Z.max 0 (Z.min (height - 1) (Qfloor s.2)).

Definition sampleIdx (width height : Z) (s : Point) : Z :=
  (safeY height s * width + safeX width s) * 4.

Definition getMedianColor (p1 p2 p3 : Point) (data : list Z)
    (width height : Z) : MedianColor :=
  let cx := ((p1.1 + p2.1 + p3.1) / 3)%Q in
  let cy := ((p1.2 + p2.2 + p3.2) / 3)%Q in
  let idxs := sampleIdx width height <$> samples p1 p2 p3 in
  let rs := (λ idx, readByte data idx) <$> idxs in
  let gs := (λ idx, readByte data (idx + 1)) <$> idxs in
  let bs := (λ idx, readByte data (idx + 2)) <$> idxs in
  {| r := mjoin (sortNumbers rs !! 2%nat);
     g := mjoin (sortNumbers gs !! 2%nat);
     b := mjoin (sortNumbers bs !! 2%nat);
     cx := Qfloor cx;
     cy := Qfloor cy |}.

End ColorSampler.

(** [v] is the middle element (index 2) of the five values [vs] put in
    ascending order. *)
Definition medianOfFive (vs : list Z) (v : Z) : Prop :=
  length vs = 5%nat ∧
  ∃ sorted, Permutation vs sorted ∧ Sorted Z.le sorted ∧ sorted !! 2%nat = Some v.

(** ** Feature point sampler: the de-duplicating [addPoint] *)

(** Comparison of two numbers, [x < y]. *)
Definition Qltb (x y : Q) : bool := negb (Qle_bool y x).

(** [Number.prototype.toFixed(1)]: the sign, then the integer [n] nearest
    to ten times the magnitude (the larger one on a tie), printed with one
    digit after the point. *)
Definition roundTenths (x : Q) : Z :=
  Qfloor (10 * (if Qltb x 0 then - x else x) + (1 # 2))%Q.

Definition toFixed1 (x : Q) : string :=
  let n := roundTenths x in
  (if Qltb x 0 then "-" else "") +:+
  pretty (Z.to_N (n / 10)) +:+ "." +:+ pretty (Z.to_N (n mod 10)).

(** The key [`${x.toFixed(1)},${y.toFixed(1)}`]. *)
Definition pointKey (x y : Q) : string :=
  toFixed1 x +:+ "," +:+ toFixed1 y.

(** The two pieces of state [addPoint] closes over: the [Set<string>] of
    keys and the array of points. *)
Record Sampler := {
  pointsMap : gset string;
  points : list Point
}.

Definition emptySampler : Sampler := {| pointsMap := ∅; points := [] |}.

Definition addPoint (x y : Q) (st : Sampler) : Sampler :=
  let key := pointKey x y in
  if decide (key ∈ pointsMap st) then st
  else {| pointsMap := {[key]} ∪ pointsMap st;
          points := points st ++ [(x, y)] |}.

(** Character classes of the printed keys, used to show that a key
    determines the two rounded coordinates. *)
Definition isDigit (c : ascii) : bool :=
  (48 <=? nat_of_ascii c)%nat && (nat_of_ascii c <=? 57)%nat.

Definition isSignOrDigit (c : ascii) : bool :=
  isDigit c || bool_decide (c = "-"%char).

Definition isNumberChar (c : ascii) : bool :=
  isSignOrDigit c || bool_decide (c = "."%char).

Fixpoint allChars (P : ascii → bool) (s : string) : bool :=
  match s with
  | EmptyString => true
  | String c s' => P c && allChars P s'
  end.

(** ** Built-ins and loops *)

(** What the pipeline takes from its environment: [Math.sqrt] and
    [Math.hypot] (rounded reals), the sequence of values returned by
    successive calls of [Math.random], and [Delaunator.from(pts).triangles]
    (a flat array of point indices, three per triangle). *)
Class Builtins := {
  mathSqrt : Q → Q;
  mathHypot : Q → Q → Q;
  mathRandom : nat → Q;
  delaunator : list Point → list nat
}.

Definition Qmaxb (x y : Q) : Q := if Qltb x y then y else x.
Definition Qminb (x y : Q) : Q := if Qltb y x then y else x.

(** [for (let i = start; cond(i); i += step) body(i)], with a bound on the
    number of iterations. *)
Fixpoint forLoop {S : Type} (fuel : nat) (i : Z) (cond : Z → bool) (step : Z)
    (body : Z → S → S) (st : S) : S :=
  match fuel with
  | O => st
  | Datatypes.S fuel' =>
      if cond i then forLoop fuel' (i + step) cond step body (body i st)
      else st
  end.

(** [for (let i = start; i <= hi; i += step)] and
    [for (let i = start; i < hi; i += step)] for [step >= 1]: the distance
    to [hi] bounds the number of iterations. *)
Definition forUpTo {S : Type} (start hi step : Z) (body : Z → S → S) : S → S :=
  forLoop (Z.to_nat (hi - start + 1)) start (λ i, i <=? hi) step body.

Definition forBelow {S : Type} (start hi step : Z) (body : Z → S → S) : S → S :=
  forLoop (Z.to_nat (hi - start)) start (λ i, i <? hi) step body.

(** ** Border points *)

(** [addPoint(0, 0); addPoint(width, 0); addPoint(0, height);
    addPoint(width, height)] *)
Definition addCorners (width height : Z) (st : Sampler) : Sampler :=
  addPoint (inject_Z width) (inject_Z height)
    (addPoint 0 (inject_Z height)
       (addPoint (inject_Z width) 0
          (addPoint 0 0 st))).

(** [Math.max(10, Math.floor(100 - q * 90))] *)
Definition borderStep (q : Q) : Z := Z.max 10 (Qfloor (100 - q * 90)%Q).

Definition addBorder (step width height : Z) (st : Sampler) : Sampler :=
  let st := forUpTo 0 width step
              (λ i st, addPoint (inject_Z i) (inject_Z height)
                         (addPoint (inject_Z i) 0 st)) st in
  forUpTo 0 height step
    (λ i st, addPoint (inject_Z width) (inject_Z i)
               (addPoint 0 (inject_Z i) st)) st.

(** ** Edge field: the Sobel pass *)

(** A channel of the blurred image as a number. *)
Definition channel (data : list Z) (idx : Z) : Q :=
  inject_Z (default 0 (readByte data idx)).

Definition getGray (blurredData : list Z) (width x y ox oy : Z) : Q :=
  let idx := ((y + oy) * width + (x + ox)) * 4 in
  (channel blurredData idx * (299 # 1000) +
   channel blurredData (idx + 1) * (587 # 1000) +
   channel blurredData (idx + 2) * (114 # 1000))%Q.

Definition sobelGrad `{Builtins} (blurredData : list Z) (width x y : Z) : Q :=
  let g (ox oy : Z) : Q := getGray blurredData width x y ox oy in
  let gx :=
    (-(1) * g (-1)%Z (-1)%Z + 1 * g 1%Z (-1)%Z +
     -(2) * g (-1)%Z 0%Z + 2 * g 1%Z 0%Z +
     -(1) * g (-1)%Z 1%Z + 1 * g 1%Z 1%Z)%Q in
  let gy :=
    (-(1) * g (-1)%Z (-1)%Z + -(2) * g 0%Z (-1)%Z + -(1) * g 1%Z (-1)%Z +
     1 * g (-1)%Z 1%Z + 2 * g 0%Z 1%Z + 1 * g 1%Z 1%Z)%Q in
  mathSqrt (gx * gx + gy * gy)%Q.

(** [arr[idx] = v] on a typed array: nothing happens out of range. *)
Definition writeAt {A : Type} (idx : Z) (v : A) (arr : list A) : list A :=
  if idx <? 0 then arr else <[Z.to_nat idx := v]> arr.

(** [arr[idx]] on a typed array. *)
Definition readAt {A : Type} (arr : list A) (idx : Z) : option A :=
  if idx <? 0 then None else arr !! Z.to_nat idx.

Definition sobelPass `{Builtins} (blurredData : list Z) (width height : Z)
    : list Q :=
  let sobelData := replicate (Z.to_nat (width * height)) 0%Q in
  forBelow 1 (height - 1) 1
    (λ y sobelData,
       forBelow 1 (width - 1) 1
         (λ x sobelData,
            writeAt (y * width + x) (sobelGrad blurredData width x y) sobelData)
         sobelData)
    sobelData.

(** ** Adaptive grid: [processCell] *)

Definition maxDepth : Z := 2.

(** [threshold], [salientThreshold], [randomProb] and [baseCellSize] as
    functions of [q = quality / 100]. *)
Definition edgeThreshold (q : Q) : Q := (10 + (1 - q) * 40)%Q.
Definition salientThreshold (q : Q) : Q := (edgeThreshold q + 30 + (1 - q) * 20)%Q.
Definition randomProb (q : Q) : Q := ((1 # 100) + q * (9 # 100))%Q.
Definition baseCellSize (q : Q) : Z := Z.max 10 (Qfloor (50 - q * 40)%Q).

(** The running maximum of a cell scan: [maxGrad], [maxX], [maxY]. *)
Record CellMax := {
  maxGrad : Q;
  maxX : Z;
  maxY : Z
}.

Definition scanCell (sobelData : list Q) (width height cx cy size : Z)
    : CellMax :=
  let endY := Z.min (cy + size) (height - 1) in
  let endX := Z.min (cx + size) (width - 1) in
  forBelow cy endY 1
    (λ y m,
       forBelow cx endX 1
         (λ x m,
            match readAt sobelData (y * width + x) with
            | Some grad =>
                if Qltb (maxGrad m) grad
                then {| maxGrad := grad; maxX := x; maxY := y |}
                else m
            | None => m
            end) m)
    {| maxGrad := 0; maxX := -1; maxY := -1 |}.

(** The sampler together with the number of [Math.random] calls made so
    far. *)
Definition Sampling : Type := (Sampler * nat)%type.

(** [processCell(cx, cy, size, depth)].  [fuel] bounds the nesting of the
    recursive calls; the recursion itself is limited by
    [depth < maxDepth]. *)
Fixpoint processCell `{Builtins} (fuel : nat) (q : Q) (sobelData : list Q)
    (width height cx cy size depth : Z) (st : Sampling) : Sampling :=
  let m := scanCell sobelData width height cx cy size in
  if Qltb (salientThreshold q) (maxGrad m) && (depth <? maxDepth) && (6 <? size)
  then
    match fuel with
    | O => st
    | S fuel' =>
        let half := size / 2 in
        let go := processCell fuel' q sobelData width height in
        go (cx + half) (cy + half) half (depth + 1)
          (go cx (cy + half) half (depth + 1)
             (go (cx + half) cy half (depth + 1)
                (go cx cy half (depth + 1) st)))
    end
  else if Qltb (edgeThreshold q) (maxGrad m) then
    (addPoint (inject_Z (maxX m)) (inject_Z (maxY m)) st.1, st.2)
  else if depth =? 0 then
    if Qltb (mathRandom st.2) (randomProb q) then
      let jitterX := ((mathRandom (st.2 + 1)%nat - (1 # 2)) * inject_Z size)%Q in
      let jitterY := ((mathRandom (st.2 + 2)%nat - (1 # 2)) * inject_Z size)%Q in
      (addPoint
         (Qmaxb 0 (Qminb (inject_Z width)
                     (inject_Z cx + inject_Z size / 2 + jitterX)))%Q
         (Qmaxb 0 (Qminb (inject_Z height)
                     (inject_Z cy + inject_Z size / 2 + jitterY)))%Q
         st.1,
       (st.2 + 3)%nat)
    else (st.1, (st.2 + 1)%nat)
  else st.

Definition processCells `{Builtins} (q : Q) (sobelData : list Q)
    (width height : Z) (st : Sampling) : Sampling :=
  let baseCellSize := baseCellSize q in
  forBelow 0 height baseCellSize
    (λ y st,
       forBelow 0 width baseCellSize
         (λ x st,
            processCell (Z.to_nat maxDepth) q sobelData width height
              x y baseCellSize 0 st) st)
    st.

(** ** Mesh refinement *)

Definition refinementPasses : nat := 2.

Definition midpoint (pa pb : Point) : Point :=
  (((pa.1 + pb.1) / 2)%Q, ((pa.2 + pb.2) / 2)%Q).

(** The measurements taken of one triangle. *)
Record Measure := {
  l1 : Q;
  l2 : Q;
  l3 : Q;
  maxL : Q;
  minL : Q;
  area : Q
}.

Definition measure `{Builtins} (p1 p2 p3 : Point) : Measure :=
  let l1 := mathHypot (p1.1 - p2.1)%Q (p1.2 - p2.2)%Q in
  let l2 := mathHypot (p2.1 - p3.1)%Q (p2.2 - p3.2)%Q in
  let l3 := mathHypot (p3.1 - p1.1)%Q (p3.2 - p1.2)%Q in
  let s := ((l1 + l2 + l3) / 2)%Q in
  {| l1 := l1; l2 := l2; l3 := l3;
     maxL := Qmaxb (Qmaxb l1 l2) l3;
     minL := Qminb (Qminb l1 l2) l3;
     area := mathSqrt (Qmaxb 0 (s * (s - l1) * (s - l2) * (s - l3))%Q) |}.

(** [(isSharp && area > 50) || isTooLarge] *)
Definition needsSplit (width height : Z) (m : Measure) : bool :=
  let isSharp := Qltb 4 (maxL m / Qmaxb 1 (minL m))%Q in
  let isTooLarge :=
    Qltb (inject_Z width * inject_Z height * (4 # 100))%Q (area m) in
  (isSharp && Qltb 50 (area m)) || isTooLarge.

(** The midpoint of the longest edge, the first of the three on a tie. *)
Definition longestEdgeMidpoint (m : Measure) (p1 p2 p3 : Point) : Point :=
  if Qeq_bool (maxL m) (l1 m) then midpoint p1 p2
  else if Qeq_bool (maxL m) (l2 m) then midpoint p2 p3
  else midpoint p3 p1.

(** The body of the loop over [trianglesData] for one triangle; the state
    is the key set, [currentPoints] and the counter [added]. *)
Definition refineTriangle `{Builtins} (width height : Z) (i1 i2 i3 : nat)
    (st : Sampler * nat) : Sampler * nat :=
  let currentPoints := points st.1 in
  match currentPoints !! i1, currentPoints !! i2, currentPoints !! i3 with
  | Some p1, Some p2, Some p3 =>
      let m := measure p1 p2 p3 in
      if needsSplit width height m then
        let mid := longestEdgeMidpoint m p1 p2 p3 in
        let key := pointKey mid.1 mid.2 in
        if decide (key ∈ pointsMap st.1) then st
        else ({| pointsMap := {[key]} ∪ pointsMap st.1;
                 points := currentPoints ++ [mid] |}, S st.2)
      else st
  | _, _, _ => st
  end.

(** [for (let i = 0; i < trianglesData.length; i += 3)]: a trailing group
    of fewer than three indices reads [undefined] and is skipped. *)
Fixpoint refineTriangles `{Builtins} (width height : Z)
    (trianglesData : list nat) (st : Sampler * nat) : Sampler * nat :=
  match trianglesData with
  | i1 :: i2 :: i3 :: rest =>
      refineTriangles width height rest (refineTriangle width height i1 i2 i3 st)
  | _ => st
  end.

(** One pass: triangulate [currentPoints], then visit every triangle. *)
Definition refinePass `{Builtins} (width height : Z) (st : Sampler)
    : Sampler * nat :=
  refineTriangles width height (delaunator (points st)) (st, 0%nat).

(** The state of the refinement loop, with the arguments of the calls of
    [Delaunator.from] made so far (latest last). *)
Record Refinement := {
  refined : Sampler;
  triangulated : list (list Point)
}.

(** [for (let pass = 0; pass < refinementPasses; pass++)] with its
    [if (added === 0) break], by the number of passes left. *)
Fixpoint refineLoop `{Builtins} (passes : nat) (width height : Z)
    (r : Refinement) : Refinement :=
  match passes with
  | O => r
  | S passes' =>
      let (st', added) := refinePass width height (refined r) in
      let r' := {| refined := st';
                   triangulated := triangulated r ++ [points (refined r)] |} in
      if (added =? 0)%nat then r' else refineLoop passes' width height r'
  end.

Definition refine `{Builtins} (width height : Z) (st : Sampler) : Refinement :=
  refineLoop refinementPasses width height
    {| refined := st; triangulated := [] |}.

(** ** The sampling pipeline of [processImage] *)

(** What [processImage] hands to [runTriangulation] and leaves in
    [pointsRef] and [sobelRef]. *)
Record Mesh := {
  meshPoints : list Point;
  meshKeys : gset string;
  edgeField : option (list Q);
  delaunayInputs : list (list Point)
}.

Definition processImage `{Builtins} (quality : Q) (width height : Z)
    (blurredData : list Z) : Mesh :=
  let q := (quality / 100)%Q in
  let st := addCorners width height emptySampler in
  if Qltb 0 quality then
    let step := borderStep q in
    let st := addBorder step width height st in
    let sobelData := sobelPass blurredData width height in
    let st := (processCells q sobelData width height (st, 0%nat)).1 in
    let r := refine width height st in
    {| meshPoints := points (refined r);
       meshKeys := pointsMap (refined r);
       edgeField := Some sobelData;
       delaunayInputs := triangulated r |}
  else
    {| meshPoints := points st;
       meshKeys := pointsMap st;
       edgeField := None;
       delaunayInputs := [] |}.

(** [ctx.getImageData(0, 0, width, height).data]: the pixels of the
    canvas.  The call throws an [IndexSizeError] when [width] or [height]
    is 0. *)
Definition getImageData (width height : Z) (canvas : list Z) : option (list Z) :=
  if (width =? 0) || (height =? 0) then None else Some canvas.

(** The timer callback of [processImage] from its first statement: the two
    reads of the canvas come before the first [addPoint], and an exception
    thrown by a read ends the callback. *)
Definition processImageTask `{Builtins} (quality : Q) (width height : Z)
    (originalCanvas blurredCanvas : list Z) : option Mesh :=
  match getImageData width height originalCanvas,
        getImageData width height blurredCanvas with
  | Some originalData, Some blurredData =>
      Some (processImage quality width height blurredData)
  | _, _ => None
  end.

(** ** Animation sequencer: [startAnimation] and [animate] *)

Module Sequencer.

Record ColoredTriangle := {
  points : Triangle;
  color : string;
  center : Point
}.

(** The phases, named by the status each branch of [animate] sets:
    the source image, the Sobel edge field, the feature points, the
    Delaunay wireframe, the colour fill, the final rendering with fading
    edges, and the finished picture. *)
Inductive Phase :=
  | SourceImage
  | EdgeVisualization
  | PointCloud
  | Wireframe
  | ColorFill
  | EdgeFadeOut
  | Complete.

(** A fill or stroke style: a CSS colour string, or [rgba(r, g, b, a)]
    with a computed alpha. *)
Inductive Style :=
  | Css (s : string)
  | Rgba (r g b : Z) (a : Q).

(** What a tick does to the canvas and to the status line, in order.
    [DrawEdgeField] stands for filling a temporary canvas with the grey
    levels [min(255, sobel[i])] and drawing it at the origin. *)
Inductive Command :=
  | ClearRect (x y w h : Z)
  | SetStatus (phase : Phase)
  | DrawImage (x y w h : Z)
  | SetFillStyle (s : Style)
  | SetStrokeStyle (s : Style)
  | SetLineWidth (width : Q)
  | SetGlobalAlpha (alpha : Q)
  | FillRect (x y w h : Z)
  | DrawEdgeField (sobel : list Q)
  | BeginPath
  | MoveTo (x y : Q)
  | LineTo (x y : Q)
  | ClosePath
  | Arc (x y radius : Q)
  | Fill
  | Stroke.

(** What [startAnimation] captures for [animate]: the refs, the canvas
    size and the speed. *)
Record Scene := {
  triangles : list ColoredTriangle;
  sobel : option (list Q);
  featurePoints : list Point;
  w : Z;
  h : Z;
  img : bool;
  animationSpeed : Q
}.

Definition PHASE_IMAGE (sc : Scene) : Q := (1500 / animationSpeed sc)%Q.
Definition PHASE_SOBEL (sc : Scene) : Q := (2000 / animationSpeed sc)%Q.
Definition PHASE_POINTS (sc : Scene) : Q := (2000 / animationSpeed sc)%Q.
Definition PHASE_LINES (sc : Scene) : Q := (2500 / animationSpeed sc)%Q.
Definition PHASE_COLORS (sc : Scene) : Q := (2500 / animationSpeed sc)%Q.
Definition PHASE_FADE_EDGES (sc : Scene) : Q := (2000 / animationSpeed sc)%Q.

Definition totalDuration (sc : Scene) : Q :=
  (PHASE_IMAGE sc + PHASE_SOBEL sc + PHASE_POINTS sc + PHASE_LINES sc +
   PHASE_COLORS sc + PHASE_FADE_EDGES sc)%Q.

Definition drawTrianglePath (t : ColoredTriangle) : list Command :=
  let '(p0, p1, p2) := points t in
  [ BeginPath; MoveTo p0.1 p0.2; LineTo p1.1 p1.2; LineTo p2.1 p2.2; ClosePath ].

(** The result of one tick: the latched start time, the status set, the
    local [progress] of the branch taken (if it computes one), the
    drawing commands, and whether another frame was requested. *)
Record Frame := {
  startTime : option Q;
  status : Phase;
  progress : option Q;
  commands : list Command;
  requested : bool
}.

(** [if (!startTime) startTime = timestamp]: [null] and [0] are falsy. *)
Definition latch (startTime : option Q) (timestamp : Q) : Q :=
  match startTime with
  | Some t => if Qeq_bool t 0 then timestamp else t
  | None => timestamp
  end.

Definition edgeFieldCommands (sobel : list Q) : list Command :=
  [ DrawEdgeField sobel ].

(** The triangle loop of the last two branches: fill and stroke a
    triangle with its own colour. *)
Definition fillTriangle (t : ColoredTriangle) : list Command :=
  drawTrianglePath t ++
  [ SetFillStyle (Css (color t)); Fill;
    SetStrokeStyle (Css (color t)); SetLineWidth (1 # 2); Stroke ].

Definition animate (sc : Scene) (startTime : option Q) (timestamp : Q) : Frame :=
  let startTime := latch startTime timestamp in
  let elapsed := (timestamp - startTime)%Q in
  let totalTriangles := Z.of_nat (length (triangles sc)) in
  let clear := [ ClearRect 0 0 (w sc) (h sc) ] in
  let black := [ SetFillStyle (Css "#000000"); FillRect 0 0 (w sc) (h sc) ] in
  let white := [ SetFillStyle (Css "#ffffff"); FillRect 0 0 (w sc) (h sc) ] in
  let frame status progress cmds requested :=
    {| startTime := Some startTime; status := status; progress := progress;
       commands := clear ++ SetStatus status :: cmds; requested := requested |} in
  if Qltb elapsed (PHASE_IMAGE sc) then
    frame SourceImage None
      (if img sc then [ DrawImage 0 0 (w sc) (h sc) ] else [])
      true
  else if Qltb elapsed (PHASE_IMAGE sc + PHASE_SOBEL sc) then
    let phaseElapsed := (elapsed - PHASE_IMAGE sc)%Q in
    let progress := Qminb 1 (phaseElapsed / PHASE_SOBEL sc) in
    frame EdgeVisualization (Some progress)
      match sobel sc with
      | Some sobel =>
          black ++ [ SetGlobalAlpha progress ] ++ edgeFieldCommands sobel ++
          [ SetGlobalAlpha 1 ]
      | None => []
      end
      true
  else if Qltb elapsed (PHASE_IMAGE sc + PHASE_SOBEL sc + PHASE_POINTS sc) then
    let phaseElapsed := (elapsed - (PHASE_IMAGE sc + PHASE_SOBEL sc))%Q in
    let progress := Qminb 1 (phaseElapsed / PHASE_POINTS sc) in
    let visiblePointsCount :=
      Qfloor (progress * inject_Z (Z.of_nat (length (featurePoints sc)))) in
    frame PointCloud (Some progress)
      (black ++
       match sobel sc with
       | Some sobel =>
           [ SetGlobalAlpha (3 # 10) ] ++ edgeFieldCommands sobel ++
           [ SetGlobalAlpha 1 ]
       | None => []
       end ++
       [ SetFillStyle (Css "#00ffcc") ] ++
       flat_map (λ p : Point, [ BeginPath; Arc p.1 p.2 1; Fill ])
         (take (Z.to_nat visiblePointsCount) (featurePoints sc)))
      true
  else if Qltb elapsed
            (PHASE_IMAGE sc + PHASE_SOBEL sc + PHASE_POINTS sc + PHASE_LINES sc)
  then
    let phaseElapsed :=
      (elapsed - (PHASE_IMAGE sc + PHASE_SOBEL sc + PHASE_POINTS sc))%Q in
    let progress := Qminb 1 (phaseElapsed / PHASE_LINES sc) in
    let easedProgress := (1 - (1 - progress) ^ 3)%Q in
    let visibleCount := Qfloor (easedProgress * inject_Z totalTriangles) in
    frame Wireframe (Some progress)
      (black ++
       [ SetFillStyle (Rgba 0 255 204 ((8 # 10) * (1 - progress))) ] ++
       flat_map (λ p : Point, [ BeginPath; Arc p.1 p.2 (8 # 10); Fill ])
         (featurePoints sc) ++
       [ SetStrokeStyle (Rgba 0 255 204 (3 # 10)); SetLineWidth (1 # 2) ] ++
       flat_map (λ t, drawTrianglePath t ++ [ Stroke ])
         (take (Z.to_nat visibleCount) (triangles sc)))
      true
  else if Qltb elapsed
            (PHASE_IMAGE sc + PHASE_SOBEL sc + PHASE_POINTS sc + PHASE_LINES sc +
             PHASE_COLORS sc)
  then
    let phaseElapsed :=
      (elapsed -
       (PHASE_IMAGE sc + PHASE_SOBEL sc + PHASE_POINTS sc + PHASE_LINES sc))%Q in
    let progress := Qminb 1 (phaseElapsed / PHASE_COLORS sc) in
    let easedProgress := (1 - (1 - progress) ^ 3)%Q in
    let coloredCount := Qfloor (easedProgress * inject_Z totalTriangles) in
    frame ColorFill (Some progress)
      (black ++
       mjoin (imap (λ i t,
                drawTrianglePath t ++
                (if Z.of_nat i <? coloredCount
                 then [ SetFillStyle (Css (color t)); Fill;
                        SetStrokeStyle
                          (Rgba 255 255 255 ((1 # 10) * (1 - progress))) ]
                 else [ SetStrokeStyle (Rgba 0 255 204 (3 # 10)) ]) ++
                [ SetLineWidth (1 # 2); Stroke ])
              (triangles sc)))
      true
  else if Qltb elapsed (totalDuration sc) then
    let phaseElapsed :=
      (elapsed -
       (PHASE_IMAGE sc + PHASE_SOBEL sc + PHASE_POINTS sc + PHASE_LINES sc +
        PHASE_COLORS sc))%Q in
    let progress := Qminb 1 (phaseElapsed / PHASE_FADE_EDGES sc) in
    frame EdgeFadeOut (Some progress)
      (white ++
       flat_map (λ t,
           fillTriangle t ++
           (if Qltb progress 1
            then [ SetStrokeStyle
                     (Rgba 255 255 255 ((1 # 10) * (1 - progress)));
                   Stroke ]
            else []))
         (triangles sc))
      true
  else
    frame Complete None
      (white ++ flat_map fillTriangle (triangles sc))
      false.

(** The frames of a playback driven by the timestamps of the frame clock:
    a tick happens only if the tick before requested it. *)
Fixpoint play (sc : Scene) (startTime : option Q) (timestamps : list Q)
    : list Frame :=
  match timestamps with
  | [] => []
  | t :: rest =>
      let f := animate sc startTime t in
      f :: (if requested f then play sc (Sequencer.startTime f) rest else [])
  end.

End Sequencer.

(** ** IEEE doubles: rounding to the nearest double *)

(** Rounding to the nearest integer, ties to the even one. *)
Definition roundHalfEven (x : Q) : Z :=
  let n := Qfloor x in
  let f := (x - inject_Z n)%Q in
  if Qltb f (1 # 2) then n
  else if Qltb (1 # 2) f then n + 1
  else if Z.even n then n else n + 1.

(** [floor(log2 x)] for a positive [x]. *)
Definition exponent (x : Q) : Z :=
  let e := Z.log2 (Qnum x) - Z.log2 (Z.pos (Qden x)) in
  if Qltb x (2 ^ e)%Q then e - 1 else e.

(** The double nearest to a positive real: 53 significant bits, ties to
    even.  The range of the exponent is not bounded, so this is the IEEE
    rounding for magnitudes between 2^-1022 and 2^1024; overflow and
    subnormal numbers are outside the model. *)
Definition roundPositive (x : Q) : Q :=
  let e := exponent x in
  (inject_Z (roundHalfEven (x * 2 ^ (52 - e))) * 2 ^ (e - 52))%Q.

(** The result of an arithmetic operation of JavaScript whose exact value
    is [x]. *)
Definition roundDouble (x : Q) : Q :=
  if Qltb 0 x then roundPositive x
  else if Qltb x 0 then (- roundPositive (- x))%Q
  else 0%Q.

(** ** Fitting the image to the canvas: [img.onload] *)

Definition maxWidth : Q := 800.
Definition maxHeight : Q := 800.

(** The canvas size computed from the size of the loaded image: scale
    down to at most [maxWidth], then to at most [maxHeight], then floor
    both.  Each product and each quotient is a double. *)
Definition fitDimensions (imgWidth imgHeight : Z) : Z * Z :=
  let width := inject_Z imgWidth in
  let height := inject_Z imgHeight in
  let (width, height) :=
    if Qltb maxWidth width
    then (maxWidth, roundDouble (roundDouble (maxWidth * height) / width))
    else (width, height) in
  let (width, height) :=
    if Qltb maxHeight height
    then (roundDouble (roundDouble (maxHeight * width) / height), maxHeight)
    else (width, height) in
  (Qfloor width, Qfloor height).

(** ** Colouring and shuffling: [runTriangulation] *)

(** A channel inside a template literal. *)
Definition channelText (c : option Z) : string :=
  match c with
  | Some v => pretty v
  | None => "undefined"
  end.

(** [`rgb(${r},${g},${b})`] *)
Definition rgbText (c : ColorSampler.MedianColor) : string :=
  "rgb(" +:+ channelText (ColorSampler.r c) +:+ "," +:+
  channelText (ColorSampler.g c) +:+ "," +:+
  channelText (ColorSampler.b c) +:+ ")".

(** The loop over [trianglesData]: one coloured triangle for every group
    of three indices that all name a point; a group with a missing point
    and a trailing group of fewer than three indices are skipped. *)
Fixpoint colorTriangles (pts : list Point) (data : list Z) (width height : Z)
    (trianglesData : list nat) : list Sequencer.ColoredTriangle :=
  match trianglesData with
  | i1 :: i2 :: i3 :: rest =>
      match pts !! i1, pts !! i2, pts !! i3 with
      | Some p1, Some p2, Some p3 =>
          let c := ColorSampler.getMedianColor p1 p2 p3 data width height in
          {| Sequencer.points := (p1, p2, p3);
             Sequencer.color := rgbText c;
             Sequencer.center :=
               (inject_Z (ColorSampler.cx c), inject_Z (ColorSampler.cy c)) |}
          :: colorTriangles pts data width height rest
      | _, _, _ => colorTriangles pts data width height rest
      end
  | _ => []
  end.

(** [[arr[i], arr[j]] = [arr[j], arr[i]]] for two indices inside the
    array.  (An index outside the array, which [Math.random] in [0, 1)
    never produces, would store [undefined] in JavaScript; here the array
    is left as it is.) *)
Definition swapAt {A : Type} (i j : nat) (arr : list A) : list A :=
  match arr !! i, arr !! j with
  | Some a, Some b => <[j := a]> (<[i := b]> arr)
  | _, _ => arr
  end.

(** One step of the shuffle, [draws] being the number of earlier calls
    of [Math.random]: [j = Math.floor(Math.random() * (i + 1))]. *)
Definition shuffleIndex `{Builtins} (i draws : nat) : Z :=
  Qfloor (mathRandom draws * inject_Z (Z.of_nat i + 1))%Q.

Definition shuffleStep `{Builtins} {A : Type} (i draws : nat) (arr : list A)
    : list A :=
  let j := shuffleIndex i draws in
  if j <? 0 then arr else swapAt i (Z.to_nat j) arr.

(** [for (let i = arr.length - 1; i > 0; i--)] *)
Fixpoint shuffleFrom `{Builtins} {A : Type} (i draws : nat) (arr : list A)
    : list A :=
  match i with
  | O => arr
  | S i' => shuffleFrom i' (S draws) (shuffleStep (S i') draws arr)
  end.

Definition shuffle `{Builtins} {A : Type} (draws : nat) (arr : list A) : list A :=
  shuffleFrom (length arr - 1)%nat draws arr.

(** The triangles [runTriangulation] leaves in [trianglesRef]. *)
Definition runTriangulation `{Builtins} (pts : list Point) (data : list Z)
    (width height : Z) (draws : nat) : list Sequencer.ColoredTriangle :=
  shuffle draws (colorTriangles pts data width height (delaunator pts)).

(** ** Notions used to state further properties *)

(** The place of a phase in the order of the branches of [animate]. *)
Definition phaseIndex (p : Sequencer.Phase) : nat :=
  match p with
  | Sequencer.SourceImage => 0
  | Sequencer.EdgeVisualization => 1
  | Sequencer.PointCloud => 2
  | Sequencer.Wireframe => 3
  | Sequencer.ColorFill => 4
  | Sequencer.EdgeFadeOut => 5
  | Sequencer.Complete => 6
  end%nat.

(** [1 - Math.pow(1 - progress, 3)] and the number of triangles it
    reveals, [Math.floor(easedProgress * totalTriangles)]. *)
Definition easedProgress (progress : Q) : Q := (1 - (1 - progress) ^ 3)%Q.

Definition revealCount (progress : Q) (total : nat) : Z :=
  Qfloor (easedProgress progress * inject_Z (Z.of_nat total))%Q.

(** A point of the rectangle [0, width] x [0, height]. *)
Definition inBounds (width height : Z) (p : Point) : Prop :=
  (0 <= p.1 <= inject_Z width)%Q ∧ (0 <= p.2 <= inject_Z height)%Q.

(** The cell [(x', y')] has been scanned when the scan of the cell that
    starts at [(cx, cy)] and ends before column [endX] is at [(x, y)]. *)
Definition scanned (cx cy endX x y x' y' : Z) : Prop :=
  cx <= x' < endX ∧ cy <= y' ∧ (y' < y ∨ (y' = y ∧ x' < x)).

(** The running maximum is right for the cells scanned so far. *)
Definition scanInv (sobelData : list Q) (width cx cy endX x y : Z)
    (m : CellMax) : Prop :=
  (∀ x' y' v, scanned cx cy endX x y x' y' →
     readAt sobelData (y' * width + x') = Some v → (v <= maxGrad m)%Q) ∧
  (m = {| maxGrad := 0; maxX := -1; maxY := -1 |} ∨
   ((0 < maxGrad m)%Q ∧ scanned cx cy endX x y (maxX m) (maxY m) ∧
    readAt sobelData (maxY m * width + maxX m) = Some (maxGrad m))).

(** The test that makes [processCell] quarter its cell, and what it does
    with a cell it does not quarter. *)
Definition cellSplits (q : Q) (sobelData : list Q)
    (width height cx cy size depth : Z) : bool :=
  Qltb (salientThreshold q)
    (maxGrad (scanCell sobelData width height cx cy size)) &&
  (depth <? maxDepth) && (6 <? size).

Definition cellLeaf `{Builtins} (q : Q) (sobelData : list Q)
    (width height cx cy size depth : Z) (st : Sampling) : Sampling :=
  let m := scanCell sobelData width height cx cy size in
  if Qltb (edgeThreshold q) (maxGrad m) then
    (addPoint (inject_Z (maxX m)) (inject_Z (maxY m)) st.1, st.2)
  else if depth =? 0 then
    if Qltb (mathRandom st.2) (randomProb q) then
      let jitterX := ((mathRandom (st.2 + 1)%nat - (1 # 2)) * inject_Z size)%Q in
      let jitterY := ((mathRandom (st.2 + 2)%nat - (1 # 2)) * inject_Z size)%Q in
      (addPoint
         (Qmaxb 0 (Qminb (inject_Z width)
                     (inject_Z cx + inject_Z size / 2 + jitterX)))%Q
         (Qmaxb 0 (Qminb (inject_Z height)
                     (inject_Z cy + inject_Z size / 2 + jitterY)))%Q
         st.1,
       (st.2 + 3)%nat)
    else (st.1, (st.2 + 1)%nat)
  else st.
(** The phase of an elapsed time: the first whose cumulative duration
    exceeds it, as the chain of tests of [animate] finds it. *)
Definition phaseAt (sc : Sequencer.Scene) (elapsed : Q) : Sequencer.Phase :=
  if Qltb elapsed (Sequencer.PHASE_IMAGE sc) then Sequencer.SourceImage
  else if Qltb elapsed (Sequencer.PHASE_IMAGE sc + Sequencer.PHASE_SOBEL sc)
  then Sequencer.EdgeVisualization
  else if Qltb elapsed
            (Sequencer.PHASE_IMAGE sc + Sequencer.PHASE_SOBEL sc +
             Sequencer.PHASE_POINTS sc)
  then Sequencer.PointCloud
  else if Qltb elapsed
            (Sequencer.PHASE_IMAGE sc + Sequencer.PHASE_SOBEL sc +
             Sequencer.PHASE_POINTS sc + Sequencer.PHASE_LINES sc)
  then Sequencer.Wireframe
  else if Qltb elapsed
            (Sequencer.PHASE_IMAGE sc + Sequencer.PHASE_SOBEL sc +
             Sequencer.PHASE_POINTS sc + Sequencer.PHASE_LINES sc +
             Sequencer.PHASE_COLORS sc)
  then Sequencer.ColorFill
  else if Qltb elapsed (Sequencer.totalDuration sc) then Sequencer.EdgeFadeOut
  else Sequencer.Complete.

(** The number of calls of [Math.random] made by [processImage]: those of
    the adaptive grid. *)
Definition samplingDraws `{Builtins} (quality : Q) (width height : Z)
    (blurredData : list Z) : nat :=
  if Qltb 0 quality then
    let q := (quality / 100)%Q in
    (processCells q (sobelPass blurredData width height) width height
       (addBorder (borderStep q) width height
          (addCorners width height emptySampler), 0%nat)).2
  else 0%nat.

(** The whole pipeline on a fitted image: [processImage] ends by calling
    [runTriangulation] on its points and on the pixels read before the
    blur. *)
Definition generate `{Builtins} (quality : Q) (width height : Z)
    (originalData blurredData : list Z) : list Sequencer.ColoredTriangle :=
  runTriangulation
    (meshPoints (processImage quality width height blurredData))
    originalData width height
    (samplingDraws quality width height blurredData).

(** ** The density sampler of the earlier versions

    [components/PolygonArtCanvas.tsx] and the second version kept in
    [part_000] sample the edge field pixel by pixel with a probability,
    then add uniformly random points; the first sorts the triangles from
    left to right instead of shuffling them. *)

Module DensitySampler.

(** [20 + (1 - q) * 50] *)
Definition threshold (q : Q) : Q := (20 + (1 - q) * 50)%Q.

(** The Sobel loop of these versions: it fills [sobelData] and counts the
    pixels whose gradient exceeds the threshold in [edgeCount]. *)
Definition sobelCount `{Builtins} (q : Q) (data : list Z) (width height : Z)
    : list Q * Z :=
  forBelow 1 (height - 1) 1
    (λ y s,
       forBelow 1 (width - 1) 1
         (λ x (s : list Q * Z),
            let grad := sobelGrad data width x y in
            (writeAt (y * width + x) grad s.1,
             if Qltb (threshold q) grad then s.2 + 1 else s.2))
         s)
    (replicate (Z.to_nat (width * height)) 0%Q, 0).

(** [Math.max(0.3, (width * height) / 480000)] *)
Definition areaScale (width height : Z) : Q :=
  Qmaxb (3 # 10) (inject_Z (width * height) / 480000)%Q.

(** [12000 * q * areaScale] *)
Definition targetEdgePoints (q : Q) (width height : Z) : Q :=
  (12000 * q * areaScale width height)%Q.

(** [Math.min(q * 0.5, targetEdgePoints / Math.max(1, edgeCount))] *)
Definition actualDensity (q : Q) (width height edgeCount : Z) : Q :=
  Qminb (q * (1 # 2))
    (targetEdgePoints q width height / Qmaxb 1 (inject_Z edgeCount))%Q.

(** The sampling loop: a pixel above the threshold is stored when the next
    random number is below the density; [Math.random] is only called for
    the pixels above the threshold. *)
Definition densityPass `{Builtins} (density thr : Q) (sobelData : list Q)
    (width height : Z) (st : Sampling) : Sampling :=
  forBelow 1 (height - 1) 1
    (λ y st,
       forBelow 1 (width - 1) 1
         (λ x (st : Sampling),
            match readAt sobelData (y * width + x) with
            | Some v =>
                if Qltb thr v then
                  if Qltb (mathRandom st.2) density
                  then (addPoint (inject_Z x) (inject_Z y) st.1, S st.2)
                  else (st.1, S st.2)
                else st
            | None => st
            end)
         st)
    st.

(** [Math.floor(budget * q * areaScale)], with a budget of 3000 in
    [PolygonArtCanvas.tsx] and of 1000 in [part_000]. *)
Definition numRandomPoints (budget q : Q) (width height : Z) : Z :=
  Qfloor (budget * q * areaScale width height)%Q.

(** [for (i = 0; i < numRandomPoints; i++)
       addPoint(Math.random() * width, Math.random() * height)] *)
Definition randomFill `{Builtins} (width height count : Z) (st : Sampling)
    : Sampling :=
  forBelow 0 count 1
    (λ _ (st : Sampling),
       (addPoint (mathRandom st.2 * inject_Z width)%Q
                 (mathRandom (S st.2) * inject_Z height)%Q st.1,
        (st.2 + 2)%nat))
    st.

Definition processImage `{Builtins} (budget quality : Q) (width height : Z)
    (data : list Z) : Sampling :=
  let st := addCorners width height emptySampler in
  if Qltb 0 quality then
    let q := (quality / 100)%Q in
    let step := borderStep q in
    let st := addBorder step width height st in
    let s := sobelCount q data width height in
    let density := actualDensity q width height s.2 in
    let st := densityPass density (threshold q) s.1 width height (st, 0%nat) in
    randomFill width height (numRandomPoints budget q width height) st
  else (st, 0%nat).

(** [coloredTriangles.sort((a, b) => a.center[0] - b.center[0])]: a stable
    sort by the x coordinate of the centre. *)
Fixpoint insertByCenter (t : Sequencer.ColoredTriangle)
    (l : list Sequencer.ColoredTriangle) : list Sequencer.ColoredTriangle :=
  match l with
  | [] => [t]
  | u :: l' =>
      if Qltb (Sequencer.center u).1 (Sequencer.center t).1
      then u :: insertByCenter t l'
      else t :: l
  end.

Definition sortByCenter (l : list Sequencer.ColoredTriangle)
    : list Sequencer.ColoredTriangle :=
  foldr insertByCenter [] l.

Definition runTriangulation `{Builtins} (pts : list Point) (data : list Z)
    (width height : Z) : list Sequencer.ColoredTriangle :=
  sortByCenter (colorTriangles pts data width height (delaunator pts)).

End DensitySampler.

(** The pixels inside the one-pixel frame of the image, which the Sobel
    loops visit. *)
Definition interiorPixel (width height x y : Z) : Prop :=
  1 <= x < width - 1 ∧ 1 <= y < height - 1.

(** What the sampling loop has done when it reaches a state: it has only
    appended, pixels above the threshold inside the frame, at most one per
    call of [Math.random]. *)
Definition densityInv (thr : Q) (sobelData : list Q) (width height : Z)
    (st s : Sampling) : Prop :=
  (st.2 <= s.2)%nat ∧
  ∃ added : list Point,
    points s.1 = points st.1 ++ added ∧
    (length added <= s.2 - st.2)%nat ∧
    Forall (λ p : Point, ∃ x y v,
              p = (inject_Z x, inject_Z y) ∧
              interiorPixel width height x y ∧
              readAt sobelData (y * width + x) = Some v ∧ (thr < v)%Q)
      added.

(** ** Invariants of the sampler *)

Definition keyOf (p : Point) : string := pointKey p.1 p.2.

(** The key set holds the keys of the stored points, and no two stored
    points share a key. *)
Definition samplerInv (st : Sampler) : Prop :=
  NoDup (keyOf <$> points st) ∧
  ∀ k, k ∈ pointsMap st ↔ k ∈ keyOf <$> points st.

(** A property of the sampler that every [addPoint] keeps. *)
Definition addPointClosed (P : Sampler → Prop) : Prop :=
  ∀ x y st, P st → P (addPoint x y st).

Definition integerPoint (p : Point) : Prop :=
  ∃ a b : Z, p = (inject_Z a, inject_Z b).

(** [Math.round]. *)
Definition mathRound (x : Q) : Z := Qfloor (x + (1 # 2))%Q.

(** The border spacing as the specification words it,
    [max(10, round(100 - 90q))]. *)
Definition specBorderStep (q : Q) : Z := Z.max 10 (mathRound (100 - 90 * q)%Q).

(** The invariant of the border stage: only integer points are stored. *)
Definition borderInv (st : Sampler) : Prop :=
  samplerInv st ∧ Forall integerPoint (points st).

Definition corners (width height : Z) : list Point :=
  [ (0%Q, 0%Q); (inject_Z width, 0%Q); (0%Q, inject_Z height);
    (inject_Z width, inject_Z height) ].

(** The points of the lattice of spacing [step] on the four edges. *)
Definition latticePoint (step width height : Z) (p : Point) : Prop :=
  ∃ k, 0 <= k ∧
    ((k * step <= width ∧
      (p = (inject_Z (k * step), 0%Q) ∨
       p = (inject_Z (k * step), inject_Z height))) ∨
     (k * step <= height ∧
      (p = (0%Q, inject_Z (k * step)) ∨
       p = (inject_Z width, inject_Z (k * step))))).

(** ** Loop invariants used in the proofs *)

(** The cell [(x', y')] has been visited when the scan is at [(x, y)]. *)
Definition visited (width height x y x' y' : Z) : Prop :=
  (1 <= x' < width - 1 ∧ 1 <= y' < height - 1) ∧ (y' < y ∨ (y' = y ∧ x' < x)).

Definition sobelUpTo `{Builtins} (data : list Z) (width height x y : Z) (sobelData : list Q)
    : Prop :=
  Z.of_nat (length sobelData) = width * height ∧
  ∀ x' y', 0 <= x' < width → 0 <= y' < height →
    ∃ v, readAt sobelData (y' * width + x') = Some v ∧
         (visited width height x y x' y' → v = sobelGrad data width x' y') ∧
         (¬ visited width height x y x' y' → v = 0%Q).

(** ** Data of the worked examples *)

(** Built-ins for the worked examples: integer square roots, a constant
    random source and a triangulation that pairs the first three points. *)
Definition demoBuiltins : Builtins :=
  {| mathSqrt := λ x, inject_Z (Z.sqrt (Qfloor x));
     mathHypot := λ a b, inject_Z (Z.sqrt (Qfloor (a * a + b * b)%Q));
     mathRandom := λ _, (1 # 2)%Q;
     delaunator := λ pts, match pts with
                          | _ :: _ :: _ :: _ => [0; 1; 2]%nat
                          | _ => []
                          end |}.


(** A 3 x 3 RGBA image with a bright right column. *)
Definition demoImage3x3 : list Z :=
  [ 0; 0; 0; 255;   0; 0; 0; 255;   250; 250; 250; 255;
    0; 0; 0; 255;   0; 0; 0; 255;   250; 250; 250; 255;
    0; 0; 0; 255;   0; 0; 0; 255;   250; 250; 250; 255 ].

(** A scene with one red triangle, played at normal speed. *)
Definition demoScene : Sequencer.Scene :=
  {| Sequencer.triangles :=
       [ {| Sequencer.points := ((0, 0), (3, 0), (0, 3))%Q;
            Sequencer.color := "rgb(200,20,90)";
            Sequencer.center := (1, 1)%Q |} ];
     Sequencer.sobel := None;
     Sequencer.featurePoints := [ (0, 0); (3, 0); (0, 3) ]%Q;
     Sequencer.w := 3;
     Sequencer.h := 3;
     Sequencer.img := true;
     Sequencer.animationSpeed := 1 |}.

(** A uniform image: every channel of every pixel is 0. *)
Definition blankImage (width height : Z) : list Z :=
  replicate (Z.to_nat (4 * width * height)) 0.

(** A 2 x 2 RGBA image used by the worked examples. *)
Definition demoImage2x2 : list Z :=
  [ 10; 20; 30; 255;   200; 20; 90; 255;
    10; 60; 30; 255;    40; 80; 70; 255 ].

(** ** Theorems *)

Section Sorting.

Lemma insertSorted_perm x l : Permutation (x :: l) (insertSorted x l).
Proof.
  induction l as [|y l IH]; simpl; [done|].
  destruct (x <=? y); [done|].
  rewrite perm_swap. by constructor.
Qed.

Lemma sortAscending_perm l : Permutation l (sortAscending l).
Proof.
  induction l as [|x l IH]; simpl; [done|].
  rewrite <- insertSorted_perm. by constructor.
Qed.

Lemma insertSorted_sorted x l :
  Sorted Z.le l → Sorted Z.le (insertSorted x l).
Proof.
  induction 1 as [|y l Hl IH Hy]; simpl.
  - repeat constructor.
  - destruct (Z.leb_spec x y).
    + constructor; [by constructor|by constructor].
    + constructor; [done|].
      destruct Hy as [|z l' Hz]; simpl.
      * constructor. lia.
      * destruct (x <=? z); constructor; lia.
Qed.

Lemma sortAscending_sorted l : Sorted Z.le (sortAscending l).
Proof.
  induction l; simpl; [constructor|by apply insertSorted_sorted].
Qed.

Lemma sortAscending_length l : length (sortAscending l) = length l.
Proof. symmetry. apply Permutation_length, sortAscending_perm. Qed.

Lemma sortNumbers_all_numbers (l : list Z) :
  sortNumbers (Some <$> l) = Some <$> sortAscending l.
Proof.
  unfold sortNumbers.
  assert (omap id (Some <$> l) = l) as ->.
  { induction l; simpl; [done|]. by f_equal. }
  rewrite length_fmap, Nat.sub_diag. simpl. apply app_nil_r.
Qed.

End Sorting.


Section ColorSamplerProofs.
Import ColorSampler.

Lemma readByte_Some data idx :
  0 <= idx < Z.of_nat (length data) → ∃ v, readByte data idx = Some v ∧ v ∈ data.
Proof.
  intros Hidx. unfold readByte.
  destruct (Z.ltb_spec idx 0); [lia|].
  destruct (lookup_lt_is_Some_2 data (Z.to_nat idx)) as [v Hv]; [lia|].
  exists v. split; [done|]. by eapply list_elem_of_lookup_2.
Qed.

Lemma readByte_all data (idxs : list Z) :
  Forall (λ i, 0 <= i < Z.of_nat (length data)) idxs →
  ∃ vs, readByte data <$> idxs = Some <$> vs ∧ Forall (λ v, v ∈ data) vs.
Proof.
  induction 1 as [|i idxs Hi _ [vs [IH1 IH2]]].
  - by exists [].
  - destruct (readByte_Some data i Hi) as [v [Hv Hin]].
    exists (v :: vs). split; [|by constructor].
    by rewrite !fmap_cons, Hv, IH1.
Qed.

Lemma safe_coordinates width height s :
  1 <= width → 1 <= height →
  0 <= safeX width s <= width - 1 ∧ 0 <= safeY height s <= height - 1.
Proof. unfold safeX, safeY. lia. Qed.

Lemma sampleIdx_bounds width height s :
  1 <= width → 1 <= height →
  0 <= sampleIdx width height s ∧ sampleIdx width height s + 2 < 4 * width * height.
Proof.
  intros Hw Hh.
  destruct (safe_coordinates width height s Hw Hh) as [Hx Hy].
  unfold sampleIdx. nia.
Qed.

Lemma median_of_reads data (idxs : list Z) :
  length idxs = 5%nat →
  Forall (λ i, 0 <= i < Z.of_nat (length data)) idxs →
  ∃ vs v,
    readByte data <$> idxs = Some <$> vs ∧
    mjoin (sortNumbers (readByte data <$> idxs) !! 2%nat) = Some v ∧
    medianOfFive vs v ∧ v ∈ vs ∧ v ∈ data.
Proof.
  intros Hlen Hall.
  destruct (readByte_all data idxs Hall) as [vs [Hvs Hin]].
  assert (length vs = 5%nat) as Hlvs.
  { rewrite <- Hlen, <- (length_fmap (readByte data) idxs), Hvs.
    by rewrite length_fmap. }
  destruct (lookup_lt_is_Some_2 (sortAscending vs) 2) as [v Hv].
  { rewrite sortAscending_length. lia. }
  assert (v ∈ vs) as Hvin.
  { rewrite (sortAscending_perm vs). by eapply list_elem_of_lookup_2. }
  exists vs, v. split_and!; try done.
  - rewrite Hvs, sortNumbers_all_numbers, list_lookup_fmap, Hv. done.
  - split; [done|]. exists (sortAscending vs).
    split_and!; [apply sortAscending_perm|apply sortAscending_sorted|done].
  - by eapply (proj1 (Forall_forall _ _) Hin).
Qed.

Lemma sampleIdx_ext width height (s s' : Point) :
  (s.1 == s'.1)%Q → (s.2 == s'.2)%Q →
  sampleIdx width height s = sampleIdx width height s'.
Proof.
  intros H1 H2. unfold sampleIdx, safeX, safeY. by rewrite H1, H2.
Qed.

Lemma sample_indices_in_range (p1 p2 p3 : Point) (data : list Z) width height (k : Z) :
  1 <= width → 1 <= height → 0 <= k <= 2 →
  Z.of_nat (length data) = 4 * width * height →
  Forall (λ i, 0 <= i < Z.of_nat (length data))
    ((λ s, sampleIdx width height s + k) <$> samples p1 p2 p3).
Proof.
  intros Hw Hh Hk Hlen. apply Forall_fmap, Forall_forall. intros s _. simpl.
  pose proof (sampleIdx_bounds width height s Hw Hh). lia.
Qed.

(** C6: with a buffer of width >= 1 and height >= 1, every sample
    coordinate of the colour sampler is floored and clamped to
    [0, width-1] x [0, height-1] before indexing, so each buffer index
    [idx] satisfies [0 <= idx] and [idx + 2 < 4 * width * height]; the
    three channel reads at [idx], [idx+1], [idx+2] are therefore defined
    and no channel of the result is [undefined]. *)
Theorem getMedianColor_reads_in_bounds (p1 p2 p3 : Point) (data : list Z) width height :
  1 <= width → 1 <= height →
  Z.of_nat (length data) = 4 * width * height →
  (∀ s, s ∈ samples p1 p2 p3 →
     let idx := sampleIdx width height s in
     0 <= safeX width s <= width - 1 ∧
     0 <= safeY height s <= height - 1 ∧
     idx = (safeY height s * width + safeX width s) * 4 ∧
     0 <= idx ∧ idx + 2 < 4 * width * height ∧
     is_Some (readByte data idx) ∧
     is_Some (readByte data (idx + 1)) ∧
     is_Some (readByte data (idx + 2))) ∧
  let c := getMedianColor p1 p2 p3 data width height in
  is_Some (r c) ∧ is_Some (g c) ∧ is_Some (b c).
Proof.
  intros Hw Hh Hlen. split.
  - intros s _ idx.
    destruct (safe_coordinates width height s Hw Hh) as [Hx Hy].
    destruct (sampleIdx_bounds width height s Hw Hh) as [H0 H2].
    fold idx in H0, H2.
    split_and!; try done; try lia.
    all: match goal with |- is_Some (readByte _ ?i) =>
           destruct (readByte_Some data i) as [v [-> _]]; [lia|by eexists] end.
  - intros c. subst c. unfold getMedianColor; cbn [r g b].
    assert (∀ k, 0 <= k <= 2 →
              is_Some (mjoin (sortNumbers ((λ idx, readByte data (idx + k)) <$>
                (sampleIdx width height <$> samples p1 p2 p3)) !! 2%nat))) as Hch.
    { intros k Hk.
      pose proof (sample_indices_in_range p1 p2 p3 data width height k
                    Hw Hh Hk Hlen) as Hall.
      apply median_of_reads in Hall; [|by rewrite length_fmap].
      destruct Hall as (vs & v & _ & Hv & _).
      rewrite <- list_fmap_compose in Hv. unfold compose in Hv.
      rewrite <- list_fmap_compose. unfold compose. by exists v. }
    split_and!; [|apply Hch; lia|apply Hch; lia].
    destruct (Hch 0 ltac:(lia)) as [v Hv]. exists v. rewrite <- Hv.
    do 3 f_equal. apply list_fmap_ext. intros ???. f_equal. lia.
Qed.

Lemma getMedianColor_reads_in_bounds_witness :
  let c := getMedianColor (0, 0)%Q (2, 0)%Q (0, 2)%Q demoImage2x2 2 2 in
  is_Some (r c) ∧ is_Some (g c) ∧ is_Some (b c).
Proof.
  apply (getMedianColor_reads_in_bounds (0, 0)%Q (2, 0)%Q (0, 2)%Q
           demoImage2x2 2 2); [lia | lia | reflexivity].
Defined.

(** The median of the five reads, with the index of a read given by
    [sampleIdx]. *)
Lemma median_of_samples (p1 p2 p3 : Point) (data : list Z) width height :
  1 <= width → 1 <= height → pixelBuffer width height data →
  let centroid : Point :=
    (((p1.1 + p2.1 + p3.1) / 3)%Q, ((p1.2 + p2.2 + p3.2) / 3)%Q) in
  let blend (pa pb pc : Point) : Point :=
    (((2 * pa.1 + pb.1 + pc.1) / 4)%Q, ((2 * pa.2 + pb.2 + pc.2) / 4)%Q) in
  let locations :=
    [centroid; blend p1 p2 p3; blend p2 p1 p3; blend p3 p1 p2; centroid] in
  let sampled (ch : Z) :=
    (λ s, readByte data (sampleIdx width height s + ch)) <$> locations in
  let c := getMedianColor p1 p2 p3 data width height in
  ∃ rs gs bs vr vg vb,
    sampled 0 = Some <$> rs ∧ sampled 1 = Some <$> gs ∧ sampled 2 = Some <$> bs ∧
    r c = Some vr ∧ g c = Some vg ∧ b c = Some vb ∧
    (0 <= vr <= 255 ∧ vr ∈ rs ∧ medianOfFive rs vr) ∧
    (0 <= vg <= 255 ∧ vg ∈ gs ∧ medianOfFive gs vg) ∧
    (0 <= vb <= 255 ∧ vb ∈ bs ∧ medianOfFive bs vb).
Proof.
  intros Hw Hh [Hlen Hrange] centroid blend locations sampled c.
  assert (∀ ch, sampled ch =
            readByte data <$> ((λ s, sampleIdx width height s + ch) <$> samples p1 p2 p3))
    as Hsampled.
  { intros ch. unfold sampled, locations, samples. simpl.
    rewrite (sampleIdx_ext width height (blend p2 p1 p3)
               (((p1.1 + 2 * p2.1 + p3.1) / 4)%Q, ((p1.2 + 2 * p2.2 + p3.2) / 4)%Q))
      by (simpl; field).
    rewrite (sampleIdx_ext width height (blend p3 p1 p2)
               (((p1.1 + p2.1 + 2 * p3.1) / 4)%Q, ((p1.2 + p2.2 + 2 * p3.2) / 4)%Q))
      by (simpl; field).
    reflexivity. }
  assert (∀ k, 0 <= k <= 2 → ∃ vs v,
            sampled k = Some <$> vs ∧
            mjoin (sortNumbers (sampled k) !! 2%nat) = Some v ∧
            0 <= v <= 255 ∧ v ∈ vs ∧ medianOfFive vs v) as Hch.
  { intros k Hk. rewrite Hsampled.
    pose proof (sample_indices_in_range p1 p2 p3 data width height k
                  Hw Hh Hk Hlen) as Hall.
    apply median_of_reads in Hall; [|by rewrite length_fmap].
    destruct Hall as (vs & v & H1 & H2 & H3 & H4 & H5).
    exists vs, v. split_and!; try done.
    all: by apply (proj1 (Forall_forall _ _) Hrange). }
  assert (∀ k, sampled k = (λ idx, readByte data (idx + k)) <$>
                             (sampleIdx width height <$> samples p1 p2 p3)) as Hcode.
  { intros k. rewrite Hsampled, <- !list_fmap_compose. done. }
  destruct (Hch 0 ltac:(lia)) as (rs & vr & Hr1 & Hr2 & Hr3 & Hr4 & Hr5).
  destruct (Hch 1 ltac:(lia)) as (gs & vg & Hg1 & Hg2 & Hg3 & Hg4 & Hg5).
  destruct (Hch 2 ltac:(lia)) as (bs & vb & Hb1 & Hb2 & Hb3 & Hb4 & Hb5).
  exists rs, gs, bs, vr, vg, vb. split_and!; try done; try lia.
  - subst c. unfold getMedianColor; cbn [r]. rewrite <- Hr2, Hcode.
    do 3 f_equal. apply list_fmap_ext. intros ???. f_equal. lia.
  - subst c. unfold getMedianColor; cbn [g]. by rewrite <- Hg2, Hcode.
  - subst c. unfold getMedianColor; cbn [b]. by rewrite <- Hb2, Hcode.
Qed.

(** C1: on a pixel buffer of width >= 1 and height >= 1, each channel
    returned by the colour sampler lies in [0,255], is one of the five
    channel values read at the five sample locations (the centroid twice
    and the three blends (2*pa+pb+pc)/4), and is the element of index 2
    of those five values sorted ascending, channel by channel.  The value
    read at a location [(sx, sy)] is the entry of the buffer at
    [(y * width + x) * 4 + channel], [x] and [y] being the floors of [sx]
    and [sy] clamped to the image. *)
Theorem getMedianColor_is_median (p1 p2 p3 : Point) (data : list Z) width height :
  1 <= width → 1 <= height → pixelBuffer width height data →
  let centroid : Point :=
    (((p1.1 + p2.1 + p3.1) / 3)%Q, ((p1.2 + p2.2 + p3.2) / 3)%Q) in
  let blend (pa pb pc : Point) : Point :=
    (((2 * pa.1 + pb.1 + pc.1) / 4)%Q, ((2 * pa.2 + pb.2 + pc.2) / 4)%Q) in
  let locations :=
    [centroid; blend p1 p2 p3; blend p2 p1 p3; blend p3 p1 p2; centroid] in
  let index (s : Point) : Z :=
    let x := Z.max 0 (Z.min (width - 1) (Qfloor s.1)) in
    let y := Z.max 0 (Z.min (height - 1) (Qfloor s.2)) in
    (y * width + x) * 4 in
  let sampled (ch : Z) :=
    (λ s, data !! Z.to_nat (index s + ch)) <$> locations in
  let c := getMedianColor p1 p2 p3 data width height in
  Forall (λ s, 0 <= index s) locations ∧
  ∃ rs gs bs vr vg vb,
    sampled 0 = Some <$> rs ∧ sampled 1 = Some <$> gs ∧ sampled 2 = Some <$> bs ∧
    r c = Some vr ∧ g c = Some vg ∧ b c = Some vb ∧
    (0 <= vr <= 255 ∧ vr ∈ rs ∧ medianOfFive rs vr) ∧
    (0 <= vg <= 255 ∧ vg ∈ gs ∧ medianOfFive gs vg) ∧
    (0 <= vb <= 255 ∧ vb ∈ bs ∧ medianOfFive bs vb).
Proof.
  intros Hw Hh Hbuf centroid blend locations index sampled c.
  assert (∀ s, index s = sampleIdx width height s) as Hindex by done.
  assert (∀ s, 0 <= index s) as Hnonneg.
  { intros s. rewrite Hindex. by apply sampleIdx_bounds. }
  split; [apply Forall_forall; intros s _; apply Hnonneg|].
  assert (∀ ch, 0 <= ch →
            sampled ch =
              (λ s, readByte data (sampleIdx width height s + ch)) <$> locations)
    as Hread.
  { intros ch Hch. apply list_fmap_ext. intros _ s _. simpl.
    unfold readByte. change (sampleIdx width height s) with (index s).
    destruct (Z.ltb_spec (index s + ch) 0) as [Hneg|_]; [|done].
    specialize (Hnonneg s). lia. }
  rewrite !Hread by lia.
  apply (median_of_samples p1 p2 p3 data width height Hw Hh Hbuf).
Qed.

Lemma getMedianColor_is_median_witness :
  (ColorSampler.r (ColorSampler.getMedianColor (1, 0)%Q (2, 0)%Q (2, 2)%Q
                     demoImage2x2 2 2) = Some 200 ∧
   ColorSampler.g (ColorSampler.getMedianColor (1, 0)%Q (2, 0)%Q (2, 2)%Q
                     demoImage2x2 2 2) = Some 20 ∧
   ColorSampler.b (ColorSampler.getMedianColor (1, 0)%Q (2, 0)%Q (2, 2)%Q
                     demoImage2x2 2 2) = Some 90) ∧
  ∃ rs gs bs vr vg vb,
    Some <$> [ 200; 200; 200; 40; 200 ] = Some <$> rs ∧
    Some <$> [ 20; 20; 20; 80; 20 ] = Some <$> gs ∧
    Some <$> [ 90; 90; 90; 70; 90 ] = Some <$> bs ∧
    Some 200 = Some vr ∧ Some 20 = Some vg ∧ Some 90 = Some vb ∧
    (0 <= vr <= 255 ∧ vr ∈ rs ∧ medianOfFive rs vr) ∧
    (0 <= vg <= 255 ∧ vg ∈ gs ∧ medianOfFive gs vg) ∧
    (0 <= vb <= 255 ∧ vb ∈ bs ∧ medianOfFive bs vb).
Proof.
  split; [by vm_compute|].
  exact (proj2 (getMedianColor_is_median (1, 0)%Q (2, 0)%Q (2, 2)%Q demoImage2x2 2 2
                  ltac:(lia) ltac:(lia)
                  ltac:(split; [reflexivity|unfold demoImage2x2; repeat constructor; lia]))).
Defined.

End ColorSamplerProofs.

Example toFixed1_examples :
  toFixed1 (1 # 4) = "0.3" ∧ toFixed1 (-(1 # 25)) = "-0.0" ∧
  toFixed1 (12345 # 100) = "123.5" ∧ toFixed1 800 = "800.0" ∧
  pointKey (3 # 2) 7 = "1.5,7.0".
Proof. vm_compute. done. Qed.

Section KeyProofs.

Lemma string_app_nil_l (s : string) : "" +:+ s = s.
Proof. reflexivity. Qed.

Lemma string_app_cons c (s t : string) : String c s +:+ t = String c (s +:+ t).
Proof. reflexivity. Qed.

Lemma allChars_app P s t :
  allChars P (s +:+ t) = allChars P s && allChars P t.
Proof.
  induction s as [|c s IH]; [done|].
  rewrite string_app_cons. simpl. by rewrite IH, andb_assoc.
Qed.

Lemma string_app_assoc (s t u : string) : s +:+ (t +:+ u) = (s +:+ t) +:+ u.
Proof.
  induction s as [|c s IH]; [done|]. rewrite !string_app_cons. by f_equal.
Qed.

Lemma allChars_weaken (P P' : ascii → bool) s :
  (∀ c, P c = true → P' c = true) → allChars P s = true → allChars P' s = true.
Proof.
  intros HP. induction s as [|c s IH]; simpl; [done|].
  rewrite !andb_true_iff. intros [??]. auto.
Qed.

(** A separator that is not in the class of the text before it is found
    at one place only. *)
Lemma split_unique P c a a' t t' :
  P c = false → allChars P a = true → allChars P a' = true →
  a +:+ String c t = a' +:+ String c t' → a = a' ∧ t = t'.
Proof.
  intros Hc. revert a'. induction a as [|x a IH]; intros [|x' a'];
    rewrite ?string_app_nil_l, ?string_app_cons; simpl.
  - intros _ _ [= ->]. done.
  - rewrite andb_true_iff. intros _ [Hx _] [= <- _]. congruence.
  - rewrite andb_true_iff. intros [Hx _] _ [= -> _]. congruence.
  - rewrite !andb_true_iff. intros [_ Ha] [_ Ha'] [= -> Heq].
    destruct (IH a' Ha Ha' Heq) as [-> ->]. done.
Qed.

Lemma pretty_N_char_digit d : isDigit (pretty_N_char d) = true.
Proof. unfold pretty_N_char. by repeat case_match. Qed.

Lemma pretty_N_go_digits x s :
  allChars isDigit s = true → allChars isDigit (pretty_N_go x s) = true.
Proof.
  revert s. induction (N.lt_wf_0 x) as [x _ IH]; intros s Hs.
  destruct (decide (x = 0)%N) as [->|Hx]; [by rewrite pretty_N_go_0|].
  rewrite pretty_N_go_step by lia. apply IH.
  - apply N.div_lt; lia.
  - simpl. by rewrite pretty_N_char_digit.
Qed.

Lemma pretty_N_digits (x : N) : allChars isDigit (pretty x) = true.
Proof.
  unfold pretty, pretty_N. case_decide; [done|]. by apply pretty_N_go_digits.
Qed.

Lemma Qltb_spec x y : reflect (x < y)%Q (Qltb x y).
Proof.
  unfold Qltb. destruct (Qle_bool y x) eqn:Hle; simpl; constructor.
  - apply Qle_bool_iff in Hle. lra.
  - assert (¬ (y <= x)%Q) by (rewrite <- Qle_bool_iff; congruence). lra.
Qed.

Lemma roundTenths_nonneg x : 0 <= roundTenths x.
Proof.
  unfold roundTenths.
  apply (Qfloor_resp_le 0). destruct (Qltb_spec x 0); lra.
Qed.

Lemma digit_isSignOrDigit c : isDigit c = true → isSignOrDigit c = true.
Proof. intros Hc. unfold isSignOrDigit. by rewrite Hc. Qed.

Lemma digit_isNumberChar c : isDigit c = true → isNumberChar c = true.
Proof. intros Hc. unfold isNumberChar, isSignOrDigit. by rewrite Hc. Qed.

Lemma toFixed1_chars x : allChars isNumberChar (toFixed1 x) = true.
Proof.
  unfold toFixed1. rewrite !allChars_app.
  rewrite !(allChars_weaken isDigit isNumberChar _ digit_isNumberChar
              (pretty_N_digits _)).
  by destruct (Qltb x 0).
Qed.

Lemma signed_integer_chars (neg : bool) (i : N) :
  allChars isSignOrDigit ((if neg then "-" else "") +:+ pretty i) = true.
Proof.
  rewrite allChars_app.
  rewrite (allChars_weaken isDigit isSignOrDigit _ digit_isSignOrDigit
             (pretty_N_digits _)).
  by destruct neg.
Qed.

(** The printed coordinate determines the sign and the rounded tenths. *)
Lemma toFixed1_inj x x' :
  toFixed1 x = toFixed1 x' →
  Qltb x 0 = Qltb x' 0 ∧ roundTenths x = roundTenths x'.
Proof.
  unfold toFixed1. intros Heq.
  pose proof (roundTenths_nonneg x) as Hn.
  pose proof (roundTenths_nonneg x') as Hn'.
  set (n := roundTenths x) in *. set (n' := roundTenths x') in *.
  rewrite (string_app_assoc _ (pretty (Z.to_N (n / 10)))) in Heq.
  rewrite (string_app_assoc _ (pretty (Z.to_N (n' / 10)))) in Heq.
  change ("." +:+ ?s) with (String "." s) in Heq.
  apply (split_unique isSignOrDigit) in Heq as [Hint Hfrac];
    [|done|apply signed_integer_chars..].
  apply (inj pretty) in Hfrac.
  assert (Z.to_N (n / 10) = Z.to_N (n' / 10) ∧ Qltb x 0 = Qltb x' 0) as [Hq Hs].
  { destruct (Qltb x 0), (Qltb x' 0);
      rewrite ?string_app_cons, ?string_app_nil_l in Hint.
    - injection Hint as Hint. by apply (inj pretty) in Hint.
    - pose proof (pretty_N_digits (Z.to_N (n' / 10))) as Hd.
      rewrite <- Hint in Hd. done.
    - pose proof (pretty_N_digits (Z.to_N (n / 10))) as Hd.
      rewrite Hint in Hd. done.
    - by apply (inj pretty) in Hint. }
  split; [done|].
  assert (n / 10 = n' / 10)
    by (apply Z2N.inj in Hq; [done|..]; apply Z.div_pos; lia).
  assert (n mod 10 = n' mod 10)
    by (apply Z2N.inj in Hfrac; [done|..]; apply Z.mod_pos_bound; lia).
  rewrite (Z.div_mod n 10), (Z.div_mod n' 10) by done. congruence.
Qed.

(** The key determines both printed coordinates. *)
Lemma pointKey_inj x y x' y' :
  pointKey x y = pointKey x' y' →
  toFixed1 x = toFixed1 x' ∧ toFixed1 y = toFixed1 y'.
Proof.
  unfold pointKey. intros Heq.
  apply (split_unique isNumberChar) in Heq; [done|done|..]; apply toFixed1_chars.
Qed.

(** Two coordinates printed alike are less than a tenth apart. *)
Lemma toFixed1_close x x' :
  toFixed1 x = toFixed1 x' → (Qabs (x - x') < 1 # 10)%Q.
Proof.
  intros Heq. apply toFixed1_inj in Heq as [Hsign Hn].
  unfold roundTenths in Hn. rewrite <- Hsign in Hn.
  set (m := (if Qltb x 0 then - x else x)%Q) in *.
  set (m' := (if Qltb x 0 then - x' else x')%Q) in *.
  pose proof (Qfloor_le (10 * m + (1 # 2))%Q) as H1.
  pose proof (Qlt_floor (10 * m + (1 # 2))%Q) as H2.
  pose proof (Qfloor_le (10 * m' + (1 # 2))%Q) as H3.
  pose proof (Qlt_floor (10 * m' + (1 # 2))%Q) as H4.
  rewrite <- Hn in H3, H4.
  rewrite inject_Z_plus in H2, H4. change (inject_Z 1) with 1%Q in *.
  set (n := inject_Z (Qfloor (10 * m + (1 # 2))%Q)) in *.
  assert (- (1 # 10) < m - m' < 1 # 10)%Q as Hm by lra.
  apply Qabs_Qlt_condition.
  subst m m'. destruct (Qltb x 0); lra.
Qed.

Lemma pointKey_close x y x' y' :
  pointKey x y = pointKey x' y' →
  (Qabs (x - x') < 1 # 10)%Q ∧ (Qabs (y - y') < 1 # 10)%Q.
Proof.
  intros Heq. apply pointKey_inj in Heq as [Hx Hy].
  split; by apply toFixed1_close.
Qed.

End KeyProofs.

Section AddPointProofs.

Lemma addPoint_fresh x y st :
  pointKey x y ∉ pointsMap st →
  addPoint x y st =
    {| pointsMap := {[pointKey x y]} ∪ pointsMap st;
       points := points st ++ [(x, y)] |}.
Proof. intros Hk. unfold addPoint. by rewrite decide_False. Qed.

Lemma addPoint_duplicate x y st :
  pointKey x y ∈ pointsMap st → addPoint x y st = st.
Proof. intros Hk. unfold addPoint. by rewrite decide_True. Qed.

(** C3 (as the code has it): two points that are at least 0.1 apart along
    one of the axes, in particular two points whose Euclidean separation
    is at least 0.1 * sqrt 2 (squared separation >= 0.02), have different
    keys; inserted one after the other into a sampler holding neither
    key, both are stored. *)
Theorem addPoint_keeps_separated (x1 y1 x2 y2 : Q) (st : Sampler) :
  ((1 # 10) <= Qabs (x1 - x2) ∨ (1 # 10) <= Qabs (y1 - y2) ∨
   (1 # 50) <= (x1 - x2) * (x1 - x2) + (y1 - y2) * (y1 - y2))%Q →
  pointKey x1 y1 ∉ pointsMap st →
  pointKey x2 y2 ∉ pointsMap st →
  pointKey x1 y1 ≠ pointKey x2 y2 ∧
  points (addPoint x2 y2 (addPoint x1 y1 st)) =
    points st ++ [(x1, y1); (x2, y2)].
Proof.
  intros Hsep Hk1 Hk2.
  assert (pointKey x1 y1 ≠ pointKey x2 y2) as Hne.
  { intros Heq. apply pointKey_close in Heq as [Hx Hy].
    apply Qabs_Qlt_condition in Hx, Hy.
    destruct Hsep as [Hsep|[Hsep|Hsep]].
    - revert Hsep. apply Qlt_not_le, Qabs_Qlt_condition. done.
    - revert Hsep. apply Qlt_not_le, Qabs_Qlt_condition. done.
    - set (dx := (x1 - x2)%Q) in *. set (dy := (y1 - y2)%Q) in *.
      assert (dx * dx < 1 # 100)%Q by nra.
      assert (dy * dy < 1 # 100)%Q by nra.
      lra. }
  split; [done|].
  rewrite (addPoint_fresh x1 y1 st Hk1).
  rewrite addPoint_fresh; simpl; [by rewrite <- app_assoc|].
  intros [Heq%elem_of_singleton|Hin]%elem_of_union; [by symmetry in Heq|done].
Qed.

Lemma addPoint_keeps_separated_witness :
  pointKey (1 # 2) 3 ≠ pointKey (3 # 5) 3 ∧
  points (addPoint (3 # 5) 3 (addPoint (1 # 2) 3 emptySampler)) =
    [((1 # 2)%Q, 3%Q); ((3 # 5)%Q, 3%Q)].
Proof.
  apply (addPoint_keeps_separated (1 # 2) 3 (3 # 5) 3 emptySampler).
  - left. vm_compute. discriminate.
  - apply not_elem_of_empty.
  - apply not_elem_of_empty.
Defined.

(** C3 (as stated) fails: (0.96, 0.96) and (1.04, 1.04) are more than 0.1
    apart, both print as [1.0,1.0], and the second insertion is dropped. *)
Lemma addPoint_merges_points_a_tenth_apart :
  let p : Point := ((24 # 25)%Q, (24 # 25)%Q) in
  let q : Point := ((26 # 25)%Q, (26 # 25)%Q) in
  ((1 # 10) * (1 # 10) <=
     (q.1 - p.1) * (q.1 - p.1) + (q.2 - p.2) * (q.2 - p.2))%Q ∧
  pointKey p.1 p.2 = "1.0,1.0" ∧ pointKey q.1 q.2 = "1.0,1.0" ∧
  points (addPoint q.1 q.2 (addPoint p.1 p.2 emptySampler)) = [p].
Proof.
  split_and!; [by vm_compute|by vm_compute..].
Qed.

End AddPointProofs.

Section LoopProofs.
Context {S : Type}.

(** Whatever the bound on the iterations, an invariant of the body is an
    invariant of the loop. *)
Lemma forLoop_invariant (P : S → Prop) fuel i cond step body st :
  (∀ j st, cond j = true → P st → P (body j st)) →
  P st → P (forLoop fuel i cond step body st).
Proof.
  intros Hbody. revert i st.
  induction fuel as [|fuel IH]; intros i st Hst; simpl; [done|].
  destruct (cond i) eqn:Hc; [|done]. apply IH. by apply Hbody.
Qed.

Lemma forLoop_upTo_rule (P : Z → S → Prop) start hi step body fuel i st :
  1 <= step → start <= i → (Z.to_nat (hi - i + 1) <= fuel)%nat →
  (∀ j st, start <= j <= hi → P j st → P (j + step) (body j st)) →
  P i st →
  ∃ j, hi < j ∧ start <= j ∧ P j (forLoop fuel i (λ i, i <=? hi) step body st).
Proof.
  intros Hstep Hi Hfuel Hbody. revert i st Hi Hfuel.
  induction fuel as [|fuel IH]; intros i st Hi Hfuel Hst; simpl.
  - exists i. split_and!; [lia|done..].
  - destruct (Z.leb_spec i hi).
    + apply IH; [lia|lia|]. apply Hbody; [lia|done].
    + exists i. split_and!; [lia|done..].
Qed.

(** The rule of the loop [for (i = start; i <= hi; i += step)]: the loop
    runs until the index exceeds [hi]. *)
Lemma forUpTo_rule (P : Z → S → Prop) start hi step body st :
  1 <= step →
  P start st →
  (∀ j st, start <= j <= hi → P j st → P (j + step) (body j st)) →
  ∃ j, hi < j ∧ start <= j ∧ P j (forUpTo start hi step body st).
Proof.
  intros Hstep Hst Hbody. unfold forUpTo.
  apply (forLoop_upTo_rule P start); [done|lia|lia|done|done].
Qed.

Lemma forLoop_below_rule (P : Z → S → Prop) start hi step body fuel i st :
  1 <= step → start <= i → (Z.to_nat (hi - i) <= fuel)%nat →
  (∀ j st, start <= j < hi → P j st → P (j + step) (body j st)) →
  P i st →
  ∃ j, hi <= j ∧ start <= j ∧ P j (forLoop fuel i (λ i, i <? hi) step body st).
Proof.
  intros Hstep Hi Hfuel Hbody. revert i st Hi Hfuel.
  induction fuel as [|fuel IH]; intros i st Hi Hfuel Hst; simpl.
  - exists i. split_and!; [lia|done..].
  - destruct (Z.ltb_spec i hi).
    + apply IH; [lia|lia|]. apply Hbody; [lia|done].
    + exists i. split_and!; [lia|done..].
Qed.

(** The rule of the loop [for (i = start; i < hi; i += step)]. *)
Lemma forBelow_rule (P : Z → S → Prop) start hi step body st :
  1 <= step →
  P start st →
  (∀ j st, start <= j < hi → P j st → P (j + step) (body j st)) →
  ∃ j, hi <= j ∧ start <= j ∧ P j (forBelow start hi step body st).
Proof.
  intros Hstep Hst Hbody. unfold forBelow.
  apply (forLoop_below_rule P start); [done|lia|lia|done|done].
Qed.

(** With unit steps the loop stops at [hi] exactly (at [start] when the
    range is empty). *)
Lemma forBelow_unit_rule (P : Z → S → Prop) start hi body st :
  P start st →
  (∀ j st, start <= j < hi → P j st → P (j + 1) (body j st)) →
  P (Z.max start hi) (forBelow start hi 1 body st).
Proof.
  intros Hst Hbody.
  destruct (forBelow_rule (λ j st, j <= Z.max start hi ∧ P j st)
              start hi 1 body st) as (j & Hj1 & Hj2 & Hj3 & HP); [lia|..].
  - split; [lia|done].
  - intros j st' Hj [_ HP]. split; [lia|by apply Hbody].
  - by replace (Z.max start hi) with j by lia.
Qed.

Lemma forBelow_invariant (P : S → Prop) start hi step body st :
  (∀ j st, j < hi → P st → P (body j st)) →
  P st → P (forBelow start hi step body st).
Proof.
  intros Hbody. apply forLoop_invariant. intros j st' Hj%Z.ltb_lt. by apply Hbody.
Qed.

Lemma forUpTo_invariant (P : S → Prop) start hi step body st :
  (∀ j st, j <= hi → P st → P (body j st)) →
  P st → P (forUpTo start hi step body st).
Proof.
  intros Hbody. apply forLoop_invariant. intros j st' Hj%Z.leb_le. by apply Hbody.
Qed.

End LoopProofs.

Section SobelProofs.
Context `{Builtins}.

Lemma readAt_writeAt_eq {A} (arr : list A) idx v :
  0 <= idx < Z.of_nat (length arr) → readAt (writeAt idx v arr) idx = Some v.
Proof.
  intros Hidx. unfold readAt, writeAt.
  destruct (Z.ltb_spec idx 0); [lia|].
  apply list_lookup_insert_eq. lia.
Qed.

Lemma readAt_writeAt_ne {A} (arr : list A) idx idx' v :
  0 <= idx' → idx ≠ idx' → readAt (writeAt idx v arr) idx' = readAt arr idx'.
Proof.
  intros Hidx Hne. unfold readAt, writeAt.
  destruct (Z.ltb_spec idx' 0); [lia|].
  destruct (Z.ltb_spec idx 0); [done|].
  apply list_lookup_insert_ne. lia.
Qed.

Lemma length_writeAt {A} (arr : list A) idx v :
  length (writeAt idx v arr) = length arr.
Proof. unfold writeAt. destruct (idx <? 0); [done|apply length_insert]. Qed.

Lemma pixel_index_inj width x y x' y' :
  0 <= x < width → 0 <= x' < width →
  y' * width + x' = y * width + x → x' = x ∧ y' = y.
Proof.
  intros Hx Hx' Heq.
  assert (y' = y) as ->.
  { rewrite (Z.div_unique (y' * width + x') width y' x') by lia.
    rewrite Heq. symmetry. apply Z.div_unique with x; lia. }
  split; [lia|done].
Qed.

(** In the interior every channel read by [getGray] is inside the
    buffer, so no [undefined] enters the gradient. *)
Lemma getGray_reads_in_range (blurredData : list Z) width height x y ox oy k :
  Z.of_nat (length blurredData) = 4 * width * height →
  1 <= x < width - 1 → 1 <= y < height - 1 →
  -1 <= ox <= 1 → -1 <= oy <= 1 → 0 <= k <= 2 →
  is_Some (readByte blurredData (((y + oy) * width + (x + ox)) * 4 + k)).
Proof.
  intros Hlen Hx Hy Hox Hoy Hk.
  destruct (readByte_Some blurredData (((y + oy) * width + (x + ox)) * 4 + k))
    as [v [-> _]]; [nia|by eexists].
Qed.

Lemma sobelGrad_nonneg data width x y :
  (∀ a, 0 <= a → 0 <= mathSqrt a)%Q → (0 <= sobelGrad data width x y)%Q.
Proof.
  intros Hsqrt. unfold sobelGrad. cbv zeta. apply Hsqrt.
  match goal with |- (0 <= ?gx * ?gx + ?gy * ?gy)%Q =>
    generalize gx gy end.
  intros gx gy. nra.
Qed.

Lemma sobelPass_upTo data width height :
  0 <= width → 0 <= height →
  sobelUpTo data width height 1 (Z.max 1 (height - 1))
    (sobelPass data width height).
Proof.
  intros Hw Hh. unfold sobelPass.
  apply (forBelow_unit_rule (λ y, sobelUpTo data width height 1 y)).
  - split; [rewrite length_replicate; nia|].
    intros x' y' Hx' Hy'. exists 0%Q. split_and!; [|unfold visited; intros ?; lia|done].
    unfold readAt. destruct (Z.ltb_spec (y' * width + x') 0); [nia|].
    apply lookup_replicate_2. nia.
  - intros y sobelData Hy Hinv.
    assert (sobelUpTo data width height (Z.max 1 (width - 1)) y
              (forBelow 1 (width - 1) 1
                 (λ x sobelData,
                    writeAt (y * width + x) (sobelGrad data width x y) sobelData)
                 sobelData)) as [Hlen Hcells].
    { apply (forBelow_unit_rule (λ x, sobelUpTo data width height x y));
        [done|].
      clear sobelData Hinv. intros x sobelData Hx [Hlen Hcells]. split.
      - by rewrite length_writeAt.
      - intros x' y' Hx' Hy'.
        destruct (decide (y' * width + x' = y * width + x)) as [Heq|Hne].
        + assert (x' = x ∧ y' = y) as [-> ->]
            by (apply (pixel_index_inj width); [lia|lia|done]).
          exists (sobelGrad data width x y). split_and!; [|done|].
          * apply readAt_writeAt_eq. nia.
          * intros Hnot. exfalso. apply Hnot. unfold visited. lia.
        + destruct (Hcells x' y' Hx' Hy') as (v & Hv & Hvis & Hnot).
          exists v. split_and!.
          * rewrite readAt_writeAt_ne; [done|nia|done].
          * intros Hv'. apply Hvis. unfold visited in *.
            assert (¬ (x' = x ∧ y' = y)) by (intros [-> ->]; done). lia.
          * intros Hv'. apply Hnot. unfold visited in *. lia. }
    split; [done|].
    intros x' y' Hx' Hy'. destruct (Hcells x' y' Hx' Hy') as (v & Hv & Hvis & Hnot).
    exists v. split_and!; [done|..].
    + intros Hv'. apply Hvis. unfold visited in *. lia.
    + intros Hv'. apply Hnot. unfold visited in *. lia.
Qed.

(** C7: every value of the edge field produced by the Sobel pass is
    non-negative; an interior pixel holds [sqrt (gx*gx + gy*gy)] for the
    Sobel gradients of the luma, and every border pixel (row 0, column 0,
    last row, last column) holds exactly zero. *)
Theorem sobelPass_edge_field (data : list Z) (width height : Z) :
  (∀ a, 0 <= a → 0 <= mathSqrt a)%Q →
  0 <= width → 0 <= height →
  let sobelData := sobelPass data width height in
  Z.of_nat (length sobelData) = width * height ∧
  ∀ x y, 0 <= x < width → 0 <= y < height →
    ∃ v, readAt sobelData (y * width + x) = Some v ∧
         (0 <= v)%Q ∧
         (x = 0 ∨ x = width - 1 ∨ y = 0 ∨ y = height - 1 → v = 0%Q) ∧
         (1 <= x < width - 1 → 1 <= y < height - 1 →
            v = sobelGrad data width x y).
Proof.
  intros Hsqrt Hw Hh sobelData.
  destruct (sobelPass_upTo data width height Hw Hh) as [Hlen Hcells].
  split; [done|].
  intros x y Hx Hy. destruct (Hcells x y Hx Hy) as (v & Hv & Hvis & Hnot).
  exists v. split_and!; [done|..].
  - destruct (decide (visited width height 1 (Z.max 1 (height - 1)) x y))
      as [Hyes|Hno].
    + rewrite (Hvis Hyes). by apply sobelGrad_nonneg.
    + by rewrite (Hnot Hno).
  - intros Hborder. apply Hnot. unfold visited. lia.
  - intros Hx' Hy'. apply Hvis. unfold visited. lia.
Qed.

End SobelProofs.

Lemma sobelPass_edge_field_witness :
  let sobelData := sobelPass (H := demoBuiltins) demoImage3x3 3 3 in
  Z.of_nat (length sobelData) = 3 * 3 ∧
  ∀ x y, 0 <= x < 3 → 0 <= y < 3 →
    ∃ v, readAt sobelData (y * 3 + x) = Some v ∧
         (0 <= v)%Q ∧
         (x = 0 ∨ x = 3 - 1 ∨ y = 0 ∨ y = 3 - 1 → v = 0%Q) ∧
         (1 <= x < 3 - 1 → 1 <= y < 3 - 1 →
            v = sobelGrad (H := demoBuiltins) demoImage3x3 3 x y).
Proof.
  apply (sobelPass_edge_field (H := demoBuiltins) demoImage3x3 3 3); [|lia|lia].
  intros a _. simpl. unfold Qle. simpl.
  pose proof (Z.sqrt_nonneg (Qfloor a)). lia.
Defined.

Example sobelPass_demo :
  sobelPass (H := demoBuiltins) demoImage3x3 3 3 =
    [0; 0; 0; 0; 1000; 0; 0; 0; 0]%Q.
Proof. vm_compute. reflexivity. Qed.

Section SamplerProofs.
Context `{Builtins}.

Lemma samplerInv_empty : samplerInv emptySampler.
Proof.
  split; simpl; [constructor|]. intros k. split; intros Hk.
  - by apply not_elem_of_empty in Hk.
  - by apply not_elem_of_nil in Hk.
Qed.

Lemma addPoint_cases x y st :
  (pointKey x y ∈ pointsMap st ∧ addPoint x y st = st) ∨
  ((pointKey x y ∉ pointsMap st) ∧
   addPoint x y st = {| pointsMap := {[pointKey x y]} ∪ pointsMap st;
                        points := points st ++ [(x, y)] |}).
Proof.
  destruct (decide (pointKey x y ∈ pointsMap st)) as [Hin|Hnin].
  - left. split; [done|by apply addPoint_duplicate].
  - right. split; [done|by apply addPoint_fresh].
Qed.

Lemma samplerInv_addPoint : addPointClosed samplerInv.
Proof.
  intros x y st [Hnd Hkeys].
  destruct (addPoint_cases x y st) as [[_ ->]|[Hnin ->]]; [done|].
  split; simpl.
  - rewrite fmap_app. apply NoDup_app. split_and!; [done| |by apply NoDup_singleton].
    intros k Hk [->|[]%not_elem_of_nil]%elem_of_cons.
    by apply Hnin, Hkeys.
  - intros k. rewrite fmap_app, elem_of_app, elem_of_union, elem_of_singleton.
    rewrite Hkeys. simpl. rewrite list_elem_of_singleton. tauto.
Qed.

Lemma addPoint_key_stored x y st : pointKey x y ∈ pointsMap (addPoint x y st).
Proof.
  destruct (addPoint_cases x y st) as [[Hin ->]|[_ ->]]; [done|].
  simpl. apply elem_of_union_l, elem_of_singleton. done.
Qed.

Lemma addPoint_prefix x y st : points st `prefix_of` points (addPoint x y st).
Proof.
  destruct (addPoint_cases x y st) as [[_ ->]|[_ ->]]; [done|].
  by apply prefix_app_r.
Qed.

Lemma prefix_closed (pts : list Point) :
  addPointClosed (λ st, pts `prefix_of` points st).
Proof. intros x y st Hst. etrans; [done|apply addPoint_prefix]. Qed.

Lemma addCorners_closed P width height st :
  addPointClosed P → P st → P (addCorners width height st).
Proof. intros HP Hst. unfold addCorners. by repeat apply HP. Qed.

Lemma addBorder_closed P step width height st :
  addPointClosed P → P st → P (addBorder step width height st).
Proof.
  intros HP Hst. unfold addBorder.
  apply forUpTo_invariant; [intros; by repeat apply HP|].
  apply forUpTo_invariant; [intros; by repeat apply HP|done].
Qed.

Lemma processCell_closed P fuel q sobelData width height cx cy size depth st :
  addPointClosed P → P st.1 →
  P (processCell fuel q sobelData width height cx cy size depth st).1.
Proof.
  intros HP. revert cx cy size depth st.
  induction fuel as [|fuel IH]; intros cx cy size depth st Hst; simpl.
  - repeat case_match; simpl; try done; by apply HP.
  - repeat case_match; simpl; try done; try by apply HP.
    by do 4 apply IH.
Qed.

(** The bound on the nesting of [processCell] is never reached: any two
    bounds of at least [maxDepth - depth] give the same result. *)
Lemma processCell_fuel fuel fuel' q sobelData width height cx cy size depth st :
  (Z.to_nat (maxDepth - depth) <= fuel)%nat →
  (Z.to_nat (maxDepth - depth) <= fuel')%nat →
  processCell fuel q sobelData width height cx cy size depth st =
  processCell fuel' q sobelData width height cx cy size depth st.
Proof.
  revert fuel' cx cy size depth st.
  induction fuel as [|fuel IH]; intros fuel' cx cy size depth st Hfuel Hfuel'.
  - assert ((depth <? maxDepth) = false) as Hdepth by (apply Z.ltb_ge; lia).
    destruct fuel'; simpl; by rewrite Hdepth, andb_false_r.
  - destruct fuel' as [|fuel'].
    + assert ((depth <? maxDepth) = false) as Hdepth by (apply Z.ltb_ge; lia).
      simpl. by rewrite Hdepth, andb_false_r.
    + simpl. destruct (_ && _ && _) eqn:Hsplit; [|done].
      assert (depth < maxDepth) as Hdepth.
      { apply andb_true_iff in Hsplit as [[_ ?]%andb_true_iff _]. lia. }
      rewrite !(IH fuel') by lia. done.
Qed.

Lemma processCells_closed P q sobelData width height st :
  addPointClosed P → P st.1 →
  P (processCells q sobelData width height st).1.
Proof.
  intros HP Hst. unfold processCells.
  apply (forBelow_invariant (λ st, P st.1)); [|done].
  intros y st' _ Hst'.
  apply (forBelow_invariant (λ st, P st.1)); [|done].
  intros x st'' _ Hst''. by apply (processCell_closed P).
Qed.

(** The insertion written out in the refinement loop is [addPoint], with
    the counter [added] advanced when the key is new. *)
Lemma refineTriangle_cases width height i1 i2 i3 (st : Sampler * nat) :
  refineTriangle width height i1 i2 i3 st = st ∨
  ∃ p1 p2 p3,
    points st.1 !! i1 = Some p1 ∧ points st.1 !! i2 = Some p2 ∧
    points st.1 !! i3 = Some p3 ∧
    needsSplit width height (measure p1 p2 p3) = true ∧
    let mid := longestEdgeMidpoint (measure p1 p2 p3) p1 p2 p3 in
    (pointKey mid.1 mid.2 ∉ pointsMap st.1) ∧
    refineTriangle width height i1 i2 i3 st =
      (addPoint mid.1 mid.2 st.1, S st.2) ∧
    points (addPoint mid.1 mid.2 st.1) = points st.1 ++ [mid].
Proof.
  unfold refineTriangle.
  destruct (points st.1 !! i1) as [p1|]; [|by left].
  destruct (points st.1 !! i2) as [p2|]; [|by left].
  destruct (points st.1 !! i3) as [p3|]; [|by left].
  destruct (needsSplit width height (measure p1 p2 p3)) eqn:Hsplit; [|by left].
  cbv zeta. case_decide as Hkey; [by left|].
  right. exists p1, p2, p3. split_and!; try done.
  - rewrite addPoint_fresh by done. by destruct (longestEdgeMidpoint _ _ _ _).
  - rewrite addPoint_fresh by done. by destruct (longestEdgeMidpoint _ _ _ _).
Qed.

Lemma refineTriangle_closed P width height i1 i2 i3 (st : Sampler * nat) :
  addPointClosed P → P st.1 → P (refineTriangle width height i1 i2 i3 st).1.
Proof.
  intros HP Hst.
  destruct (refineTriangle_cases width height i1 i2 i3 st)
    as [->|(p1 & p2 & p3 & _ & _ & _ & _ & _ & -> & _)]; [done|].
  by apply HP.
Qed.

(** Induction over an index array read three entries at a time. *)
Lemma triples_ind (P : list nat → Prop) :
  P [] → (∀ i1, P [i1]) → (∀ i1 i2, P [i1; i2]) →
  (∀ i1 i2 i3 rest, P rest → P (i1 :: i2 :: i3 :: rest)) →
  ∀ l, P l.
Proof.
  intros H0 H1 H2 H3 l.
  assert (∀ n l, (length l <= n)%nat → P l) as Hall; [|by apply (Hall (length l))].
  clear l. induction n as [|n IH]; intros l Hl.
  - destruct l; [done|simpl in Hl; lia].
  - destruct l as [|i1 [|i2 [|i3 rest]]]; [done..|].
    apply H3, IH. simpl in Hl. lia.
Qed.

Lemma refineTriangles_closed P width height trianglesData (st : Sampler * nat) :
  addPointClosed P → P st.1 →
  P (refineTriangles width height trianglesData st).1.
Proof.
  intros HP. revert st.
  induction trianglesData as [| | |i1 i2 i3 rest IH] using triples_ind;
    intros st Hst; simpl; try done.
  apply IH. by apply (refineTriangle_closed P).
Qed.

Lemma refinePass_closed P width height st :
  addPointClosed P → P st → P (refinePass width height st).1.
Proof.
  intros HP Hst. unfold refinePass.
  by apply (refineTriangles_closed P _ _ _ (st, 0%nat)).
Qed.

Lemma refineLoop_closed P passes width height r :
  addPointClosed P → P (refined r) →
  P (refined (refineLoop passes width height r)).
Proof.
  intros HP. revert r. induction passes as [|passes IH]; intros r Hr; simpl; [done|].
  pose proof (refinePass_closed P width height (refined r) HP Hr) as Hpass.
  destruct (refinePass width height (refined r)) as [st' added]. simpl in Hpass.
  destruct (added =? 0)%nat; [done|]. by apply IH.
Qed.

Lemma refine_closed P width height st :
  addPointClosed P → P st → P (refined (refine width height st)).
Proof. intros HP Hst. unfold refine. by apply (refineLoop_closed P). Qed.

(** Every property that [addPoint] keeps and that holds of the empty
    sampler holds of the points and keys [processImage] ends with. *)
Lemma processImage_closed P quality width height blurredData :
  addPointClosed P → P emptySampler →
  let mesh := processImage quality width height blurredData in
  P {| pointsMap := meshKeys mesh; points := meshPoints mesh |}.
Proof.
  intros HP Hempty. unfold processImage.
  assert (∀ st, {| pointsMap := pointsMap st; points := points st |} = st)
    as Heta by (by intros []).
  destruct (Qltb 0 quality); simpl; rewrite Heta.
  - apply (refine_closed P); [done|].
    apply (processCells_closed P _ _ _ _ (_, 0%nat)); [done|]. simpl.
    apply (addBorder_closed P); [done|]. by apply (addCorners_closed P).
  - by apply (addCorners_closed P).
Qed.

Lemma integer_close (a a' : Z) :
  (Qabs (inject_Z a - inject_Z a') < 1 # 10)%Q → a = a'.
Proof.
  intros Hclose%Qabs_Qlt_condition.
  destruct (Z.lt_trichotomy a a') as [Hlt|[->|Hlt]]; [|done|].
  - assert (inject_Z (a + 1) <= inject_Z a')%Q as Hle by (rewrite <- Zle_Qle; lia).
    rewrite inject_Z_plus in Hle. change (inject_Z 1) with 1%Q in Hle. lra.
  - assert (inject_Z (a' + 1) <= inject_Z a)%Q as Hle by (rewrite <- Zle_Qle; lia).
    rewrite inject_Z_plus in Hle. change (inject_Z 1) with 1%Q in Hle. lra.
Qed.

(** Points with integer coordinates have a key of their own. *)
Lemma integer_key_inj (a b a' b' : Z) :
  pointKey (inject_Z a) (inject_Z b) = pointKey (inject_Z a') (inject_Z b') →
  a = a' ∧ b = b'.
Proof.
  intros [Ha Hb]%pointKey_close. split; by apply integer_close.
Qed.

Lemma borderInv_empty : borderInv emptySampler.
Proof. split; [apply samplerInv_empty|constructor]. Qed.

Lemma borderInv_addPoint a b st :
  borderInv st →
  borderInv (addPoint (inject_Z a) (inject_Z b) st) ∧
  (inject_Z a, inject_Z b) ∈ points (addPoint (inject_Z a) (inject_Z b) st).
Proof.
  intros [Hinv Hint].
  destruct (addPoint_cases (inject_Z a) (inject_Z b) st) as [[Hin Heq]|[Hnin Heq]].
  - rewrite Heq. split; [done|].
    apply Hinv in Hin. apply list_elem_of_fmap in Hin as (p & Hp & Hpin).
    destruct (proj1 (Forall_forall _ _) Hint p Hpin) as (a' & b' & ->).
    apply integer_key_inj in Hp as [-> ->]. done.
  - split; [split|].
    + by apply samplerInv_addPoint.
    + rewrite Heq. simpl. apply Forall_app. split; [done|].
      apply Forall_singleton. by exists a, b.
    + rewrite Heq. simpl. apply elem_of_app. right. by apply list_elem_of_singleton.
Qed.

Lemma addCorners_points width height :
  1 <= width → 1 <= height →
  points (addCorners width height emptySampler) = corners width height.
Proof.
  intros Hw Hh. unfold addCorners.
  change 0%Q with (inject_Z 0).
  assert (∀ a b a' b', (a ≠ a' ∨ b ≠ b') →
            pointKey (inject_Z a) (inject_Z b) ≠
            pointKey (inject_Z a') (inject_Z b')) as Hne.
  { intros a b a' b' Hab [-> ->]%integer_key_inj. by destruct Hab. }
  rewrite (addPoint_fresh (inject_Z 0) (inject_Z 0)) by apply not_elem_of_empty.
  rewrite (addPoint_fresh (inject_Z width) (inject_Z 0)).
  2:{ simpl. rewrite elem_of_union, elem_of_singleton.
      intros [Heq|[]%not_elem_of_empty]. revert Heq. apply Hne. lia. }
  rewrite (addPoint_fresh (inject_Z 0) (inject_Z height)).
  2:{ simpl. rewrite !elem_of_union, !elem_of_singleton.
      intros [Heq|[Heq|[]%not_elem_of_empty]]; revert Heq; apply Hne; lia. }
  rewrite (addPoint_fresh (inject_Z width) (inject_Z height)).
  2:{ simpl. rewrite !elem_of_union, !elem_of_singleton.
      intros [Heq|[Heq|[Heq|[]%not_elem_of_empty]]]; revert Heq; apply Hne; lia. }
  reflexivity.
Qed.

Lemma processImage_from_corners P quality width height blurredData :
  addPointClosed P → P (addCorners width height emptySampler) →
  let mesh := processImage quality width height blurredData in
  P {| pointsMap := meshKeys mesh; points := meshPoints mesh |}.
Proof.
  intros HP Hcorners. unfold processImage.
  assert (∀ st, {| pointsMap := pointsMap st; points := points st |} = st)
    as Heta by (by intros []).
  destruct (Qltb 0 quality); simpl; rewrite Heta; [|done].
  apply (refine_closed P); [done|].
  apply (processCells_closed P _ _ _ _ (_, 0%nat)); [done|]. simpl.
  by apply (addBorder_closed P).
Qed.

(** C5: for every image the pipeline can process (the canvas reads throw
    exactly when a side of the image is 0) and every quality, no two
    points of the list produced share a key, the list starts with the
    four corners and so holds at least four points. *)
Theorem processImage_points_unique (quality : Q) (width height : Z)
    (originalCanvas blurredCanvas : list Z) :
  0 <= width → 0 <= height →
  let task :=
    processImageTask quality width height originalCanvas blurredCanvas in
  (task = None ↔ width = 0 ∨ height = 0) ∧
  ∀ mesh, task = Some mesh →
    let pts := meshPoints mesh in
    (∀ i j (p p' : Point), pts !! i = Some p → pts !! j = Some p' →
       pointKey p.1 p.2 = pointKey p'.1 p'.2 → i = j) ∧
    [ (0%Q, 0%Q); (inject_Z width, 0%Q); (0%Q, inject_Z height);
      (inject_Z width, inject_Z height) ] `prefix_of` pts ∧
    (4 <= length pts)%nat.
Proof.
  intros Hw Hh task. unfold task, processImageTask, getImageData.
  destruct (Z.eqb_spec width 0) as [Hw0|Hw0]; simpl.
  { split; [split; [by left|done]|done]. }
  destruct (Z.eqb_spec height 0) as [Hh0|Hh0]; simpl.
  { split; [split; [by right|done]|done]. }
  split; [split; [done|lia]|].
  intros mesh [= <-].
  set (pts := meshPoints (processImage quality width height blurredCanvas)).
  assert ([ (0%Q, 0%Q); (inject_Z width, 0%Q); (0%Q, inject_Z height);
            (inject_Z width, inject_Z height) ] `prefix_of` pts) as Hpre.
  { change (corners width height `prefix_of` pts).
    apply (processImage_from_corners (λ st, corners width height `prefix_of` points st));
      [apply prefix_closed|].
    rewrite addCorners_points by lia. done. }
  split_and!; [|done|by apply prefix_length in Hpre].
  destruct (processImage_closed samplerInv quality width height blurredCanvas
              samplerInv_addPoint samplerInv_empty) as [Hnd _].
  simpl in Hnd. fold pts in Hnd.
  intros i j p p' Hi Hj Hkey.
  apply (NoDup_lookup (keyOf <$> pts) i j (keyOf p) Hnd).
  - rewrite list_lookup_fmap. by rewrite Hi.
  - rewrite list_lookup_fmap. rewrite Hj. simpl. unfold keyOf. by rewrite Hkey.
Qed.

End SamplerProofs.

Lemma processImage_points_unique_witness :
  processImageTask (H := demoBuiltins) 50 3 3 demoImage3x3 demoImage3x3 =
    Some (processImage (H := demoBuiltins) 50 3 3 demoImage3x3) ∧
  (4 <= length (meshPoints
                  (processImage (H := demoBuiltins) 50 3 3 demoImage3x3)))%nat.
Proof.
  split; [reflexivity|].
  apply (processImage_points_unique (H := demoBuiltins) 50 3 3
           demoImage3x3 demoImage3x3 ltac:(lia) ltac:(lia)).
  reflexivity.
Defined.

Section BorderProofs.
Context `{Builtins}.

Lemma addPoint_mono x y st (p : Point) :
  p ∈ points st → p ∈ points (addPoint x y st).
Proof.
  intros Hp. destruct (addPoint_prefix x y st) as [extra ->].
  apply elem_of_app. by left.
Qed.

Lemma addPoint_elem x y st (p : Point) :
  p ∈ points (addPoint x y st) → p ∈ points st ∨ p = (x, y).
Proof.
  destruct (addPoint_cases x y st) as [[_ ->]|[_ ->]]; [by left|].
  simpl. rewrite elem_of_app, list_elem_of_singleton. done.
Qed.

(** One edge pair of the lattice: the loop
    [for (i = 0; i <= hi; i += step) { addPoint(f i); addPoint(g i) }]
    stores [f] and [g] of every multiple of [step] up to [hi], and nothing
    else. *)
Lemma lattice_loop (f g : Z → Z * Z) step hi st :
  1 <= step → borderInv st →
  let body := λ i st, addPoint (inject_Z (g i).1) (inject_Z (g i).2)
                        (addPoint (inject_Z (f i).1) (inject_Z (f i).2) st) in
  let point (c : Z * Z) : Point := (inject_Z c.1, inject_Z c.2) in
  let st' := forUpTo 0 hi step body st in
  borderInv st' ∧
  (∀ p : Point, p ∈ points st → p ∈ points st') ∧
  (∀ k, 0 <= k → k * step <= hi →
     point (f (k * step)) ∈ points st' ∧ point (g (k * step)) ∈ points st') ∧
  (∀ p : Point, p ∈ points st' →
     p ∈ points st ∨
     ∃ k, 0 <= k ∧ k * step <= hi ∧
          (p = point (f (k * step)) ∨ p = point (g (k * step)))).
Proof.
  intros Hstep Hinv body point st'.
  destruct (forUpTo_rule
    (λ j st',
       borderInv st' ∧ (∃ n, 0 <= n ∧ j = n * step) ∧
       (∀ p : Point, p ∈ points st → p ∈ points st') ∧
       (∀ k, 0 <= k → k * step < j →
          point (f (k * step)) ∈ points st' ∧ point (g (k * step)) ∈ points st') ∧
       (∀ p : Point, p ∈ points st' →
          p ∈ points st ∨
          ∃ k, 0 <= k ∧ k * step <= hi ∧
               (p = point (f (k * step)) ∨ p = point (g (k * step)))))
    0 hi step body st Hstep) as (j & Hj & _ & Hb & _ & Hold & Hall & Honly).
  - split_and!; [done|exists 0; lia|done|intros; nia|by left].
  - clear st' Hinv. intros j st' Hj (Hinv & (n & Hn & ->) & Hold & Hall & Honly).
    destruct (borderInv_addPoint (f (n * step)).1 (f (n * step)).2 st' Hinv)
      as [Hinv1 Hf].
    destruct (borderInv_addPoint (g (n * step)).1 (g (n * step)).2 _ Hinv1)
      as [Hinv2 Hg].
    unfold body. split_and!; [done|exists (n + 1); lia|..].
    + intros p Hp. by apply addPoint_mono, addPoint_mono, Hold.
    + intros k Hk Hlt. assert (k < n ∨ k = n) as [Hkn| ->] by nia.
      * destruct (Hall k Hk) as [Hfk Hgk]; [nia|].
        split; by apply addPoint_mono, addPoint_mono.
      * split; [by apply addPoint_mono|done].
    + intros p [[Hp| ->]%addPoint_elem| ->]%addPoint_elem.
      * by apply Honly.
      * right. exists n. split_and!; [done|lia|by left].
      * right. exists n. split_and!; [done|lia|by right].
  - split_and!; [done|done| |done].
    intros k Hk Hle. apply Hall; [done|lia].
Qed.

Lemma addBorder_lattice step width height st :
  1 <= step → borderInv st →
  let st' := addBorder step width height st in
  borderInv st' ∧
  (∀ p : Point, p ∈ points st → p ∈ points st') ∧
  (∀ k, 0 <= k → k * step <= width →
     (inject_Z (k * step), 0%Q) ∈ points st' ∧
     (inject_Z (k * step), inject_Z height) ∈ points st') ∧
  (∀ k, 0 <= k → k * step <= height →
     (0%Q, inject_Z (k * step)) ∈ points st' ∧
     (inject_Z width, inject_Z (k * step)) ∈ points st') ∧
  (∀ p : Point, p ∈ points st' →
     p ∈ points st ∨ latticePoint step width height p).
Proof.
  intros Hstep Hinv st'. unfold addBorder in st'.
  destruct (lattice_loop (λ i, (i, 0)) (λ i, (i, height)) step width st Hstep Hinv)
    as (Hinv1 & Hold1 & Hall1 & Honly1).
  simpl in Hinv1, Hold1, Hall1, Honly1.
  destruct (lattice_loop (λ i, (0, i)) (λ i, (width, i)) step height _ Hstep Hinv1)
    as (Hinv2 & Hold2 & Hall2 & Honly2).
  simpl in Hinv2, Hold2, Hall2, Honly2.
  split_and!; [done|..].
  - intros p Hp. by apply Hold2, Hold1.
  - intros k Hk Hle. destruct (Hall1 k Hk Hle). split; by apply Hold2.
  - done.
  - intros p [[Hp|(k & Hk & Hle & Hp)]%Honly1|(k & Hk & Hle & Hp)]%Honly2.
    + by left.
    + right. exists k. split; [done|]. left. done.
    + right. exists k. split; [done|]. right. done.
Qed.

Lemma borderInv_addCorners width height :
  borderInv (addCorners width height emptySampler).
Proof.
  unfold addCorners. change 0%Q with (inject_Z 0).
  repeat apply borderInv_addPoint. apply borderInv_empty.
Qed.

Lemma addCorners_elem width height (p : Point) :
  p ∈ points (addCorners width height emptySampler) → p ∈ corners width height.
Proof.
  unfold addCorners, corners.
  intros [[[[[]%elem_of_nil| ->]%addPoint_elem| ->]%addPoint_elem
            | ->]%addPoint_elem| ->]%addPoint_elem;
    rewrite !elem_of_cons; tauto.
Qed.

(** C4 (as the code has it): for every quality greater than 0 the sampler
    adds the lattice of spacing [max(10, floor(100 - 90q))], [q = quality /
    100], on the four edges: the points at every multiple of the spacing on
    the top, bottom, left and right edge are in the point list; after the
    border stage the list holds the corners and these lattice points only,
    and the later stages only append to it.  At quality 0 (or below) no
    lattice is added: the list holds corners only, so no point of the
    lattice strictly between two corners is in it. *)
Theorem processImage_border_lattice (quality : Q) (width height : Z)
    (blurredData : list Z) :
  let step := Z.max 10 (Qfloor (100 - quality / 100 * 90)%Q) in
  let border := addBorder step width height (addCorners width height emptySampler) in
  let pts := meshPoints (processImage quality width height blurredData) in
  ((0 < quality)%Q →
     (∀ k, 0 <= k → k * step <= width →
        (inject_Z (k * step), 0%Q) ∈ pts ∧
        (inject_Z (k * step), inject_Z height) ∈ pts) ∧
     (∀ k, 0 <= k → k * step <= height →
        (0%Q, inject_Z (k * step)) ∈ pts ∧
        (inject_Z width, inject_Z (k * step)) ∈ pts) ∧
     points border `prefix_of` pts ∧
     (∀ p : Point, p ∈ points border →
        p ∈ corners width height ∨ latticePoint step width height p)) ∧
  ((quality <= 0)%Q →
     pts = points (addCorners width height emptySampler) ∧
     (∀ p : Point, p ∈ pts →
        p = (0%Q, 0%Q) ∨ p = (inject_Z width, 0%Q) ∨
        p = (0%Q, inject_Z height) ∨ p = (inject_Z width, inject_Z height)) ∧
     (∀ k, 0 < k * step < width →
        ((inject_Z (k * step), 0%Q) ∉ pts) ∧
        ((inject_Z (k * step), inject_Z height) ∉ pts)) ∧
     (∀ k, 0 < k * step < height →
        ((0%Q, inject_Z (k * step)) ∉ pts) ∧
        ((inject_Z width, inject_Z (k * step)) ∉ pts))).
Proof.
  intros step border pts. split.
  - intros Hq.
    assert (1 <= step) as Hstep by (unfold step; lia).
    destruct (addBorder_lattice step width height _ Hstep
                (borderInv_addCorners width height))
      as (_ & _ & Hrows & Hcols & Honly).
    fold border in Hrows, Hcols, Honly.
    assert (points border `prefix_of` pts) as Hpre.
    { unfold pts, processImage.
      destruct (Qltb_spec 0 quality) as [_|Hn]; [|done]. simpl.
      apply (refine_closed (λ st, points border `prefix_of` points st));
        [apply prefix_closed|].
      apply (processCells_closed (λ st, points border `prefix_of` points st)
               _ _ _ _ (_, 0%nat)); [apply prefix_closed|].
      done. }
    assert (∀ p : Point, p ∈ points border → p ∈ pts) as Hsub.
    { intros p Hp. destruct Hpre as [extra ->]. apply elem_of_app. by left. }
    split_and!; [| |done|].
    + intros k Hk Hle. destruct (Hrows k Hk Hle). split; by apply Hsub.
    + intros k Hk Hle. destruct (Hcols k Hk Hle). split; by apply Hsub.
    + intros p [Hp|Hp]%Honly; [left|by right]. by apply addCorners_elem.
  - intros Hq.
    assert (pts = points (addCorners width height emptySampler)) as Hpts.
    { unfold pts, processImage.
      destruct (Qltb_spec 0 quality) as [Hpos|_]; [lra|done]. }
    assert (∀ p : Point, p ∈ pts →
              p = (0%Q, 0%Q) ∨ p = (inject_Z width, 0%Q) ∨
              p = (0%Q, inject_Z height) ∨ p = (inject_Z width, inject_Z height))
      as Hcorner.
    { intros p Hp. rewrite Hpts in Hp. apply addCorners_elem in Hp.
      unfold corners in Hp. rewrite !elem_of_cons in Hp.
      destruct Hp as [?|[?|[?|[?|[]%elem_of_nil]]]]; auto. }
    assert (∀ z : Z, inject_Z z = 0%Q → z = 0) as Hzero
      by (intros z [= ->]; done).
    assert (∀ z z' : Z, inject_Z z = inject_Z z' → z = z') as Hinj
      by (intros z z' [= ->]; done).
    split_and!; [done|done| |].
    + intros k Hk. split; intros Hin; apply Hcorner in Hin.
      * destruct Hin as [[= E]|[[= E]|[[= E _]|[= E _]]]]; lia.
      * destruct Hin as [[= E _]|[[= E _]|[[= E]|[= E]]]]; lia.
    + intros k Hk. split; intros Hin; apply Hcorner in Hin.
      * destruct Hin as [[= E]|[[= _ E]|[[= E]|[= _ E]]]]; lia.
      * destruct Hin as [[= _ E]|[[= E]|[[= _ E]|[= E]]]]; lia.
Qed.

End BorderProofs.

Lemma processImage_border_lattice_witness :
  (inject_Z (1 * Z.max 10 (Qfloor (100 - 50 / 100 * 90)%Q)), 0%Q) ∈
    meshPoints (processImage (H := demoBuiltins) 50 60 3 (blankImage 60 3)) ∧
  (inject_Z (1 * Z.max 10 (Qfloor (100 - 0 / 100 * 90)%Q)), 0%Q) ∉
    meshPoints (processImage (H := demoBuiltins) 0 200 100 (blankImage 200 100)).
Proof.
  split.
  - apply (processImage_border_lattice (H := demoBuiltins) 50 60 3 (blankImage 60 3));
      [reflexivity|lia|by vm_compute].
  - apply (processImage_border_lattice (H := demoBuiltins) 0 200 100
             (blankImage 200 100)); [discriminate|by vm_compute].
Defined.

(** C4 (as stated) fails twice.  At quality 6 (q = 0.06) the spacing is
    [floor 94.6 = 94], not [round 94.6 = 95]: on a 100 x 3 image the
    points (94, 0) and (94, 3) are stored and (95, 0) is not.  At quality 0
    no lattice is added at all: a 200 x 100 image keeps its four corners
    only, although the spacing named would be 100. *)
Lemma border_lattice_spacing_is_not_rounded :
  (borderStep (6 # 100) = 94 ∧ specBorderStep (6 # 100) = 95 ∧
   meshPoints (processImage (H := demoBuiltins) 6 100 3 (blankImage 100 3)) =
     [ (0, 0); (100, 0); (0, 3); (100, 3); (94, 0); (94, 3); (100 # 2, 0 # 2) ]%Q ∧
   ((95%Q, 0%Q) : Point) ∉
     meshPoints (processImage (H := demoBuiltins) 6 100 3 (blankImage 100 3))) ∧
  (specBorderStep 0 = 100 ∧
   meshPoints (processImage (H := demoBuiltins) 0 200 100 (blankImage 200 100)) =
     [ (0, 0); (200, 0); (0, 100); (200, 100) ]%Q).
Proof.
  assert (meshPoints (processImage (H := demoBuiltins) 6 100 3 (blankImage 100 3)) =
     [ (0, 0); (100, 0); (0, 3); (100, 3); (94, 0); (94, 3); (100 # 2, 0 # 2) ]%Q) as Heq
    by (by vm_compute).
  split_and!; [by vm_compute|by vm_compute|done| |by vm_compute|by vm_compute].
  rewrite Heq. intros Hin.
  repeat (apply elem_of_cons in Hin as [Hin|Hin]; [discriminate|]).
  by apply elem_of_nil in Hin.
Qed.

Section RefinementProofs.
Context `{Builtins}.

Lemma Qmaxb_spec x y :
  (x <= Qmaxb x y)%Q ∧ (y <= Qmaxb x y)%Q ∧ (Qmaxb x y = x ∨ Qmaxb x y = y).
Proof.
  unfold Qmaxb. destruct (Qltb_spec x y); split_and!; try lra; auto.
Qed.

Lemma Qminb_spec x y :
  (Qminb x y <= x)%Q ∧ (Qminb x y <= y)%Q ∧ (Qminb x y = x ∨ Qminb x y = y).
Proof.
  unfold Qminb. destruct (Qltb_spec y x); split_and!; try lra; auto.
Qed.

(** [maxL] is the longest and [minL] the shortest of the three edges. *)
Lemma measure_extremes (p1 p2 p3 : Point) :
  let m := measure p1 p2 p3 in
  ((l1 m <= maxL m)%Q ∧ (l2 m <= maxL m)%Q ∧ (l3 m <= maxL m)%Q ∧
   (maxL m = l1 m ∨ maxL m = l2 m ∨ maxL m = l3 m)) ∧
  ((minL m <= l1 m)%Q ∧ (minL m <= l2 m)%Q ∧ (minL m <= l3 m)%Q ∧
   (minL m = l1 m ∨ minL m = l2 m ∨ minL m = l3 m)).
Proof.
  simpl.
  set (a := mathHypot _ _). set (b := mathHypot _ _). set (c := mathHypot _ _).
  destruct (Qmaxb_spec a b) as (? & ? & Hab), (Qmaxb_spec (Qmaxb a b) c) as (? & ? & Hc).
  destruct (Qminb_spec a b) as (? & ? & Hab'), (Qminb_spec (Qminb a b) c) as (? & ? & Hc').
  split; split_and!; try lra.
  - destruct Hc as [->| ->]; [destruct Hab as [->| ->]|]; auto.
  - destruct Hc' as [->| ->]; [destruct Hab' as [->| ->]|]; auto.
Qed.


(** The point inserted is the midpoint of an edge of the greatest
    length. *)
Lemma longestEdgeMidpoint_longest (p1 p2 p3 : Point) :
  let m := measure p1 p2 p3 in
  let mid := longestEdgeMidpoint m p1 p2 p3 in
  (mid = midpoint p1 p2 ∧ (l1 m == maxL m)%Q) ∨
  (mid = midpoint p2 p3 ∧ (l2 m == maxL m)%Q) ∨
  (mid = midpoint p3 p1 ∧ (l3 m == maxL m)%Q).
Proof.
  intros m mid. unfold mid, longestEdgeMidpoint.
  destruct (Qeq_bool (maxL m) (l1 m)) eqn:H1.
  { left. split; [done|]. symmetry. by apply Qeq_bool_eq. }
  destruct (Qeq_bool (maxL m) (l2 m)) eqn:H2.
  { right. left. split; [done|]. symmetry. by apply Qeq_bool_eq. }
  right. right. split; [done|].
  destruct (measure_extremes p1 p2 p3) as [(_ & _ & _ & [Hm|[Hm|Hm]]) _];
    fold m in Hm.
  - rewrite Hm in H1. by rewrite Qeq_bool_refl in H1.
  - rewrite Hm in H2. by rewrite Qeq_bool_refl in H2.
  - by rewrite Hm.
Qed.

(** What a pass does to the key set, the points and the counter. *)
Lemma refineTriangles_added width height trianglesData (st : Sampler * nat) :
  let st' := refineTriangles width height trianglesData st in
  ∃ appended,
    points st'.1 = points st.1 ++ appended ∧
    st'.2 = (st.2 + length appended)%nat ∧
    (appended = [] → st' = st).
Proof.
  revert st.
  induction trianglesData as [| | |i1 i2 i3 rest IH] using triples_ind;
    intros st; simpl; try (exists []; by rewrite app_nil_r, Nat.add_0_r).
  destruct (IH (refineTriangle width height i1 i2 i3 st)) as (more & Hpts & Hn & Hid).
  destruct (refineTriangle_cases width height i1 i2 i3 st)
    as [Heq|(p1 & p2 & p3 & _ & _ & _ & _ & _ & Heq & Hpts')].
  - rewrite Heq in *. by exists more.
  - rewrite Heq in *. simpl in *.
    exists (longestEdgeMidpoint (measure p1 p2 p3) p1 p2 p3 :: more).
    split_and!; [|simpl; lia|done].
    by rewrite Hpts, Hpts', <- app_assoc.
Qed.


(** C10: refinement is append-only.  Whatever the number of passes, the
    point list it ends with is the list it started from followed by the
    new midpoints: no point is removed, moved or changed. *)
Theorem refineLoop_append_only (passes : nat) (width height : Z)
    (r : Refinement) :
  ∃ appended,
    points (refined (refineLoop passes width height r)) =
      points (refined r) ++ appended ∧
    ∀ i p, points (refined r) !! i = Some p →
           points (refined (refineLoop passes width height r)) !! i = Some p.
Proof.
  assert (∃ appended,
            points (refined (refineLoop passes width height r)) =
              points (refined r) ++ appended) as [appended Heq].
  { revert r. induction passes as [|passes IH]; intros r; simpl.
    - exists []. by rewrite app_nil_r.
    - unfold refinePass.
      destruct (refineTriangles_added width height
                  (delaunator (points (refined r))) (refined r, 0%nat))
        as (first & Hpts & _).
      destruct (refineTriangles _ _ _ _) as [st' added]. simpl in Hpts.
      destruct (added =? 0)%nat; simpl; [by exists first|].
      destruct (IH {| refined := st';
                      triangulated := triangulated r ++ [points (refined r)] |})
        as [more Hmore].
      exists (first ++ more). rewrite Hmore. simpl. by rewrite Hpts, app_assoc. }
  exists appended. split; [done|].
  intros i p Hi. rewrite Heq. by apply lookup_app_l_Some.
Qed.







End RefinementProofs.


Example refine_demo :
  let st := (processCells (H := demoBuiltins) (1 # 2)
               (sobelPass (H := demoBuiltins) demoImage3x3 3 3) 3 3
               (addBorder (borderStep (1 # 2)) 3 3 (addCorners 3 3 emptySampler),
                0%nat)).1 in
  points st = [ (0, 0); (3, 0); (0, 3); (3, 3); (1, 1) ]%Q ∧
  needsSplit 3 3 (measure (H := demoBuiltins) (0, 0)%Q (3, 0)%Q (0, 3)%Q) = true ∧
  triangulated (refine (H := demoBuiltins) 3 3 st) =
    [ [ (0, 0); (3, 0); (0, 3); (3, 3); (1, 1) ]%Q;
      [ (0, 0); (3, 0); (0, 3); (3, 3); (1, 1); (3 # 2, 3 # 2) ]%Q ] ∧
  points (refined (refine (H := demoBuiltins) 3 3 st)) =
    [ (0, 0); (3, 0); (0, 3); (3, 3); (1, 1); (3 # 2, 3 # 2) ]%Q.
Proof. by vm_compute. Qed.

Section SequencerProofs.
Import Sequencer.

Lemma duration_positive (ms speed : Q) :
  (0 < ms)%Q → (0 < speed)%Q → (0 < ms / speed)%Q.
Proof. intros Hms Hspeed. apply Qlt_shift_div_l; [done|lra]. Qed.

Lemma phases_positive sc :
  (0 < animationSpeed sc)%Q →
  (0 < PHASE_IMAGE sc)%Q ∧ (0 < PHASE_SOBEL sc)%Q ∧ (0 < PHASE_POINTS sc)%Q ∧
  (0 < PHASE_LINES sc)%Q ∧ (0 < PHASE_COLORS sc)%Q ∧ (0 < PHASE_FADE_EDGES sc)%Q.
Proof.
  intros Hspeed. split_and!; by apply duration_positive.
Qed.

Lemma Qminb_progress (x d : Q) :
  (0 <= x)%Q → (0 < d)%Q → (0 <= Qminb 1 (x / d) <= 1)%Q.
Proof.
  intros Hx Hd.
  assert (0 <= x / d)%Q as Hdiv.
  { unfold Qdiv. apply Qmult_le_0_compat; [done|].
    apply Qlt_le_weak, Qinv_lt_0_compat. done. }
  unfold Qminb. destruct (Qltb_spec (x / d) 1); split; lra.
Qed.

(** C8: whenever a tick computes a phase-local progress, it is
    [min(1, phaseElapsed / phaseDuration)] for the phase whose window
    holds the elapsed time; the elapsed time is at least the cumulative
    duration of the earlier phases, because their branches were not taken,
    so [phaseElapsed] is not negative and the progress lies in [0,1]. *)
Theorem animate_progress_in_unit_interval (sc : Scene) (st : option Q)
    (timestamp : Q) :
  (0 < animationSpeed sc)%Q →
  ∀ p, progress (animate sc st timestamp) = Some p →
    let elapsed := (timestamp - latch st timestamp)%Q in
    ∃ before duration : Q,
      (before, duration) ∈
        [ (PHASE_IMAGE sc, PHASE_SOBEL sc);
          ((PHASE_IMAGE sc + PHASE_SOBEL sc)%Q, PHASE_POINTS sc);
          ((PHASE_IMAGE sc + PHASE_SOBEL sc + PHASE_POINTS sc)%Q, PHASE_LINES sc);
          ((PHASE_IMAGE sc + PHASE_SOBEL sc + PHASE_POINTS sc +
            PHASE_LINES sc)%Q, PHASE_COLORS sc);
          ((PHASE_IMAGE sc + PHASE_SOBEL sc + PHASE_POINTS sc +
            PHASE_LINES sc + PHASE_COLORS sc)%Q, PHASE_FADE_EDGES sc) ] ∧
      (0 < before)%Q ∧ (0 < duration)%Q ∧
      (before <= elapsed)%Q ∧ (elapsed < before + duration)%Q ∧
      p = Qminb 1 ((elapsed - before) / duration) ∧
      (0 <= elapsed - before)%Q ∧
      (0 <= p <= 1)%Q.
Proof.
  intros Hspeed p Hp elapsed.
  destruct (phases_positive sc Hspeed) as (H1 & H2 & H3 & H4 & H5 & H6).
  unfold animate in Hp. fold elapsed in Hp. cbv zeta in Hp.
  unfold totalDuration in Hp.
  destruct (Qltb_spec elapsed (PHASE_IMAGE sc)) as [|G1]; [done|].
  destruct (Qltb_spec elapsed (PHASE_IMAGE sc + PHASE_SOBEL sc)) as [|G2].
  { injection Hp as <-. eexists _, _. split; [apply list_elem_of_here|].
    split_and!; [lra|done|lra|lra|done|lra|apply Qminb_progress; [lra|done]..]. }
  destruct (Qltb_spec elapsed (PHASE_IMAGE sc + PHASE_SOBEL sc + PHASE_POINTS sc))
    as [|G3].
  { injection Hp as <-. eexists _, _.
    split; [do 1 apply list_elem_of_further; apply list_elem_of_here|].
    split_and!; [lra|done|lra|lra|done|lra|apply Qminb_progress; [lra|done]..]. }
  destruct (Qltb_spec elapsed
              (PHASE_IMAGE sc + PHASE_SOBEL sc + PHASE_POINTS sc + PHASE_LINES sc))
    as [|G4].
  { injection Hp as <-. eexists _, _.
    split; [do 2 apply list_elem_of_further; apply list_elem_of_here|].
    split_and!; [lra|done|lra|lra|done|lra|apply Qminb_progress; [lra|done]..]. }
  destruct (Qltb_spec elapsed
              (PHASE_IMAGE sc + PHASE_SOBEL sc + PHASE_POINTS sc + PHASE_LINES sc +
               PHASE_COLORS sc)) as [|G5].
  { injection Hp as <-. eexists _, _.
    split; [do 3 apply list_elem_of_further; apply list_elem_of_here|].
    split_and!; [lra|done|lra|lra|done|lra|apply Qminb_progress; [lra|done]..]. }
  destruct (Qltb_spec elapsed
              (PHASE_IMAGE sc + PHASE_SOBEL sc + PHASE_POINTS sc + PHASE_LINES sc +
               PHASE_COLORS sc + PHASE_FADE_EDGES sc)) as [|G6]; [|done].
  injection Hp as <-. eexists _, _.
  split; [do 4 apply list_elem_of_further; apply list_elem_of_here|].
  split_and!; [lra|done|lra|lra|done|lra|apply Qminb_progress; [lra|done]..].
Qed.

(** C9: the Complete phase is terminal and absorbing.  On a tick whose
    elapsed time has reached the total duration the sequencer paints the
    white background, then for every triangle traces its outline (from
    the first vertex through the second and the third and back), fills
    it and strokes it with its own colour, and requests no further frame,
    so the playback ends with this frame whatever timestamps follow; any
    other tick past the total duration issues the same commands. *)
Theorem animate_complete_is_terminal (sc : Scene) (st : option Q)
    (timestamp : Q) :
  (0 < animationSpeed sc)%Q →
  (totalDuration sc <= timestamp - latch st timestamp)%Q →
  let f := animate sc st timestamp in
  status f = Complete ∧
  requested f = false ∧
  progress f = None ∧
  startTime f = Some (latch st timestamp) ∧
  commands f =
    [ ClearRect 0 0 (w sc) (h sc); SetStatus Complete;
      SetFillStyle (Css "#ffffff"); FillRect 0 0 (w sc) (h sc) ] ++
    flat_map (λ t,
                let '(p0, p1, p2) := points t in
                [ BeginPath; MoveTo p0.1 p0.2; LineTo p1.1 p1.2;
                  LineTo p2.1 p2.2; ClosePath;
                  SetFillStyle (Css (color t)); Fill;
                  SetStrokeStyle (Css (color t)); SetLineWidth (1 # 2);
                  Stroke ])
      (triangles sc) ∧
  (∀ later, play sc st (timestamp :: later) = [f]) ∧
  (∀ st' timestamp',
     (totalDuration sc <= timestamp' - latch st' timestamp')%Q →
     commands (animate sc st' timestamp') = commands f ∧
     status (animate sc st' timestamp') = Complete ∧
     requested (animate sc st' timestamp') = false).
Proof.
  intros Hspeed Hdone f.
  destruct (phases_positive sc Hspeed) as (H1 & H2 & H3 & H4 & H5 & H6).
  assert (∀ l : list ColoredTriangle,
            flat_map fillTriangle l =
            flat_map (λ t,
                        let '(p0, p1, p2) := points t in
                        [ BeginPath; MoveTo p0.1 p0.2; LineTo p1.1 p1.2;
                          LineTo p2.1 p2.2; ClosePath;
                          SetFillStyle (Css (color t)); Fill;
                          SetStrokeStyle (Css (color t)); SetLineWidth (1 # 2);
                          Stroke ]) l) as Hpath.
  { induction l as [|t l IH]; [done|]. simpl. rewrite IH. f_equal.
    unfold fillTriangle, drawTrianglePath. by destruct (points t) as [[p0 p1] p2]. }
  assert (∀ st' timestamp',
            (totalDuration sc <= timestamp' - latch st' timestamp')%Q →
            animate sc st' timestamp' =
              {| startTime := Some (latch st' timestamp');
                 status := Complete;
                 progress := None;
                 commands :=
                   [ ClearRect 0 0 (w sc) (h sc); SetStatus Complete;
                     SetFillStyle (Css "#ffffff"); FillRect 0 0 (w sc) (h sc) ] ++
                   flat_map fillTriangle (triangles sc);
                 requested := false |}) as Hterminal.
  { intros st' timestamp' Hdone'. unfold animate. cbv zeta.
    unfold totalDuration in *.
    set (elapsed := (timestamp' - latch st' timestamp')%Q) in *.
    destruct (Qltb_spec elapsed (PHASE_IMAGE sc)); [lra|].
    destruct (Qltb_spec elapsed (PHASE_IMAGE sc + PHASE_SOBEL sc)); [lra|].
    destruct (Qltb_spec elapsed (PHASE_IMAGE sc + PHASE_SOBEL sc + PHASE_POINTS sc));
      [lra|].
    destruct (Qltb_spec elapsed
                (PHASE_IMAGE sc + PHASE_SOBEL sc + PHASE_POINTS sc + PHASE_LINES sc));
      [lra|].
    destruct (Qltb_spec elapsed
                (PHASE_IMAGE sc + PHASE_SOBEL sc + PHASE_POINTS sc + PHASE_LINES sc +
                 PHASE_COLORS sc)); [lra|].
    destruct (Qltb_spec elapsed
                (PHASE_IMAGE sc + PHASE_SOBEL sc + PHASE_POINTS sc + PHASE_LINES sc +
                 PHASE_COLORS sc + PHASE_FADE_EDGES sc)); [lra|].
    reflexivity. }
  unfold f. rewrite (Hterminal st timestamp Hdone). cbn [status requested progress
    startTime commands].
  split_and!; try reflexivity.
  - by rewrite Hpath.
  - intros later. cbn [play]. by rewrite (Hterminal st timestamp Hdone).
  - intros st' timestamp' Hdone'. by rewrite (Hterminal st' timestamp' Hdone').
Qed.

End SequencerProofs.

Lemma animate_progress_in_unit_interval_witness :
  (0 <= Qminb 1 ((2600 - 100 - 1500 / 1) / (2000 / 1)) <= 1)%Q.
Proof.
  destruct (animate_progress_in_unit_interval demoScene (Some 100%Q) 2600
              ltac:(reflexivity) _ eq_refl)
    as (before & duration & _ & _ & _ & _ & _ & _ & _ & Hp).
  exact Hp.
Defined.

Lemma animate_complete_is_terminal_witness :
  Sequencer.commands (Sequencer.animate demoScene (Some 100%Q) 12600) =
    [ Sequencer.ClearRect 0 0 3 3; Sequencer.SetStatus Sequencer.Complete;
      Sequencer.SetFillStyle (Sequencer.Css "#ffffff");
      Sequencer.FillRect 0 0 3 3;
      Sequencer.BeginPath; Sequencer.MoveTo 0 0; Sequencer.LineTo 3 0;
      Sequencer.LineTo 0 3; Sequencer.ClosePath;
      Sequencer.SetFillStyle (Sequencer.Css "rgb(200,20,90)"); Sequencer.Fill;
      Sequencer.SetStrokeStyle (Sequencer.Css "rgb(200,20,90)");
      Sequencer.SetLineWidth (1 # 2); Sequencer.Stroke ] ∧
  Sequencer.requested (Sequencer.animate demoScene (Some 100%Q) 12600) = false ∧
  ∀ later, Sequencer.play demoScene (Some 100%Q) (12600%Q :: later) =
           [ Sequencer.animate demoScene (Some 100%Q) 12600 ].
Proof.
  destruct (animate_complete_is_terminal demoScene (Some 100%Q) 12600
              ltac:(reflexivity) ltac:(by vm_compute))
    as (_ & Hreq & _ & _ & Hcommands & Hplay & _).
  split; [exact Hcommands|]. split; [exact Hreq|exact Hplay].
Defined.

Example animate_demo_phases :
  Sequencer.status (Sequencer.animate demoScene None 5) = Sequencer.SourceImage ∧
  Sequencer.status (Sequencer.animate demoScene (Some 100%Q) 1600) =
    Sequencer.EdgeVisualization ∧
  Sequencer.status (Sequencer.animate demoScene (Some 100%Q) 3600) =
    Sequencer.PointCloud ∧
  Sequencer.status (Sequencer.animate demoScene (Some 100%Q) 5600) =
    Sequencer.Wireframe ∧
  Sequencer.status (Sequencer.animate demoScene (Some 100%Q) 8100) =
    Sequencer.ColorFill ∧
  Sequencer.status (Sequencer.animate demoScene (Some 100%Q) 10600) =
    Sequencer.EdgeFadeOut ∧
  Sequencer.status (Sequencer.animate demoScene (Some 100%Q) 12600) =
    Sequencer.Complete.
Proof. by vm_compute. Qed.

(** ** Further properties of the pipeline *)

Section DoubleProofs.

Lemma pow2_pos (e : Z) : (0 < 2 ^ e)%Q.
Proof. by apply Qpower_0_lt. Qed.

Lemma pow2_le (e e' : Z) : e <= e' → (2 ^ e <= 2 ^ e')%Q.
Proof. intros He. by apply Qpower_le_compat_l. Qed.

Lemma pow2_lt_inv (e e' : Z) : (2 ^ e < 2 ^ e')%Q → e < e'.
Proof. intros Hlt. by apply (Qpower_lt_compat_l_inv 2). Qed.

Lemma pow2_add (a b : Z) : (2 ^ (a + b) == 2 ^ a * 2 ^ b)%Q.
Proof. by apply Qpower_plus. Qed.

Lemma pow2_Z (e : Z) : 0 <= e → (2 ^ e == inject_Z (2 ^ e))%Q.
Proof. intros He. by rewrite (Zpower_Qpower 2 e He). Qed.

Lemma exponent_spec (x : Q) :
  (0 < x)%Q → (2 ^ exponent x <= x < 2 ^ (exponent x + 1))%Q.
Proof.
  intros Hx. unfold exponent.
  set (n := Qnum x). set (d := Z.pos (Qden x)).
  assert (0 < n) as Hn by (destruct x as [[|?|?] ?]; done).
  assert (0 < d) as Hd by done.
  pose proof (Z.log2_spec n Hn) as [Hn1 Hn2].
  pose proof (Z.log2_spec d Hd) as [Hd1 Hd2].
  pose proof (Z.log2_nonneg n) as Hln. pose proof (Z.log2_nonneg d) as Hld.
  set (ln := Z.log2 n) in *. set (ld := Z.log2 d) in *.
  assert (x == inject_Z n / inject_Z d)%Q as Hxq
    by (unfold n, d; destruct x; apply Qmake_Qdiv).
  assert (0 < inject_Z d)%Q as Hdq
    by (change 0%Q with (inject_Z 0); by rewrite <- Zlt_Qlt).
  assert (x * inject_Z d == inject_Z n)%Q as Hmul
    by (rewrite Hxq; field; lra).
  (* 2^(ln - ld - 1) < x < 2^(ln - ld + 1) *)
  assert (2 ^ (ln - ld - 1) * inject_Z d < inject_Z n)%Q as Hlow.
  { apply Qlt_le_trans with (2 ^ (ln - ld - 1) * 2 ^ (ld + 1))%Q.
    - apply Qmult_lt_l; [apply pow2_pos|].
      rewrite pow2_Z by lia. rewrite <- Zlt_Qlt.
      by rewrite <- Z.add_1_r in Hd2.
    - rewrite <- pow2_add. replace (ln - ld - 1 + (ld + 1)) with ln by lia.
      rewrite pow2_Z by lia. by rewrite <- Zle_Qle. }
  assert (inject_Z n < 2 ^ (ln - ld + 1) * inject_Z d)%Q as Hhigh.
  { apply Qlt_le_trans with (2 ^ (ln - ld + 1) * 2 ^ ld)%Q.
    - rewrite <- pow2_add. replace (ln - ld + 1 + ld) with (ln + 1) by lia.
      rewrite pow2_Z by lia. rewrite <- Zlt_Qlt.
      by rewrite <- Z.add_1_r in Hn2.
    - apply Qmult_le_l; [apply pow2_pos|].
      rewrite pow2_Z by lia. by rewrite <- Zle_Qle. }
  rewrite <- Hmul in Hlow, Hhigh.
  apply Qmult_lt_r in Hlow; [|done]. apply Qmult_lt_r in Hhigh; [|done].
  destruct (Qltb_spec x (2 ^ (ln - ld))) as [Hlt|Hge].
  - replace (ln - ld - 1 + 1) with (ln - ld) by lia. split; [lra|done].
  - split; [lra|done].
Qed.

Lemma exponent_unique (x : Q) (e : Z) :
  (2 ^ e <= x < 2 ^ (e + 1))%Q → exponent x = e.
Proof.
  intros [Hlo Hhi].
  assert (0 < x)%Q as Hx by (pose proof (pow2_pos e); lra).
  destruct (exponent_spec x Hx) as [Hlo' Hhi'].
  assert (exponent x < e + 1) by (apply pow2_lt_inv; lra).
  assert (e < exponent x + 1) by (apply pow2_lt_inv; lra).
  lia.
Qed.

Lemma exponent_le (x y : Q) :
  (0 < x)%Q → (x <= y)%Q → exponent x <= exponent y.
Proof.
  intros Hx Hxy.
  destruct (exponent_spec x Hx) as [Hlo _].
  destruct (exponent_spec y ltac:(lra)) as [_ Hhi].
  assert (exponent x < exponent y + 1) by (apply pow2_lt_inv; lra).
  lia.
Qed.

Lemma roundHalfEven_range (x : Q) :
  Qfloor x <= roundHalfEven x <= Qfloor x + 1.
Proof. unfold roundHalfEven. repeat destruct (Qltb _ _); try destruct (Z.even _); lia. Qed.

Lemma roundHalfEven_Z (x : Q) (n : Z) : (x == inject_Z n)%Q → roundHalfEven x = n.
Proof.
  intros Hx. unfold roundHalfEven.
  rewrite (Qfloor_comp _ _ Hx), Qfloor_Z.
  destruct (Qltb_spec (x - inject_Z n) (1 # 2)) as [_|Hge]; [done|lra].
Qed.

Lemma roundHalfEven_le (x y : Q) :
  (x <= y)%Q → roundHalfEven x <= roundHalfEven y.
Proof.
  intros Hxy.
  pose proof (Qfloor_resp_le _ _ Hxy) as Hfloor.
  pose proof (roundHalfEven_range x). pose proof (roundHalfEven_range y).
  destruct (decide (Qfloor x = Qfloor y)) as [Heq|Hne]; [|lia].
  unfold roundHalfEven. rewrite <- Heq.
  destruct (Qltb_spec (x - inject_Z (Qfloor x)) (1 # 2)) as [Hx1|Hx1].
  { repeat destruct (Qltb _ _); try destruct (Z.even _); lia. }
  destruct (Qltb_spec (y - inject_Z (Qfloor x)) (1 # 2)) as [Hy1|Hy1]; [lra|].
  destruct (Qltb_spec (1 # 2) (x - inject_Z (Qfloor x))) as [Hx2|Hx2].
  { destruct (Qltb_spec (1 # 2) (y - inject_Z (Qfloor x))) as [Hy2|Hy2]; [lia|lra]. }
  destruct (Qltb_spec (1 # 2) (y - inject_Z (Qfloor x))) as [Hy2|Hy2];
    destruct (Z.even _); lia.
Qed.

(** The significand of a positive number lies between 2^52 and 2^53, and
    the rounded number stays in the binade. *)
Lemma roundPositive_binade (x : Q) :
  (0 < x)%Q →
  (2 ^ exponent x <= roundPositive x <= 2 ^ (exponent x + 1))%Q.
Proof.
  intros Hx. destruct (exponent_spec x Hx) as [Hlo Hhi].
  unfold roundPositive. set (e := exponent x) in *.
  set (s := (x * 2 ^ (52 - e))%Q).
  pose proof (pow2_pos (52 - e)) as Hp. pose proof (pow2_pos (e - 52)) as Hp'.
  assert (2 ^ 52 <= s)%Q as Hs1.
  { replace 52 with (e + (52 - e)) at 1 by lia. rewrite pow2_add.
    unfold s. apply Qmult_le_compat_r; lra. }
  assert (s <= 2 ^ 53)%Q as Hs2.
  { replace 53 with (e + 1 + (52 - e)) by lia. rewrite pow2_add.
    unfold s. apply Qmult_le_compat_r; lra. }
  assert (2 ^ 52 <= roundHalfEven s) as Hr1.
  { rewrite <- (roundHalfEven_Z (inject_Z (2 ^ 52)) (2 ^ 52)) by done.
    apply roundHalfEven_le. by rewrite <- pow2_Z. }
  assert (roundHalfEven s <= 2 ^ 53) as Hr2.
  { rewrite <- (roundHalfEven_Z (inject_Z (2 ^ 53)) (2 ^ 53)) at 1 by done.
    apply roundHalfEven_le. by rewrite <- pow2_Z. }
  rewrite Zle_Qle in Hr1, Hr2. rewrite <- !pow2_Z in Hr1, Hr2 by lia.
  split.
  - replace e with (52 + (e - 52)) at 1 by lia. rewrite pow2_add.
    apply Qmult_le_compat_r; lra.
  - replace (e + 1) with (53 + (e - 52)) by lia. rewrite pow2_add.
    apply Qmult_le_compat_r; lra.
Qed.

Lemma roundPositive_le (x y : Q) :
  (0 < x)%Q → (x <= y)%Q → (roundPositive x <= roundPositive y)%Q.
Proof.
  intros Hx Hxy.
  pose proof (exponent_le x y Hx Hxy) as He.
  destruct (decide (exponent x = exponent y)) as [Heq|Hne].
  - unfold roundPositive. rewrite Heq.
    pose proof (pow2_pos (52 - exponent y)). pose proof (pow2_pos (exponent y - 52)).
    apply Qmult_le_compat_r; [|lra].
    rewrite <- Zle_Qle. apply roundHalfEven_le.
    apply Qmult_le_compat_r; lra.
  - destruct (roundPositive_binade x Hx) as [_ Hhi].
    destruct (roundPositive_binade y ltac:(lra)) as [Hlo _].
    pose proof (pow2_le (exponent x + 1) (exponent y) ltac:(lia)). lra.
Qed.

Lemma roundPositive_pos (x : Q) : (0 < x)%Q → (0 < roundPositive x)%Q.
Proof.
  intros Hx. destruct (roundPositive_binade x Hx) as [Hlo _].
  pose proof (pow2_pos (exponent x)). lra.
Qed.

Lemma roundPositive_comp (x y : Q) :
  (0 < x)%Q → (x == y)%Q → (roundPositive x == roundPositive y)%Q.
Proof.
  intros Hx Hxy. apply Qle_antisym; apply roundPositive_le; lra.
Qed.

(** Rounding is monotone. *)
Lemma roundDouble_le (x y : Q) : (x <= y)%Q → (roundDouble x <= roundDouble y)%Q.
Proof.
  intros Hxy. unfold roundDouble.
  destruct (Qltb_spec 0 x) as [Hx|Hx].
  { destruct (Qltb_spec 0 y) as [Hy|Hy]; [|lra]. by apply roundPositive_le. }
  destruct (Qltb_spec x 0) as [Hx'|Hx'].
  - pose proof (roundPositive_pos (- x) ltac:(lra)).
    destruct (Qltb_spec 0 y) as [Hy|Hy].
    { pose proof (roundPositive_pos y Hy). lra. }
    destruct (Qltb_spec y 0) as [Hy'|Hy']; [|lra].
    pose proof (roundPositive_le (- y) (- x) ltac:(lra) ltac:(lra)). lra.
  - destruct (Qltb_spec 0 y) as [Hy|Hy].
    { pose proof (roundPositive_pos y Hy). lra. }
    destruct (Qltb_spec y 0) as [Hy'|Hy']; lra.
Qed.

Lemma roundPositive_integer (z : Z) :
  0 < z <= 2 ^ 53 → (roundPositive (inject_Z z) == inject_Z z)%Q.
Proof.
  intros [Hz1 Hz2].
  assert (0 < inject_Z z)%Q as Hzq
    by (change 0%Q with (inject_Z 0); by rewrite <- Zlt_Qlt).
  destruct (exponent_spec (inject_Z z) Hzq) as [Hlo Hhi].
  unfold roundPositive. set (e := exponent (inject_Z z)) in *.
  assert (0 <= e).
  { assert (0 < e + 1); [|lia]. apply pow2_lt_inv.
    apply Qle_lt_trans with (inject_Z z); [|done].
    change (2 ^ 0)%Q with (inject_Z 1). rewrite <- Zle_Qle. lia. }
  assert (e <= 53).
  { assert (e < 53 + 1); [|lia]. apply pow2_lt_inv.
    apply Qle_lt_trans with (inject_Z z); [done|].
    apply Qle_lt_trans with (2 ^ 53)%Q.
    - rewrite pow2_Z by lia. by rewrite <- Zle_Qle.
    - by apply Qpower_lt_compat_l. }
  destruct (decide (e <= 52)) as [He|He].
  - rewrite (roundHalfEven_Z _ (z * 2 ^ (52 - e))).
    + rewrite inject_Z_mult, <- pow2_Z by lia.
      rewrite <- Qmult_assoc, <- pow2_add.
      replace (52 - e + (e - 52)) with 0 by lia. change (2 ^ 0)%Q with 1%Q. ring.
    + rewrite inject_Z_mult, <- pow2_Z by lia. reflexivity.
  - assert (e = 53) as He53 by lia. rewrite He53 in *.
    assert (z = 2 ^ 53) as ->.
    { rewrite pow2_Z in Hlo by lia. rewrite <- Zle_Qle in Hlo. lia. }
    by vm_compute.
Qed.

(** Integers up to 2^53 are doubles. *)
Lemma roundDouble_integer (z : Z) :
  Z.abs z <= 2 ^ 53 → (roundDouble (inject_Z z) == inject_Z z)%Q.
Proof.
  intros Hz. unfold roundDouble.
  destruct (Qltb_spec 0 (inject_Z z)) as [Hpos|Hpos].
  { change 0%Q with (inject_Z 0) in Hpos. rewrite <- Zlt_Qlt in Hpos.
    apply roundPositive_integer. lia. }
  destruct (Qltb_spec (inject_Z z) 0) as [Hneg|Hneg]; [|lra].
  change 0%Q with (inject_Z 0) in Hneg. rewrite <- Zlt_Qlt in Hneg.
  rewrite <- (Qopp_involutive (inject_Z z)) at 2.
  apply Qopp_comp. rewrite <- inject_Z_opp.
  apply roundPositive_integer. lia.
Qed.

Lemma roundHalfEven_error (x : Q) :
  (- (1 # 2) <= inject_Z (roundHalfEven x) - x <= 1 # 2)%Q.
Proof.
  pose proof (Qfloor_le x) as Hlo. pose proof (Qlt_floor x) as Hhi.
  rewrite inject_Z_plus in Hhi. change (inject_Z 1) with 1%Q in Hhi.
  unfold roundHalfEven.
  destruct (Qltb_spec (x - inject_Z (Qfloor x)) (1 # 2)) as [H1|H1]; [lra|].
  destruct (Qltb_spec (1 # 2) (x - inject_Z (Qfloor x))) as [H2|H2].
  { rewrite inject_Z_plus. change (inject_Z 1) with 1%Q. lra. }
  destruct (Z.even _); [lra|].
  rewrite inject_Z_plus. change (inject_Z 1) with 1%Q. lra.
Qed.

(** The relative error of a rounding is at most 2^-53. *)
Lemma roundDouble_error (x : Q) :
  (0 < x)%Q →
  (x * (1 - (1 # 9007199254740992)) <= roundDouble x
     <= x * (1 + (1 # 9007199254740992)))%Q.
Proof.
  intros Hx. unfold roundDouble.
  destruct (Qltb_spec 0 x) as [_|Hn]; [|lra].
  destruct (exponent_spec x Hx) as [Hlo _].
  unfold roundPositive. set (e := exponent x) in *.
  set (s := (x * 2 ^ (52 - e))%Q).
  pose proof (roundHalfEven_error s) as [He1 He2].
  set (n := inject_Z (roundHalfEven s)) in *.
  pose proof (pow2_pos (e - 52)) as Hp.
  assert (s * 2 ^ (e - 52) == x)%Q as Hs.
  { unfold s. rewrite <- Qmult_assoc, <- pow2_add.
    replace (52 - e + (e - 52)) with 0 by lia. change (2 ^ 0)%Q with 1%Q. ring. }
  assert (2 ^ (e - 52) <= x * (1 # 4503599627370496))%Q as Hulp.
  { replace (e - 52) with (e + - 52) by lia. rewrite pow2_add.
    assert (2 ^ (- 52) == 1 # 4503599627370496)%Q as -> by reflexivity.
    apply Qmult_le_compat_r; [done|discriminate]. }
  assert ((s - (1 # 2)) * 2 ^ (e - 52) <= n * 2 ^ (e - 52))%Q as Hlow
    by (apply Qmult_le_compat_r; lra).
  assert (n * 2 ^ (e - 52) <= (s + (1 # 2)) * 2 ^ (e - 52))%Q as Hhigh
    by (apply Qmult_le_compat_r; lra).
  assert ((s - (1 # 2)) * 2 ^ (e - 52) == x - (1 # 2) * 2 ^ (e - 52))%Q as Hl
    by (rewrite <- Hs; ring).
  assert ((s + (1 # 2)) * 2 ^ (e - 52) == x + (1 # 2) * 2 ^ (e - 52))%Q as Hh
    by (rewrite <- Hs; ring).
  rewrite Hl in Hlow. rewrite Hh in Hhigh. split; lra.
Qed.

End DoubleProofs.

Section FitProofs.

Lemma roundDouble_comp (x y : Q) : (x == y)%Q → (roundDouble x == roundDouble y)%Q.
Proof. intros Hxy. apply Qle_antisym; apply roundDouble_le; lra. Qed.

Lemma roundDouble_nonneg (x : Q) : (0 <= x)%Q → (0 <= roundDouble x)%Q.
Proof.
  intros Hx. rewrite <- (roundDouble_integer 0) by done.
  by apply roundDouble_le.
Qed.

Lemma inject_Z_pos (z : Z) : 0 < z → (0 < inject_Z z)%Q.
Proof. intros Hz. change 0%Q with (inject_Z 0). by rewrite <- Zlt_Qlt. Qed.

(** A quotient of two positive integers, below an integer bound. *)
Lemma quotient_le (a b c : Z) :
  0 < b → a <= c * b → (inject_Z a / inject_Z b <= inject_Z c)%Q.
Proof.
  intros Hb Hle. apply Qle_shift_div_r; [by apply inject_Z_pos|].
  rewrite <- inject_Z_mult, <- Zle_Qle. lia.
Qed.

Lemma quotient_lt (a b c : Z) :
  0 < b → a < c * b → (inject_Z a / inject_Z b < inject_Z c)%Q.
Proof.
  intros Hb Hlt. apply Qlt_shift_div_r; [by apply inject_Z_pos|].
  rewrite <- inject_Z_mult, <- Zlt_Qlt. lia.
Qed.

Lemma quotient_ge (a b c : Z) :
  0 < b → c * b <= a → (inject_Z c <= inject_Z a / inject_Z b)%Q.
Proof.
  intros Hb Hle. apply Qle_shift_div_l; [by apply inject_Z_pos|].
  rewrite <- inject_Z_mult, <- Zle_Qle. lia.
Qed.

(** The four ways through [img.onload]. *)
Lemma fitDimensions_cases (imgWidth imgHeight : Z) :
  1 <= imgWidth → 1 <= imgHeight →
  800 * imgWidth <= 2 ^ 53 → 800 * imgHeight <= 2 ^ 53 →
  let scaled := roundDouble (inject_Z (800 * imgHeight) / inject_Z imgWidth) in
  (imgWidth <= 800 ∧ imgHeight <= 800 ∧
   fitDimensions imgWidth imgHeight = (imgWidth, imgHeight)) ∨
  (imgWidth <= 800 ∧ 800 < imgHeight ∧
   fitDimensions imgWidth imgHeight =
     (Qfloor (roundDouble (inject_Z (800 * imgWidth) / inject_Z imgHeight)), 800)) ∨
  (800 < imgWidth ∧ (scaled <= 800)%Q ∧
   fitDimensions imgWidth imgHeight = (800, Qfloor scaled)) ∨
  (800 < imgWidth ∧ (800 < scaled)%Q ∧
   fitDimensions imgWidth imgHeight = (Qfloor (roundDouble (640000 / scaled)), 800)).
Proof.
  intros Hw Hh Hwb Hhb scaled. unfold fitDimensions, maxWidth, maxHeight.
  assert (∀ z, 0 <= z → 800 * z <= 2 ^ 53 →
            (roundDouble (800 * inject_Z z) == inject_Z (800 * z))%Q) as Hprod.
  { intros z Hz Hzb.
    rewrite (roundDouble_comp _ (inject_Z (800 * z)))
      by (rewrite inject_Z_mult; reflexivity).
    apply roundDouble_integer. lia. }
  destruct (Qltb_spec 800 (inject_Z imgWidth)) as [Hwide|Hnarrow].
  - change 800%Q with (inject_Z 800) in Hwide. rewrite <- Zlt_Qlt in Hwide.
    assert (roundDouble (roundDouble (800 * inject_Z imgHeight) / inject_Z imgWidth)
              == scaled)%Q as Hscaled.
    { apply roundDouble_comp. rewrite Hprod by lia. reflexivity. }
    right. right.
    destruct (Qltb_spec 800
                (roundDouble (roundDouble (800 * inject_Z imgHeight) /
                              inject_Z imgWidth))) as [Htall|Hshort].
    + right. split; [done|]. split; [lra|]. f_equal.
      apply Qfloor_comp, roundDouble_comp.
      rewrite (roundDouble_comp (800 * 800) (inject_Z 640000)) by reflexivity.
      rewrite (roundDouble_integer 640000) by done.
      rewrite Hscaled. reflexivity.
    + left. split; [done|]. split; [lra|]. f_equal.
      by apply Qfloor_comp.
  - assert (imgWidth <= 800) as Hnarrow'.
    { apply Z.le_ngt. intros Hgt. apply Hnarrow.
      change 800%Q with (inject_Z 800). by rewrite <- Zlt_Qlt. }
    destruct (Qltb_spec 800 (inject_Z imgHeight)) as [Htall|Hshort].
    + change 800%Q with (inject_Z 800) in Htall. rewrite <- Zlt_Qlt in Htall.
      right. left. split; [done|]. split; [done|]. f_equal.
      apply Qfloor_comp, roundDouble_comp. rewrite Hprod by lia. reflexivity.
    + assert (imgHeight <= 800) as Hshort'.
      { apply Z.le_ngt. intros Hgt. apply Hshort.
        change 800%Q with (inject_Z 800). by rewrite <- Zlt_Qlt. }
      left. split; [done|]. split; [done|]. by rewrite !Qfloor_Z.
Qed.

Lemma Qfloor_unique (q : Q) (n : Z) :
  (inject_Z n <= q < inject_Z (n + 1))%Q → Qfloor q = n.
Proof.
  intros [Hlo Hhi]. pose proof (Qfloor_le q) as Hfloor.
  assert (n <= Qfloor q) by (rewrite <- (Qfloor_Z n); by apply Qfloor_resp_le).
  assert (Qfloor q < n + 1) by (rewrite Zlt_Qlt; lra). lia.
Qed.

(** A quotient of integers is within [1/b] of the next integer, and at
    least [1/b] above its floor unless it is an integer. *)
Lemma quotient_floor (a b : Z) :
  0 < b → b <= 2 ^ 32 →
  let n := a / b in
  let y := (inject_Z a / inject_Z b)%Q in
  let t := (1 / inject_Z b)%Q in
  (1 # 4294967296 <= t)%Q ∧
  (inject_Z n <= y <= inject_Z (n + 1) - t)%Q ∧
  (a mod b = 0 → (y == inject_Z n)%Q) ∧
  (a mod b ≠ 0 → (inject_Z n + t <= y)%Q).
Proof.
  intros Hb Hb32 n y t.
  pose proof (inject_Z_pos b Hb) as Hbq.
  pose proof (Z.div_mod a b ltac:(lia)) as Hdiv. fold n in Hdiv.
  pose proof (Z.mod_pos_bound a b Hb) as Hmod.
  assert (1 # 4294967296 <= t)%Q as Ht.
  { unfold t. apply Qle_shift_div_l; [done|].
    assert (inject_Z b <= inject_Z (2 ^ 32))%Q as Hle by (by rewrite <- Zle_Qle).
    change (inject_Z (2 ^ 32)) with 4294967296%Q in Hle. lra. }
  assert (y + t == inject_Z (a + 1) / inject_Z b)%Q as Hyt
    by (unfold y, t; rewrite inject_Z_plus; change (inject_Z 1) with 1%Q; field; lra).
  assert (y - t == inject_Z (a - 1) / inject_Z b)%Q as Hyt'
    by (unfold y, t; unfold Z.sub; rewrite inject_Z_plus;
        change (inject_Z (- (1))) with (- (1))%Q; field; lra).
  split; [done|]. split; [split|split].
  - apply quotient_ge; [done|]. lia.
  - assert (y + t <= inject_Z (n + 1))%Q; [|lra].
    rewrite Hyt. apply quotient_le; [done|]. lia.
  - intros Hzero. unfold y. apply Qle_antisym.
    + apply quotient_le; [done|]. lia.
    + apply quotient_ge; [done|]. lia.
  - intros Hne. assert (inject_Z n <= y - t)%Q; [|lra].
    rewrite Hyt'. apply quotient_ge; [done|]. lia.
Qed.

(** One rounded division followed by [Math.floor] is exact for quotients
    below 1024 and divisors of at most 32 bits. *)
Lemma floor_rounded_quotient (a b : Z) :
  0 < a → 0 < b → b <= 2 ^ 32 → a < 1024 * b →
  Qfloor (roundDouble (inject_Z a / inject_Z b)) = a / b.
Proof.
  intros Ha Hb Hb32 Hsmall.
  destruct (quotient_floor a b Hb Hb32) as (Ht & [Hlo Hhi] & _).
  set (y := (inject_Z a / inject_Z b)%Q) in *.
  set (t := (1 / inject_Z b)%Q) in *.
  pose proof (inject_Z_pos a Ha) as Haq. pose proof (inject_Z_pos b Hb) as Hbq.
  assert (0 < y)%Q as Hy by (apply Qlt_shift_div_l; lra).
  assert (y < 1024)%Q as Hy'
    by (change 1024%Q with (inject_Z 1024); by apply quotient_lt).
  assert (0 <= a / b < 1024) as Hn
    by (split; [apply Z.div_pos; lia|apply Z.div_lt_upper_bound; lia]).
  destruct (roundDouble_error y Hy) as [_ Herr].
  apply Qfloor_unique. split.
  - rewrite <- (roundDouble_integer (a / b)) by lia. by apply roundDouble_le.
  - rewrite inject_Z_plus in *. change (inject_Z 1) with 1%Q in *. lra.
Qed.

(** Two rounded divisions, as in the second scaling of a tall image: the
    result is the exact floor, or one less when the exact quotient is an
    integer. *)
Lemma floor_rescaled_quotient (w h : Z) :
  800 < w → w < h → h <= 2 ^ 32 →
  let scaled := roundDouble (inject_Z (800 * h) / inject_Z w) in
  let width := Qfloor (roundDouble (640000 / scaled)) in
  (800 < scaled)%Q ∧
  (width = 800 * w / h ∨
   (width = 800 * w / h - 1 ∧ (800 * w) mod h = 0)).
Proof.
  intros Hw Hwh Hh32 scaled width.
  pose proof (inject_Z_pos w ltac:(lia)) as Hwq.
  pose proof (inject_Z_pos h ltac:(lia)) as Hhq.
  set (y := (inject_Z (800 * h) / inject_Z w)%Q) in *.
  set (V := (inject_Z (800 * w) / inject_Z h)%Q).
  assert (y == 800 * inject_Z h / inject_Z w)%Q as Hy
    by (unfold y; rewrite inject_Z_mult; reflexivity).
  assert (V == 800 * inject_Z w / inject_Z h)%Q as HV
    by (unfold V; rewrite inject_Z_mult; reflexivity).
  assert (V * y == 640000)%Q as HVy by (rewrite Hy, HV; field; lra).
  (* y is above 800 by at least 800 / w *)
  destruct (quotient_floor 1 w ltac:(lia) ltac:(lia)) as (Htw & _).
  set (tw := (1 / inject_Z w)%Q) in *.
  assert (800 + 800 * tw <= y)%Q as Hy800.
  { assert (800 + 800 * tw == inject_Z (800 * (w + 1)) / inject_Z w)%Q as ->
      by (unfold tw; rewrite inject_Z_mult, inject_Z_plus;
          change (inject_Z 1) with 1%Q; change (inject_Z 800) with 800%Q;
          field; lra).
    unfold y. apply Qmult_le_compat_r; [|apply Qlt_le_weak, Qinv_lt_0_compat; lra].
    rewrite <- Zle_Qle. lia. }
  assert (0 < y)%Q as Hypos by lra.
  assert (0 < V < 800)%Q as HVrange.
  { split.
    - apply Qlt_shift_div_l; [done|]. rewrite Qmult_0_l. apply inject_Z_pos. lia.
    - change 800%Q with (inject_Z 800). apply quotient_lt; lia. }
  destruct (roundDouble_error y Hypos) as [Hs1 Hs2]. fold scaled in Hs1, Hs2.
  assert (800 < scaled)%Q as Hscaled.
  { assert (tw <= 1)%Q.
    { unfold tw. apply Qle_shift_div_r; [done|].
      assert (inject_Z 1 <= inject_Z w)%Q by (rewrite <- Zle_Qle; lia).
      change (inject_Z 1) with 1%Q in *. lra. }
    assert (800 * (1 - (1 # 9007199254740992)) +
            800 * tw * (1 - (1 # 9007199254740992)) <=
            y * (1 - (1 # 9007199254740992)))%Q.
    { assert ((800 + 800 * tw) * (1 - (1 # 9007199254740992)) <=
              y * (1 - (1 # 9007199254740992)))%Q
        by (apply Qmult_le_compat_r; [done|discriminate]).
      lra. }
    lra. }
  split; [done|].
  assert (0 < scaled)%Q as Hspos by lra.
  set (v := (640000 / scaled)%Q).
  assert (v * scaled == 640000)%Q as Hvs by (unfold v; field; lra).
  assert (0 < v)%Q as Hvpos by (apply Qlt_shift_div_l; lra).
  (* v lies within a relative 2^-53 of V, on either side *)
  assert (V * (1 - (1 # 9007199254740992)) <= v)%Q as Hv1.
  { apply Qle_shift_div_l; [done|].
    apply Qle_trans with (V * (1 - (1 # 9007199254740992)) *
                          (y * (1 + (1 # 9007199254740992))))%Q.
    - apply Qmult_le_l; [|done].
      apply Qmult_lt_0_compat; [lra|reflexivity].
    - assert (V * (1 - (1 # 9007199254740992)) *
              (y * (1 + (1 # 9007199254740992))) ==
              V * y * ((1 - (1 # 9007199254740992)) *
                       (1 + (1 # 9007199254740992))))%Q as -> by ring.
      rewrite HVy. discriminate. }
  assert (v * (1 - (1 # 9007199254740992)) <= V)%Q as Hv2.
  { assert (v * (y * (1 - (1 # 9007199254740992))) <= v * scaled)%Q as Hle
      by (apply Qmult_le_l; done).
    rewrite Hvs in Hle.
    assert (v * (1 - (1 # 9007199254740992)) * y <= V * y)%Q as Hle'
      by (rewrite HVy; lra).
    by apply Qmult_le_r in Hle'. }
  destruct (roundDouble_error v Hvpos) as [Hx1 Hx2].
  set (x := roundDouble v) in *.
  destruct (quotient_floor (800 * w) h ltac:(lia) Hh32)
    as (Hth & [Hn1 Hn2] & Hint & Hfrac).
  fold V in Hn1, Hn2, Hint, Hfrac.
  set (n := 800 * w / h) in *. set (th := (1 / inject_Z h)%Q) in *.
  rewrite inject_Z_plus in Hn2. change (inject_Z 1) with 1%Q in Hn2.
  assert (v <= V + (1 # 4398046511104))%Q as Hvhi by lra.
  assert (V - (1 # 4398046511104) <= v)%Q as Hvlo by lra.
  assert (x < inject_Z n + 1)%Q as Hxhi by lra.
  unfold width. fold v. fold x.
  destruct (decide ((800 * w) mod h = 0)) as [Hzero|Hnonzero].
  - specialize (Hint Hzero).
    destruct (Qlt_le_dec x (inject_Z n)) as [Hlt|Hge]; [|left].
    + right. split; [|done]. apply Qfloor_unique.
      unfold Z.sub. rewrite !inject_Z_plus.
      change (inject_Z (- (1))) with (- (1))%Q. change (inject_Z 1) with 1%Q.
      split; lra.
    + apply Qfloor_unique. rewrite inject_Z_plus.
      change (inject_Z 1) with 1%Q. split; lra.
  - specialize (Hfrac Hnonzero). left. apply Qfloor_unique.
    rewrite inject_Z_plus. change (inject_Z 1) with 1%Q. split; lra.
Qed.

(** The canvas size in closed form.  An image that fits is kept;
    otherwise the longer side becomes 800 and the other side is the floor
    of the exact quotient, except that for an image taller than wide and
    wider than 800, which is scaled twice, the width is one less when both
    roundings go the wrong way, which can only happen if the exact quotient
    is an integer.  So the canvas never exceeds 800 pixels or the image in
    either direction, and a side is floored to 0 only if the image is at
    least 800 times longer in the other direction. *)
Theorem fitDimensions_bounds (imgWidth imgHeight : Z) :
  1 <= imgWidth <= 2 ^ 32 → 1 <= imgHeight <= 2 ^ 32 →
  let width := (fitDimensions imgWidth imgHeight).1 in
  let height := (fitDimensions imgWidth imgHeight).2 in
  (imgWidth <= 800 → imgHeight <= 800 →
     width = imgWidth ∧ height = imgHeight) ∧
  (800 < imgWidth → imgHeight <= imgWidth →
     width = 800 ∧ height = 800 * imgHeight / imgWidth) ∧
  (imgWidth <= 800 → 800 < imgHeight →
     width = 800 * imgWidth / imgHeight ∧ height = 800) ∧
  (800 < imgWidth → imgWidth < imgHeight →
     height = 800 ∧
     (width = 800 * imgWidth / imgHeight ∨
      (width = 800 * imgWidth / imgHeight - 1 ∧
       (800 * imgWidth) mod imgHeight = 0))) ∧
  0 <= width <= Z.min 800 imgWidth ∧
  0 <= height <= Z.min 800 imgHeight ∧
  ((width, height) = (imgWidth, imgHeight) ∨ width = 800 ∨ height = 800) ∧
  (800 * imgWidth < imgHeight → width = 0) ∧
  (width = 0 → 800 * imgWidth <= imgHeight) ∧
  (height = 0 ↔ 800 * imgHeight < imgWidth).
Proof.
  intros [Hw Hw32] [Hh Hh32] width height.
  destruct (fitDimensions_cases imgWidth imgHeight Hw Hh ltac:(lia) ltac:(lia))
    as [(H1 & H2 & Hfit)|[(H1 & H2 & Hfit)|[(H1 & H2 & Hfit)|(H1 & H2 & Hfit)]]];
    unfold width, height; rewrite Hfit; clear Hfit; cbn [fst snd].
  - split_and!; solve [lia|by left].
  - rewrite (floor_rounded_quotient (800 * imgWidth) imgHeight) by lia.
    assert (0 <= 800 * imgWidth / imgHeight) by (apply Z.div_pos; lia).
    assert (800 * imgWidth / imgHeight < imgWidth)
      by (apply Z.div_lt_upper_bound; nia).
    assert (800 * imgWidth < imgHeight ↔ 800 * imgWidth / imgHeight = 0)
      by (rewrite Z.div_small_iff by lia; lia).
    split_and!; solve [lia|by right; right].
  - assert (imgHeight <= imgWidth) as Hwide.
    { apply Z.le_ngt. intros Htall.
      destruct (floor_rescaled_quotient imgWidth imgHeight H1 Htall Hh32)
        as [Hscaled _]. lra. }
    rewrite (floor_rounded_quotient (800 * imgHeight) imgWidth) by lia.
    assert (0 <= 800 * imgHeight / imgWidth) by (apply Z.div_pos; lia).
    assert (800 * imgHeight / imgWidth <= 800)
      by (apply Z.div_le_upper_bound; lia).
    assert (800 * imgHeight / imgWidth < imgHeight)
      by (apply Z.div_lt_upper_bound; nia).
    assert (800 * imgHeight < imgWidth ↔ 800 * imgHeight / imgWidth = 0)
      by (rewrite Z.div_small_iff by lia; lia).
    split_and!; solve [lia|by right; left].
  - assert (imgWidth < imgHeight) as Htall.
    { apply Z.lt_nge. intros Hwide.
      assert (roundDouble (inject_Z (800 * imgHeight) / inject_Z imgWidth) <= 800)%Q;
        [|lra].
      rewrite <- (roundDouble_integer 800) by done.
      apply roundDouble_le. apply quotient_le; lia. }
    destruct (floor_rescaled_quotient imgWidth imgHeight H1 Htall Hh32)
      as [_ Hwidth].
    cbv zeta in Hwidth.
    set (x := Qfloor (roundDouble
                 (640000 / roundDouble (inject_Z (800 * imgHeight) /
                                        inject_Z imgWidth)))) in *.
    assert (0 <= 800 * imgWidth / imgHeight) by (apply Z.div_pos; lia).
    assert (800 * imgWidth / imgHeight < 800)
      by (apply Z.div_lt_upper_bound; lia).
    assert (800 * imgWidth / imgHeight < imgWidth)
      by (apply Z.div_lt_upper_bound; nia).
    assert (800 * imgWidth < imgHeight ↔ 800 * imgWidth / imgHeight = 0)
      by (rewrite Z.div_small_iff by lia; lia).
    assert ((800 * imgWidth) mod imgHeight = 0 → 1 <= 800 * imgWidth / imgHeight).
    { intros Hzero. pose proof (Z.div_mod (800 * imgWidth) imgHeight ltac:(lia)).
      nia. }
    assert ((800 * imgWidth) mod imgHeight = 0 →
            800 * imgWidth / imgHeight = 1 → 800 * imgWidth = imgHeight).
    { intros Hzero Hone.
      pose proof (Z.div_mod (800 * imgWidth) imgHeight ltac:(lia)). nia. }
    split_and!; solve [lia|by right; right].
Qed.

End FitProofs.

Lemma fitDimensions_bounds_witness :
  fitDimensions 801 1440 = (444, 800) ∧
  800 * 801 / 1440 = 445 ∧
  (fitDimensions 801 1440).2 = 800 ∧
  ((fitDimensions 801 1440).1 = 800 * 801 / 1440 ∨
   ((fitDimensions 801 1440).1 = 800 * 801 / 1440 - 1 ∧
    (800 * 801) mod 1440 = 0)).
Proof.
  split; [by vm_compute|]. split; [reflexivity|].
  apply (fitDimensions_bounds 801 1440); [by vm_compute|by vm_compute|lia|lia].
Defined.

(** The rounding on some numbers whose doubles are well known, and the
    canvas of some images: one that fits, a wide one, and a thin one whose
    width is floored to 0. *)
Example roundDouble_examples :
  (roundDouble (1 # 10) == 3602879701896397 # 36028797018963968)%Q ∧
  (roundDouble (- (1 # 3)) == - (6004799503160661 # 18014398509481984))%Q ∧
  (roundDouble 9007199254740993 == 9007199254740992)%Q ∧
  fitDimensions 640 480 = (640, 480) ∧
  fitDimensions 1920 1080 = (800, 450) ∧
  fitDimensions 1 2000 = (0, 800).
Proof. by vm_compute. Qed.

Section ScanProofs.

Lemma scanInv_nonneg sobelData width cx cy endX x y m :
  scanInv sobelData width cx cy endX x y m → (0 <= maxGrad m)%Q.
Proof. intros [_ [->|[Hpos _]]]; simpl; lra. Qed.

Lemma scanCell_inv (sobelData : list Q) (width height cx cy size : Z) :
  scanInv sobelData width cx cy (Z.min (cx + size) (width - 1)) cx
    (Z.max cy (Z.min (cy + size) (height - 1)))
    (scanCell sobelData width height cx cy size).
Proof.
  unfold scanCell. cbv zeta.
  set (endX := Z.min (cx + size) (width - 1)).
  set (endY := Z.min (cy + size) (height - 1)).
  apply (forBelow_unit_rule (λ y, scanInv sobelData width cx cy endX cx y)).
  { split; [|by left]. intros x' y' v Hs. unfold scanned in Hs. lia. }
  intros y m Hy Hrow.
  assert (scanInv sobelData width cx cy endX (Z.max cx endX) y
            (forBelow cx endX 1
               (λ x m,
                  match readAt sobelData (y * width + x) with
                  | Some grad =>
                      if Qltb (maxGrad m) grad
                      then {| maxGrad := grad; maxX := x; maxY := y |}
                      else m
                  | None => m
                  end) m)) as [Hmax Hloc].
  { apply (forBelow_unit_rule (λ x, scanInv sobelData width cx cy endX x y));
      [done|].
    clear m Hrow. intros x m Hx Hinv.
    pose proof (scanInv_nonneg _ _ _ _ _ _ _ _ Hinv) as Hnn.
    destruct Hinv as [Hmax Hloc].
    assert (∀ x' y', scanned cx cy endX (x + 1) y x' y' →
              scanned cx cy endX x y x' y' ∨ (x' = x ∧ y' = y)) as Hstep
      by (unfold scanned; lia).
    assert (∀ x' y', scanned cx cy endX x y x' y' →
              scanned cx cy endX (x + 1) y x' y') as Hkeep
      by (unfold scanned; lia).
    destruct (readAt sobelData (y * width + x)) as [grad|] eqn:Hread.
    - destruct (Qltb_spec (maxGrad m) grad) as [Hlt|Hge].
      + split; simpl.
        * intros x' y' v [Hs|[-> ->]]%Hstep Hv.
          -- apply Qle_trans with (maxGrad m); [by eapply Hmax|lra].
          -- rewrite Hread in Hv. injection Hv as ->. lra.
        * right. split_and!; [lra| |done]. unfold scanned. lia.
      + split.
        * intros x' y' v [Hs|[-> ->]]%Hstep Hv; [by eapply Hmax|].
          rewrite Hread in Hv. injection Hv as ->. lra.
        * destruct Hloc as [->|(? & ? & ?)]; [by left|]. right. auto.
    - split.
      + intros x' y' v [Hs|[-> ->]]%Hstep Hv; [by eapply Hmax|congruence].
      + destruct Hloc as [->|(? & ? & ?)]; [by left|]. right. auto. }
  split.
  - intros x' y' v Hs. apply Hmax. unfold scanned in *. lia.
  - destruct Hloc as [->|(? & Hs & ?)]; [by left|]. right.
    split_and!; [done| |done]. unfold scanned in *. lia.
Qed.

Lemma scanCell_location (sobelData : list Q) (width height cx cy size : Z) :
  let m := scanCell sobelData width height cx cy size in
  (0 < maxGrad m)%Q →
  cx <= maxX m < Z.min (cx + size) (width - 1) ∧
  cy <= maxY m < Z.min (cy + size) (height - 1).
Proof.
  intros m Hpos.
  destruct (scanCell_inv sobelData width height cx cy size) as [_ Hloc].
  fold m in Hloc. destruct Hloc as [Heq|(_ & Hs & _)].
  - rewrite Heq in Hpos. simpl in Hpos. lra.
  - unfold scanned in Hs. lia.
Qed.

(** [processCell] scans its cell for the greatest gradient: the value it
    finds bounds every value of the cell; when it is positive it is read
    at the location found, inside the cell; otherwise the location stays
    (-1, -1). *)
Theorem scanCell_finds_maximum (sobelData : list Q)
    (width height cx cy size : Z) :
  let m := scanCell sobelData width height cx cy size in
  let endX := Z.min (cx + size) (width - 1) in
  let endY := Z.min (cy + size) (height - 1) in
  (0 <= maxGrad m)%Q ∧
  (∀ x y v, cx <= x < endX → cy <= y < endY →
     readAt sobelData (y * width + x) = Some v → (v <= maxGrad m)%Q) ∧
  ((maxGrad m = 0%Q ∧ maxX m = -1 ∧ maxY m = -1) ∨
   ((0 < maxGrad m)%Q ∧ cx <= maxX m < endX ∧ cy <= maxY m < endY ∧
    readAt sobelData (maxY m * width + maxX m) = Some (maxGrad m))).
Proof.
  intros m endX endY.
  pose proof (scanCell_inv sobelData width height cx cy size) as Hinv.
  fold m endX endY in Hinv.
  split; [by eapply scanInv_nonneg|].
  destruct Hinv as [Hmax Hloc]. split.
  - intros x y v Hx Hy. apply Hmax. unfold scanned. lia.
  - destruct Hloc as [->|(Hpos & Hs & Hread)]; [by left|]. right.
    split_and!; try done; unfold scanned in Hs; lia.
Qed.

End ScanProofs.

Section BoundsProofs.
Context `{Builtins}.

Lemma addPoint_Forall (R : Point → Prop) x y st :
  R (x, y) → Forall R (points st) → Forall R (points (addPoint x y st)).
Proof.
  intros Hxy Hst. destruct (addPoint_cases x y st) as [[_ ->]|[_ ->]]; [done|].
  simpl. apply Forall_app. split; [done|]. by apply Forall_singleton.
Qed.

Lemma inBounds_integer width height (a b : Z) :
  0 <= a <= width → 0 <= b <= height →
  inBounds width height (inject_Z a, inject_Z b).
Proof.
  intros Ha Hb. unfold inBounds. simpl.
  change 0%Q with (inject_Z 0). rewrite <- !Zle_Qle. lia.
Qed.

Lemma inBounds_midpoint width height (pa pb : Point) :
  inBounds width height pa → inBounds width height pb →
  inBounds width height (midpoint pa pb).
Proof.
  unfold inBounds, midpoint. simpl. intros [[??] [??]] [[??] [??]].
  split; split.
  all: try (apply Qle_shift_div_l; [reflexivity|lra]).
  all: apply Qle_shift_div_r; [reflexivity|lra].
Qed.

Lemma clamp_bounds (hi x : Q) :
  (0 <= hi)%Q → (0 <= Qmaxb 0 (Qminb hi x) <= hi)%Q.
Proof.
  intros Hhi. unfold Qminb. destruct (Qltb_spec x hi); unfold Qmaxb.
  - destruct (Qltb_spec 0 x); split; lra.
  - destruct (Qltb_spec 0 hi); split; lra.
Qed.

Lemma inBounds_clamped width height (x y : Q) :
  0 <= width → 0 <= height →
  inBounds width height
    (Qmaxb 0 (Qminb (inject_Z width) x), Qmaxb 0 (Qminb (inject_Z height) y)).
Proof.
  intros Hw Hh.
  assert (0 <= inject_Z width)%Q by (change 0%Q with (inject_Z 0); by rewrite <- Zle_Qle).
  assert (0 <= inject_Z height)%Q by (change 0%Q with (inject_Z 0); by rewrite <- Zle_Qle).
  split; simpl; by apply clamp_bounds.
Qed.

Lemma addCorners_bounds width height st :
  0 <= width → 0 <= height →
  Forall (inBounds width height) (points st) →
  Forall (inBounds width height) (points (addCorners width height st)).
Proof.
  intros Hw Hh Hst. unfold addCorners. change 0%Q with (inject_Z 0).
  repeat (apply addPoint_Forall; [apply inBounds_integer; lia|]). done.
Qed.

Lemma addBorder_bounds step width height st :
  1 <= step → 0 <= width → 0 <= height →
  Forall (inBounds width height) (points st) →
  Forall (inBounds width height) (points (addBorder step width height st)).
Proof.
  intros Hstep Hw Hh Hst. unfold addBorder. change 0%Q with (inject_Z 0).
  edestruct (forUpTo_rule (λ _ st, Forall (inBounds width height) (points st))
               0 height step) as (_ & _ & _ & Hrows); [done| | |exact Hrows].
  - edestruct (forUpTo_rule (λ _ st, Forall (inBounds width height) (points st))
                 0 width step) as (_ & _ & _ & Hcols); [done| | |exact Hcols].
    + done.
    + intros j st' Hj Hst'.
      repeat (apply addPoint_Forall; [apply inBounds_integer; lia|]). done.
  - intros j st' Hj Hst'.
    repeat (apply addPoint_Forall; [apply inBounds_integer; lia|]). done.
Qed.

Lemma edgeThreshold_nonneg q : (q <= 5 # 4)%Q → (0 <= edgeThreshold q)%Q.
Proof. unfold edgeThreshold. lra. Qed.

Lemma processCell_bounds fuel q sobelData width height cx cy size depth st :
  0 <= width → 0 <= height → (q <= 5 # 4)%Q → 0 <= cx → 0 <= cy →
  Forall (inBounds width height) (points st.1) →
  Forall (inBounds width height)
    (points (processCell fuel q sobelData width height cx cy size depth st).1).
Proof.
  intros Hw Hh Hq. revert cx cy size depth st.
  assert (∀ cx cy size (st : Sampling), 0 <= cx → 0 <= cy →
    Forall (inBounds width height) (points st.1) →
    Forall (inBounds width height)
      (points
         (if Qltb (edgeThreshold q)
               (maxGrad (scanCell sobelData width height cx cy size))
          then (addPoint
                  (inject_Z (maxX (scanCell sobelData width height cx cy size)))
                  (inject_Z (maxY (scanCell sobelData width height cx cy size)))
                  st.1, st.2)
          else st).1)) as Hedge.
  { intros cx cy size st Hcx Hcy Hst.
    destruct (Qltb_spec (edgeThreshold q)
                (maxGrad (scanCell sobelData width height cx cy size)))
      as [Hlt|_]; [|done].
    simpl. apply addPoint_Forall; [|done].
    pose proof (edgeThreshold_nonneg q Hq).
    destruct (scanCell_location sobelData width height cx cy size) as [Hx Hy];
      [lra|].
    apply inBounds_integer; lia. }
  induction fuel as [|fuel IH]; intros cx cy size depth st Hcx Hcy Hst; simpl.
  - destruct (_ && _ && _); [done|].
    destruct (Qltb (edgeThreshold q) _) eqn:Hedge'.
    { specialize (Hedge cx cy size st Hcx Hcy Hst). by rewrite Hedge' in Hedge. }
    destruct (depth =? 0); [|done].
    destruct (Qltb (mathRandom st.2) (randomProb q)); [|done].
    simpl. apply addPoint_Forall; [by apply inBounds_clamped|done].
  - destruct (_ && _ && _) eqn:Hsplit.
    { assert (6 < size) as Hsize.
      { apply andb_true_iff in Hsplit as [_ ?]. lia. }
      assert (0 <= size / 2) by (apply Z.div_pos; lia).
      do 4 (apply IH; [lia|lia|]). done. }
    destruct (Qltb (edgeThreshold q) _) eqn:Hedge'.
    { specialize (Hedge cx cy size st Hcx Hcy Hst). by rewrite Hedge' in Hedge. }
    destruct (depth =? 0); [|done].
    destruct (Qltb (mathRandom st.2) (randomProb q)); [|done].
    simpl. apply addPoint_Forall; [by apply inBounds_clamped|done].
Qed.

Lemma processCells_bounds q sobelData width height (st : Sampling) :
  0 <= width → 0 <= height → (q <= 5 # 4)%Q →
  Forall (inBounds width height) (points st.1) →
  Forall (inBounds width height)
    (points (processCells q sobelData width height st).1).
Proof.
  intros Hw Hh Hq Hst. unfold processCells. cbv zeta.
  assert (1 <= baseCellSize q) as Hb by (unfold baseCellSize; lia).
  edestruct (forBelow_rule
               (λ _ (st : Sampling), Forall (inBounds width height) (points st.1))
               0 height (baseCellSize q)) as (_ & _ & _ & Hrows);
    [done| | |exact Hrows]; [done|].
  intros y st' Hy Hst'.
  edestruct (forBelow_rule
               (λ _ (st : Sampling), Forall (inBounds width height) (points st.1))
               0 width (baseCellSize q)) as (_ & _ & _ & Hcols);
    [done| | |exact Hcols]; [done|].
  intros x st'' Hx Hst''. apply processCell_bounds; try done; lia.
Qed.

Lemma refineTriangles_bounds width height trianglesData (st : Sampler * nat) :
  Forall (inBounds width height) (points st.1) →
  Forall (inBounds width height)
    (points (refineTriangles width height trianglesData st).1).
Proof.
  revert st.
  induction trianglesData as [| | |i1 i2 i3 rest IH] using triples_ind;
    intros st Hst; simpl; try done.
  apply IH.
  destruct (refineTriangle_cases width height i1 i2 i3 st)
    as [->|(p1 & p2 & p3 & H1 & H2 & H3 & _ & _ & -> & Hpts)]; [done|].
  simpl. rewrite Hpts. apply Forall_app. split; [done|].
  apply Forall_singleton.
  assert (∀ i (p : Point), points st.1 !! i = Some p → inBounds width height p)
    as Hin.
  { intros i p Hi. eapply (proj1 (Forall_forall _ _) Hst).
    by eapply list_elem_of_lookup_2. }
  destruct (longestEdgeMidpoint_longest p1 p2 p3) as [[-> _]|[[-> _]|[-> _]]];
    apply inBounds_midpoint; eauto.
Qed.

Lemma refineLoop_bounds passes width height r :
  Forall (inBounds width height) (points (refined r)) →
  Forall (inBounds width height)
    (points (refined (refineLoop passes width height r))).
Proof.
  revert r. induction passes as [|passes IH]; intros r Hr; simpl; [done|].
  unfold refinePass.
  pose proof (refineTriangles_bounds width height
                (delaunator (points (refined r))) (refined r, 0%nat) Hr) as Hpass.
  destruct (refineTriangles _ _ _ _) as [st' added]. simpl in Hpass.
  destruct (added =? 0)%nat; [done|]. by apply IH.
Qed.

(** Every point the pipeline produces lies in the rectangle
    [0, width] x [0, height] of the image, for every quality up to 125
    (above it the edge threshold [10 + (1 - q) * 40] would be negative). *)
Theorem processImage_points_in_bounds (quality : Q) (width height : Z)
    (blurredData : list Z) :
  0 <= width → 0 <= height → (quality <= 125)%Q →
  ∀ p : Point,
    p ∈ meshPoints (processImage quality width height blurredData) →
    (0 <= p.1 <= inject_Z width)%Q ∧ (0 <= p.2 <= inject_Z height)%Q.
Proof.
  intros Hw Hh Hq.
  assert (Forall (inBounds width height)
            (meshPoints (processImage quality width height blurredData))) as Hall.
  { assert (Forall (inBounds width height)
              (points (addCorners width height emptySampler))) as Hcorners
      by (by apply addCorners_bounds).
    unfold processImage. destruct (Qltb 0 quality); simpl; [|done].
    apply refineLoop_bounds. simpl.
    apply (processCells_bounds _ _ _ _ (_, 0%nat)); try done.
    - apply Qle_shift_div_r; [reflexivity|lra].
    - simpl. apply addBorder_bounds; try done. unfold borderStep. lia. }
  intros p Hp. by apply (proj1 (Forall_forall _ _) Hall).
Qed.

End BoundsProofs.

Lemma processImage_points_in_bounds_witness :
  (0 <= 3 # 2 <= inject_Z 3)%Q ∧ (0 <= 3 # 2 <= inject_Z 3)%Q.
Proof.
  apply (processImage_points_in_bounds (H := demoBuiltins) 50 3 3 demoImage3x3
           ltac:(lia) ltac:(lia) ltac:(by vm_compute) ((3 # 2)%Q, (3 # 2)%Q)).
  vm_compute. do 5 apply list_elem_of_further. apply list_elem_of_here.
Defined.

Example processImage_quality_above_125 :
  ((-1)%Q, (-1)%Q) ∈
    meshPoints (processImage (H := demoBuiltins) 130 12 12 (blankImage 12 12)).
Proof.
  vm_compute. do 8 apply list_elem_of_further. apply list_elem_of_here.
Qed.

Section CapProofs.
Context `{Builtins}.

(** A loop that adds at most [c] to a measure at every iteration adds at
    most [c] times the number of iterations. *)
Lemma forBelow_count {S : Type} (μ : S → Z) (c hi step : Z) body (st : S) :
  1 <= step → 0 <= hi → 0 <= c →
  (∀ j st, 0 <= j < hi → μ (body j st) <= μ st + c) →
  μ (forBelow 0 hi step body st) <= μ st + c * ((hi + step - 1) / step).
Proof.
  intros Hstep Hhi Hc Hbody.
  destruct (forBelow_rule
    (λ j st', ∃ k, 0 <= k ∧ j = k * step ∧ (k = 0 ∨ (k - 1) * step < hi) ∧
                   μ st' <= μ st + c * k)
    0 hi step body st Hstep) as (j & _ & _ & k & Hk & -> & Hlast & Hμ).
  - exists 0. lia.
  - intros j st' Hj (k & Hk & -> & _ & Hμ). exists (k + 1).
    specialize (Hbody _ st' Hj). split_and!; [lia|lia|right; lia|lia].
  - assert (k <= (hi + step - 1) / step).
    { apply Z.div_le_lower_bound; [lia|]. destruct Hlast; [subst; lia|lia]. }
    nia.
Qed.

Lemma processCell_appends fuel q sobelData width height cx cy size depth st :
  points st.1 `prefix_of`
    points (processCell fuel q sobelData width height cx cy size depth st).1.
Proof.
  apply (processCell_closed (λ st', points st.1 `prefix_of` points st'));
    [apply prefix_closed|done].
Qed.

Lemma addPoint_length x y st :
  (length (points (addPoint x y st)) <= S (length (points st)))%nat.
Proof.
  destruct (addPoint_cases x y st) as [[_ ->]|[_ ->]]; [lia|].
  simpl. rewrite length_app. simpl. lia.
Qed.

Lemma processCell_unfold fuel q sobelData width height cx cy size depth st :
  processCell fuel q sobelData width height cx cy size depth st =
  if cellSplits q sobelData width height cx cy size depth then
    match fuel with
    | O => st
    | S fuel' =>
        let half := size / 2 in
        let go := processCell fuel' q sobelData width height in
        go (cx + half) (cy + half) half (depth + 1)
          (go cx (cy + half) half (depth + 1)
             (go (cx + half) cy half (depth + 1)
                (go cx cy half (depth + 1) st)))
    end
  else cellLeaf q sobelData width height cx cy size depth st.
Proof. destruct fuel; reflexivity. Qed.

Lemma cellLeaf_cap q sobelData width height cx cy size depth (st : Sampling) :
  let st' := cellLeaf q sobelData width height cx cy size depth st in
  (length (points st'.1) <= length (points st.1) + 1)%nat ∧
  (st.2 <= st'.2 <= st.2 + 3)%nat ∧ (0 < depth → st'.2 = st.2).
Proof.
  unfold cellLeaf. cbv zeta.
  destruct (Qltb (edgeThreshold q) _).
  { cbn [fst snd].
    pose proof (addPoint_length
                  (inject_Z (maxX (scanCell sobelData width height cx cy size)))
                  (inject_Z (maxY (scanCell sobelData width height cx cy size)))
                  st.1).
    split_and!; lia. }
  destruct (Z.eqb_spec depth 0); [|split_and!; lia].
  destruct (Qltb (mathRandom st.2) (randomProb q)); cbn [fst snd];
    [|split_and!; lia].
  match goal with |- context [addPoint ?x ?y st.1] =>
    pose proof (addPoint_length x y st.1) end.
  split_and!; lia.
Qed.

(** A call of [processCell] stores at most one point per leaf of its
    subdivision, at most [4 ^ fuel] in all, and calls [Math.random] at most
    three times, and only for a cell of depth 0. *)
Lemma processCell_cap fuel q sobelData width height cx cy size depth st :
  0 <= depth →
  let st' := processCell fuel q sobelData width height cx cy size depth st in
  (length (points st'.1) <= length (points st.1) + 4 ^ fuel)%nat ∧
  (st.2 <= st'.2 <= st.2 + 3)%nat ∧
  (0 < depth → st'.2 = st.2).
Proof.
  revert cx cy size depth st.
  induction fuel as [|fuel IH]; intros cx cy size depth st Hdepth st';
    unfold st'; rewrite processCell_unfold.
  - destruct (cellSplits _ _ _ _ _ _ _ _); [cbn [fst snd]; split_and!; lia|].
    destruct (cellLeaf_cap q sobelData width height cx cy size depth st)
      as (? & ? & ?).
    change (4 ^ 0)%nat with 1%nat. split_and!; try lia; done.
  - destruct (cellSplits _ _ _ _ _ _ _ _).
    + cbv zeta. set (half := size / 2).
      set (s1 := processCell fuel q sobelData width height cx cy half (depth + 1) st).
      set (s2 := processCell fuel q sobelData width height (cx + half) cy half
                   (depth + 1) s1).
      set (s3 := processCell fuel q sobelData width height cx (cy + half) half
                   (depth + 1) s2).
      destruct (IH cx cy half (depth + 1) st ltac:(lia)) as (L1 & _ & D1).
      destruct (IH (cx + half) cy half (depth + 1) s1 ltac:(lia)) as (L2 & _ & D2).
      destruct (IH cx (cy + half) half (depth + 1) s2 ltac:(lia)) as (L3 & _ & D3).
      destruct (IH (cx + half) (cy + half) half (depth + 1) s3 ltac:(lia))
        as (L4 & _ & D4).
      fold s1 in L1, D1. fold s2 in L2, D2. fold s3 in L3, D3.
      rewrite D4, D3, D2, D1 by lia.
      change (4 ^ S fuel)%nat with (4 * 4 ^ fuel)%nat.
      split_and!; try lia; done.
    + destruct (cellLeaf_cap q sobelData width height cx cy size depth st)
        as (? & ? & ?).
      assert (1 <= 4 ^ S fuel)%nat.
      { change (4 ^ S fuel)%nat with (4 * 4 ^ fuel)%nat.
        assert (1 <= 4 ^ fuel)%nat by (clear; induction fuel; simpl; lia). lia. }
      split_and!; try lia; done.
Qed.

(** The density cap of the sampler: over the whole grid [processCells]
    only appends, stores at most 16 points per base cell and calls
    [Math.random] at most three times per base cell. *)
Theorem processCells_point_cap (q : Q) (sobelData : list Q)
    (width height : Z) (st : Sampling) :
  0 <= width → 0 <= height →
  let st' := processCells q sobelData width height st in
  let cols := (width + baseCellSize q - 1) / baseCellSize q in
  let rows := (height + baseCellSize q - 1) / baseCellSize q in
  points st.1 `prefix_of` points st'.1 ∧
  Z.of_nat (length (points st'.1)) <=
    Z.of_nat (length (points st.1)) + 16 * cols * rows ∧
  Z.of_nat st'.2 <= Z.of_nat st.2 + 3 * cols * rows.
Proof.
  intros Hw Hh st' cols rows.
  assert (1 <= baseCellSize q) as Hb by (unfold baseCellSize; lia).
  assert (0 <= cols) by (apply Z.div_pos; lia).
  split_and!.
  - apply (processCells_closed (λ s, points st.1 `prefix_of` points s) _ _ _ _ st);
      [apply prefix_closed|done].
  - unfold st', processCells. cbv zeta.
    etrans; [apply (forBelow_count (λ s : Sampling, Z.of_nat (length (points s.1)))
                      (16 * cols)); try done; try lia|fold rows; lia].
    intros y s Hy.
    etrans; [apply (forBelow_count (λ s : Sampling, Z.of_nat (length (points s.1)))
                      16); try done; try lia|fold cols; lia].
    intros x s' Hx.
    destruct (processCell_cap (Z.to_nat maxDepth) q sobelData width height
                x y (baseCellSize q) 0 s' ltac:(lia)) as (Hlen & _).
    change (4 ^ Z.to_nat maxDepth)%nat with 16%nat in Hlen. lia.
  - unfold st', processCells. cbv zeta.
    etrans; [apply (forBelow_count (λ s : Sampling, Z.of_nat s.2) (3 * cols));
               try done; try lia|fold rows; lia].
    intros y s Hy.
    etrans; [apply (forBelow_count (λ s : Sampling, Z.of_nat s.2) 3);
               try done; try lia|fold cols; lia].
    intros x s' Hx.
    destruct (processCell_cap (Z.to_nat maxDepth) q sobelData width height
                x y (baseCellSize q) 0 s' ltac:(lia)) as (_ & Hdraws & _).
    lia.
Qed.

End CapProofs.

Lemma processCells_point_cap_witness :
  let st := (addCorners 3 3 emptySampler, 0%nat) in
  Z.of_nat (length (points
    (processCells (H := demoBuiltins) (1 # 2)
       (sobelPass (H := demoBuiltins) demoImage3x3 3 3) 3 3 st).1)) <=
  Z.of_nat (length (points st.1)) +
  16 * ((3 + baseCellSize (1 # 2) - 1) / baseCellSize (1 # 2)) *
       ((3 + baseCellSize (1 # 2) - 1) / baseCellSize (1 # 2)).
Proof.
  intros st.
  apply (processCells_point_cap (H := demoBuiltins) (1 # 2)
           (sobelPass (H := demoBuiltins) demoImage3x3 3 3) 3 3 st); lia.
Defined.

Section DedupProofs.
Context `{Builtins}.

(** [addPoint] either appends the point, or drops it because a stored
    point has the same key, and such a point is less than 0.1 away on both
    axes: no point is dropped for a far-away one. *)
Theorem addPoint_drops_only_near_duplicates (x y : Q) (st : Sampler) :
  samplerInv st →
  ((pointKey x y ∉ pointsMap st) ∧
   points (addPoint x y st) = points st ++ [(x, y)]) ∨
  (points (addPoint x y st) = points st ∧
   ∃ p : Point, p ∈ points st ∧ pointKey p.1 p.2 = pointKey x y ∧
     (Qabs (p.1 - x) < 1 # 10)%Q ∧ (Qabs (p.2 - y) < 1 # 10)%Q).
Proof.
  intros [_ Hkeys].
  destruct (addPoint_cases x y st) as [[Hin ->]|[Hnin ->]]; [right|by left].
  split; [done|].
  apply Hkeys in Hin. apply list_elem_of_fmap in Hin as (p & Hp & Hpin).
  exists p. unfold keyOf in Hp. symmetry in Hp. split_and!; [done|done|..];
    by apply pointKey_close in Hp as [??].
Qed.

(** Inserting is idempotent and never forgets: after [addPoint] the key of
    the point is in the key set, every earlier key and point is kept, and
    inserting the same point again changes nothing. *)
Theorem addPoint_idempotent (x y : Q) (st : Sampler) :
  pointKey x y ∈ pointsMap (addPoint x y st) ∧
  pointsMap st ⊆ pointsMap (addPoint x y st) ∧
  points st `prefix_of` points (addPoint x y st) ∧
  addPoint x y (addPoint x y st) = addPoint x y st.
Proof.
  split_and!.
  - apply addPoint_key_stored.
  - destruct (addPoint_cases x y st) as [[_ ->]|[_ ->]]; [done|].
    simpl. apply union_subseteq_r.
  - apply addPoint_prefix.
  - apply addPoint_duplicate, addPoint_key_stored.
Qed.

Lemma refineTriangles_midpoints width height trianglesData (st : Sampler * nat) :
  let st' := refineTriangles width height trianglesData st in
  ∃ appended,
    points st'.1 = points st.1 ++ appended ∧
    st'.2 = (st.2 + length appended)%nat ∧
    (3 * length appended <= length trianglesData)%nat ∧
    Forall (λ mid : Point, ∃ pa pb : Point,
              pa ∈ points st'.1 ∧ pb ∈ points st'.1 ∧ mid = midpoint pa pb)
      appended.
Proof.
  revert st.
  induction trianglesData as [| | |i1 i2 i3 rest IH] using triples_ind;
    intros st st';
    try (exists []; rewrite app_nil_r, Nat.add_0_r;
         split_and!; [done|done|simpl; lia|constructor]).
  unfold st'. cbn [refineTriangles].
  set (st1 := refineTriangle width height i1 i2 i3 st).
  destruct (IH st1) as (more & Hpts & Hn & Hlen & Hmid).
  set (st2 := refineTriangles width height rest st1) in *.
  destruct (refineTriangle_cases width height i1 i2 i3 st)
    as [Heq|(p1 & p2 & p3 & H1 & H2 & H3 & _ & _ & Heq & Hpts')];
    fold st1 in Heq.
  - exists more. rewrite Heq in Hpts, Hn.
    split_and!; [done|done|simpl length; lia|done].
  - set (mid := longestEdgeMidpoint (measure p1 p2 p3) p1 p2 p3) in *.
    rewrite Heq in Hpts, Hn. cbn [fst snd] in Hpts, Hn.
    exists (mid :: more).
    split_and!; [by rewrite Hpts, Hpts', <- app_assoc|simpl length; lia
                |simpl length; lia|].
    constructor; [|done].
    assert (∀ i (p : Point), points st.1 !! i = Some p → p ∈ points st2.1) as Hin.
    { intros i p Hi. rewrite Hpts, Hpts'. apply elem_of_app. left.
      apply elem_of_app. left. by eapply list_elem_of_lookup_2. }
    destruct (longestEdgeMidpoint_longest p1 p2 p3) as [[Hm _]|[[Hm _]|[Hm _]]];
      fold mid in Hm.
    + exists p1, p2. split_and!; [by eapply Hin|by eapply Hin|done].
    + exists p2, p3. split_and!; [by eapply Hin|by eapply Hin|done].
    + exists p3, p1. split_and!; [by eapply Hin|by eapply Hin|done].
Qed.

(** A refinement pass appends at most one point per triangle of the
    triangulation; the counter [added] is the number of points appended,
    each of them is the midpoint of two points of the list, and no two
    points of the list share a key afterwards. *)
Theorem refinePass_appends_midpoints (width height : Z) (st : Sampler) :
  samplerInv st →
  let st' := (refinePass width height st).1 in
  let added := (refinePass width height st).2 in
  ∃ appended,
    points st' = points st ++ appended ∧
    added = length appended ∧
    (3 * added <= length (delaunator (points st)))%nat ∧
    Forall (λ mid : Point, ∃ pa pb : Point,
              pa ∈ points st' ∧ pb ∈ points st' ∧ mid = midpoint pa pb)
      appended ∧
    samplerInv st'.
Proof.
  intros Hinv st' added. unfold st', added, refinePass.
  destruct (refineTriangles_midpoints width height (delaunator (points st))
              (st, 0%nat)) as (appended & Hpts & Hn & Hlen & Hmid).
  exists appended. simpl in *. split_and!; try done; [lia|].
  by apply (refinePass_closed samplerInv _ _ _ samplerInv_addPoint).
Qed.

End DedupProofs.

Lemma addPoint_drops_only_near_duplicates_witness :
  ((pointKey (26 # 25) (26 # 25) ∉
      pointsMap (addPoint (24 # 25) (24 # 25) emptySampler)) ∧
   points (addPoint (26 # 25) (26 # 25) (addPoint (24 # 25) (24 # 25) emptySampler)) =
     points (addPoint (24 # 25) (24 # 25) emptySampler) ++
     [((26 # 25)%Q, (26 # 25)%Q)]) ∨
  (points (addPoint (26 # 25) (26 # 25) (addPoint (24 # 25) (24 # 25) emptySampler)) =
     points (addPoint (24 # 25) (24 # 25) emptySampler) ∧
   ∃ p : Point, p ∈ points (addPoint (24 # 25) (24 # 25) emptySampler) ∧
     pointKey p.1 p.2 = pointKey (26 # 25) (26 # 25) ∧
     (Qabs (p.1 - (26 # 25)) < 1 # 10)%Q ∧ (Qabs (p.2 - (26 # 25)) < 1 # 10)%Q).
Proof.
  apply (addPoint_drops_only_near_duplicates (26 # 25) (26 # 25)
           (addPoint (24 # 25) (24 # 25) emptySampler)).
  apply samplerInv_addPoint, samplerInv_empty.
Defined.

Lemma refinePass_appends_midpoints_witness :
  ∃ appended,
    points (refinePass (H := demoBuiltins) 3 3 (addCorners 3 3 emptySampler)).1 =
      points (addCorners 3 3 emptySampler) ++ appended ∧
    (refinePass (H := demoBuiltins) 3 3 (addCorners 3 3 emptySampler)).2 =
      length appended.
Proof.
  destruct (refinePass_appends_midpoints (H := demoBuiltins) 3 3
              (addCorners 3 3 emptySampler)
              (addCorners_closed samplerInv 3 3 emptySampler
                 samplerInv_addPoint samplerInv_empty))
    as (appended & Hpts & Hn & _).
  exists appended. split; [exact Hpts|exact Hn].
Defined.

Section TriangulationProofs.
Context `{Builtins}.
Import ColorSampler.

Lemma channel_median (data : list Z) width height (p1 p2 p3 : Point) (k : Z) :
  1 <= width → 1 <= height → pixelBuffer width height data → 0 <= k <= 2 →
  ∃ v, mjoin (sortNumbers ((λ idx, readByte data (idx + k)) <$>
                 (sampleIdx width height <$> samples p1 p2 p3)) !! 2%nat) = Some v ∧
       0 <= v <= 255.
Proof.
  intros Hw Hh [Hlen Hrange] Hk.
  pose proof (sample_indices_in_range p1 p2 p3 data width height k
                Hw Hh Hk Hlen) as Hall.
  apply median_of_reads in Hall; [|by rewrite length_fmap].
  destruct Hall as (vs & v & _ & Hv & _ & _ & Hin).
  rewrite <- list_fmap_compose in Hv. unfold compose in Hv.
  exists v. split; [by rewrite <- list_fmap_compose|].
  by apply (proj1 (Forall_forall _ _) Hrange).
Qed.

(** With a buffer of the size of the image the colour text of a triangle
    is [rgb(r,g,b)] for three channel values in [0,255]. *)
Lemma rgbText_valid (data : list Z) width height (p1 p2 p3 : Point) :
  1 <= width → 1 <= height → pixelBuffer width height data →
  ∃ vr vg vb : Z,
    0 <= vr <= 255 ∧ 0 <= vg <= 255 ∧ 0 <= vb <= 255 ∧
    rgbText (getMedianColor p1 p2 p3 data width height) =
      "rgb(" +:+ pretty vr +:+ "," +:+ pretty vg +:+ "," +:+ pretty vb +:+ ")".
Proof.
  intros Hw Hh Hbuf.
  destruct (channel_median data width height p1 p2 p3 0 Hw Hh Hbuf ltac:(lia))
    as (vr & Hr & ?).
  destruct (channel_median data width height p1 p2 p3 1 Hw Hh Hbuf ltac:(lia))
    as (vg & Hg & ?).
  destruct (channel_median data width height p1 p2 p3 2 Hw Hh Hbuf ltac:(lia))
    as (vb & Hb & ?).
  exists vr, vg, vb. split_and!; try lia.
  assert (r (getMedianColor p1 p2 p3 data width height) = Some vr) as Er.
  { unfold getMedianColor. cbn [r]. rewrite <- Hr. do 3 f_equal.
    apply list_fmap_ext. intros ???. f_equal. lia. }
  assert (g (getMedianColor p1 p2 p3 data width height) = Some vg) as Eg
    by (unfold getMedianColor; cbn [g]; exact Hg).
  assert (b (getMedianColor p1 p2 p3 data width height) = Some vb) as Eb
    by (unfold getMedianColor; cbn [b]; exact Hb).
  unfold rgbText. by rewrite Er, Eg, Eb.
Qed.

Lemma colorTriangles_spec (pts : list Point) (data : list Z) width height
    (trianglesData : list nat) :
  (3 * length (colorTriangles pts data width height trianglesData) <=
     length trianglesData)%nat ∧
  Forall (λ t, ∃ p1 p2 p3 : Point,
            p1 ∈ pts ∧ p2 ∈ pts ∧ p3 ∈ pts ∧
            Sequencer.points t = (p1, p2, p3) ∧
            Sequencer.color t = rgbText (getMedianColor p1 p2 p3 data width height) ∧
            Sequencer.center t =
              (inject_Z (Qfloor ((p1.1 + p2.1 + p3.1) / 3)%Q),
               inject_Z (Qfloor ((p1.2 + p2.2 + p3.2) / 3)%Q)))
    (colorTriangles pts data width height trianglesData).
Proof.
  induction trianglesData as [| | |i1 i2 i3 rest [IHlen IH]] using triples_ind;
    try (split; [simpl; lia|constructor]).
  cbn [colorTriangles].
  destruct (pts !! i1) as [p1|] eqn:H1; [|split; [simpl length; lia|done]].
  destruct (pts !! i2) as [p2|] eqn:H2; [|split; [simpl length; lia|done]].
  destruct (pts !! i3) as [p3|] eqn:H3; [|split; [simpl length; lia|done]].
  split; [simpl length; lia|]. constructor; [|done].
  exists p1, p2, p3.
  split_and!; try done; by eapply list_elem_of_lookup_2.
Qed.

(** When every index names a point, no group of three is skipped. *)
Lemma colorTriangles_length (pts : list Point) (data : list Z) width height
    (trianglesData : list nat) :
  Forall (λ i, i < length pts)%nat trianglesData →
  length (colorTriangles pts data width height trianglesData) =
    (length trianglesData / 3)%nat.
Proof.
  induction trianglesData as [| | |i1 i2 i3 rest IH] using triples_ind;
    intros Hall; try reflexivity.
  apply Forall_cons in Hall as [L1 Hall]. apply Forall_cons in Hall as [L2 Hall].
  apply Forall_cons in Hall as [L3 Hall].
  cbn [colorTriangles].
  destruct (lookup_lt_is_Some_2 pts i1 L1) as [p1 ->].
  destruct (lookup_lt_is_Some_2 pts i2 L2) as [p2 ->].
  destruct (lookup_lt_is_Some_2 pts i3 L3) as [p3 ->].
  simpl length. rewrite (IH Hall).
  change (S (S (S (length rest)))) with (1 * 3 + length rest)%nat.
  by rewrite Nat.div_add_l by lia.
Qed.

Lemma shuffleIndex_range (i draws : nat) :
  (∀ n, 0 <= mathRandom n < 1)%Q →
  0 <= shuffleIndex i draws <= Z.of_nat i.
Proof.
  intros Hrandom. unfold shuffleIndex.
  destruct (Hrandom draws) as [H0 H1].
  assert (0 <= inject_Z (Z.of_nat i + 1))%Q as Hi
    by (change 0%Q with (inject_Z 0); rewrite <- Zle_Qle; lia).
  split.
  - apply (Qfloor_resp_le 0). by apply Qmult_le_0_compat.
  - assert (Qfloor (mathRandom draws * inject_Z (Z.of_nat i + 1)) < Z.of_nat i + 1);
      [|lia].
    rewrite Zlt_Qlt. eapply Qle_lt_trans; [apply Qfloor_le|].
    assert (0 < inject_Z (Z.of_nat i + 1))%Q
      by (change 0%Q with (inject_Z 0); rewrite <- Zlt_Qlt; lia).
    nra.
Qed.

Lemma swapAt_perm {A} (i j : nat) (arr : list A) : swapAt i j arr ≡ₚ arr.
Proof.
  unfold swapAt.
  destruct (arr !! i) as [a|] eqn:Hi; [|done].
  destruct (arr !! j) as [b|] eqn:Hj; [|done].
  by apply Permutation_insert_swap.
Qed.

Lemma shuffleFrom_perm {A} (i draws : nat) (arr : list A) :
  shuffleFrom i draws arr ≡ₚ arr.
Proof.
  revert draws arr. induction i as [|i IH]; intros draws arr; simpl; [done|].
  rewrite IH. unfold shuffleStep. cbv zeta.
  destruct (_ <? 0); [done|apply swapAt_perm].
Qed.

(** The shuffle is a Fisher-Yates shuffle: with [Math.random] in [0, 1)
    the index drawn at step [i] is one of [0 .. i], so every step swaps two
    entries of the array, and the result is a permutation of the array. *)
Theorem shuffle_is_permutation {A} (draws : nat) (arr : list A) :
  (∀ n, 0 <= mathRandom n < 1)%Q →
  (∀ i d, (i < length arr)%nat →
     0 <= shuffleIndex i d ∧ (Z.to_nat (shuffleIndex i d) <= i < length arr)%nat) ∧
  shuffle draws arr ≡ₚ arr ∧
  length (shuffle draws arr) = length arr.
Proof.
  intros Hrandom. split_and!.
  - intros i d Hi. pose proof (shuffleIndex_range i d Hrandom). lia.
  - apply shuffleFrom_perm.
  - apply Permutation_length, shuffleFrom_perm.
Qed.

(** Every triangle [runTriangulation] hands to the animation has its three
    vertices among the points, carries the colour text [rgb(r,g,b)] of
    three channel values in [0,255], and the floored centroid as centre;
    there is at most one triangle per three indices of the
    triangulation. *)
Theorem runTriangulation_triangles (pts : list Point) (data : list Z)
    (width height : Z) (draws : nat) :
  (∀ n, 0 <= mathRandom n < 1)%Q →
  1 <= width → 1 <= height → pixelBuffer width height data →
  let triangles := runTriangulation pts data width height draws in
  triangles ≡ₚ colorTriangles pts data width height (delaunator pts) ∧
  (3 * length triangles <= length (delaunator pts))%nat ∧
  ∀ t, t ∈ triangles →
    ∃ (p1 p2 p3 : Point) (vr vg vb : Z),
      p1 ∈ pts ∧ p2 ∈ pts ∧ p3 ∈ pts ∧
      Sequencer.points t = (p1, p2, p3) ∧
      0 <= vr <= 255 ∧ 0 <= vg <= 255 ∧ 0 <= vb <= 255 ∧
      Sequencer.color t =
        "rgb(" +:+ pretty vr +:+ "," +:+ pretty vg +:+ "," +:+ pretty vb +:+ ")" ∧
      Sequencer.center t =
        (inject_Z (Qfloor ((p1.1 + p2.1 + p3.1) / 3)%Q),
         inject_Z (Qfloor ((p1.2 + p2.2 + p3.2) / 3)%Q)).
Proof.
  intros Hrandom Hw Hh Hbuf triangles.
  assert (triangles ≡ₚ colorTriangles pts data width height (delaunator pts))
    as Hperm by apply shuffleFrom_perm.
  destruct (colorTriangles_spec pts data width height (delaunator pts))
    as [Hlen Hall].
  split_and!; [done|by rewrite (Permutation_length Hperm)|].
  intros t Ht. rewrite Hperm in Ht.
  destruct (proj1 (Forall_forall _ _) Hall t Ht)
    as (p1 & p2 & p3 & ? & ? & ? & ? & Hcolor & ?).
  destruct (rgbText_valid data width height p1 p2 p3 Hw Hh Hbuf)
    as (vr & vg & vb & ? & ? & ? & Hrgb).
  exists p1, p2, p3, vr, vg, vb. rewrite Hcolor, Hrgb. split_and!; try lia; done.
Qed.

End TriangulationProofs.

Lemma shuffle_is_permutation_witness :
  shuffle (H := demoBuiltins) 0 [1; 2; 3; 4] ≡ₚ [1; 2; 3; 4].
Proof.
  apply (shuffle_is_permutation (H := demoBuiltins) 0 [1; 2; 3; 4]).
  intros n. simpl. split; [discriminate|reflexivity].
Defined.

Lemma runTriangulation_triangles_witness :
  (3 * length (runTriangulation (H := demoBuiltins) (corners 2 2) demoImage2x2 2 2 0)
   <= length (delaunator (Builtins := demoBuiltins) (corners 2 2)))%nat.
Proof.
  assert (∀ n : nat, (0 <= mathRandom (Builtins := demoBuiltins) n < 1)%Q) as Hrandom
    by (intros n; simpl; split; [discriminate|reflexivity]).
  assert (pixelBuffer 2 2 demoImage2x2) as Hbuf.
  { split; [reflexivity|].
    unfold demoImage2x2. repeat (constructor; [lia|]). constructor. }
  destruct (runTriangulation_triangles (H := demoBuiltins) (corners 2 2)
              demoImage2x2 2 2 0 Hrandom ltac:(lia) ltac:(lia) Hbuf)
    as (_ & Hlen & _).
  exact Hlen.
Defined.

Example runTriangulation_demo :
  runTriangulation (H := demoBuiltins) (corners 2 2) demoImage2x2 2 2 0 =
    [ {| Sequencer.points := ((0, 0), (2, 0), (0, 2))%Q;
         Sequencer.color := "rgb(10,20,30)";
         Sequencer.center := (0, 0)%Q |} ].
Proof. by vm_compute. Qed.

Section AnimationProofs.
Import Sequencer.

(** The branch [animate] takes is the phase of the elapsed time; only the
    last branch returns without requesting a frame. *)
Lemma animate_phaseAt (sc : Scene) (st : option Q) (timestamp : Q) :
  status (animate sc st timestamp) = phaseAt sc (timestamp - latch st timestamp) ∧
  requested (animate sc st timestamp) =
    negb (bool_decide (phaseIndex (status (animate sc st timestamp)) = 6%nat)).
Proof.
  unfold animate, phaseAt. cbv zeta.
  repeat (destruct (Qltb _ _); [done|]). done.
Qed.

Lemma phaseAt_cases (sc : Scene) (e : Q) :
  (0 < animationSpeed sc)%Q →
  let c1 := PHASE_IMAGE sc in
  let c2 := (c1 + PHASE_SOBEL sc)%Q in
  let c3 := (c2 + PHASE_POINTS sc)%Q in
  let c4 := (c3 + PHASE_LINES sc)%Q in
  let c5 := (c4 + PHASE_COLORS sc)%Q in
  let c6 := (c5 + PHASE_FADE_EDGES sc)%Q in
  (0 < c1 < c2)%Q ∧ (c2 < c3 < c4)%Q ∧ (c4 < c5 < c6)%Q ∧
  (((e < c1)%Q ∧ phaseAt sc e = SourceImage) ∨
   ((c1 <= e < c2)%Q ∧ phaseAt sc e = EdgeVisualization) ∨
   ((c2 <= e < c3)%Q ∧ phaseAt sc e = PointCloud) ∨
   ((c3 <= e < c4)%Q ∧ phaseAt sc e = Wireframe) ∨
   ((c4 <= e < c5)%Q ∧ phaseAt sc e = ColorFill) ∨
   ((c5 <= e < c6)%Q ∧ phaseAt sc e = EdgeFadeOut) ∨
   ((c6 <= e)%Q ∧ phaseAt sc e = Complete)).
Proof.
  intros Hspeed c1 c2 c3 c4 c5 c6.
  destruct (phases_positive sc Hspeed) as (H1 & H2 & H3 & H4 & H5 & H6).
  split_and!; try (unfold c6, c5, c4, c3, c2, c1; lra).
  unfold phaseAt, totalDuration. fold c1. fold c2. fold c3. fold c4. fold c5. fold c6.
  destruct (Qltb_spec e c1); [left; split; [lra|done]|right].
  destruct (Qltb_spec e c2); [left; split; [lra|done]|right].
  destruct (Qltb_spec e c3); [left; split; [lra|done]|right].
  destruct (Qltb_spec e c4); [left; split; [lra|done]|right].
  destruct (Qltb_spec e c5); [left; split; [lra|done]|right].
  destruct (Qltb_spec e c6); [left; split; [lra|done]|right].
  split; [lra|done].
Qed.

(** The transition rule of the sequencer: for a positive speed each phase
    is active exactly while the elapsed time is inside its window, the
    windows follow one another without gap from 0 to the total duration,
    and a frame is requested exactly when the phase is not the last. *)
Theorem animate_phase_windows (sc : Scene) (st : option Q) (timestamp : Q) :
  (0 < animationSpeed sc)%Q →
  let f := animate sc st timestamp in
  let e := (timestamp - latch st timestamp)%Q in
  let c1 := PHASE_IMAGE sc in
  let c2 := (c1 + PHASE_SOBEL sc)%Q in
  let c3 := (c2 + PHASE_POINTS sc)%Q in
  let c4 := (c3 + PHASE_LINES sc)%Q in
  let c5 := (c4 + PHASE_COLORS sc)%Q in
  (status f = SourceImage ↔ (e < c1)%Q) ∧
  (status f = EdgeVisualization ↔ (c1 <= e < c2)%Q) ∧
  (status f = PointCloud ↔ (c2 <= e < c3)%Q) ∧
  (status f = Wireframe ↔ (c3 <= e < c4)%Q) ∧
  (status f = ColorFill ↔ (c4 <= e < c5)%Q) ∧
  (status f = EdgeFadeOut ↔ (c5 <= e < totalDuration sc)%Q) ∧
  (status f = Complete ↔ (totalDuration sc <= e)%Q) ∧
  (requested f = true ↔ status f ≠ Complete).
Proof.
  intros Hspeed f e c1 c2 c3 c4 c5.
  destruct (animate_phaseAt sc st timestamp) as [Hstatus Hreq].
  fold f e in Hstatus, Hreq.
  destruct (phaseAt_cases sc e Hspeed) as (O1 & O2 & O3 & Hcases).
  fold c1 c2 c3 c4 c5 in O1, O2, O3, Hcases.
  unfold totalDuration. fold c1. fold c2. fold c3. fold c4. fold c5.
  rewrite Hreq, Hstatus.
  destruct Hcases as [[W E]|[[W E]|[[W E]|[[W E]|[[W E]|[[W E]|[W E]]]]]]];
    rewrite E; simpl; split_and!; split; intros; try done; try lra.
Qed.

Lemma phaseAt_monotone (sc : Scene) (e e' : Q) :
  (0 < animationSpeed sc)%Q → (e <= e')%Q →
  (phaseIndex (phaseAt sc e) <= phaseIndex (phaseAt sc e'))%nat.
Proof.
  intros Hspeed Hle.
  destruct (phaseAt_cases sc e Hspeed) as (O1 & O2 & O3 & Hc).
  destruct (phaseAt_cases sc e' Hspeed) as (_ & _ & _ & Hc').
  destruct Hc as [[W E]|[[W E]|[[W E]|[[W E]|[[W E]|[[W E]|[W E]]]]]]];
    destruct Hc' as [[W' E']|[[W' E']|[[W' E']|[[W' E']|[[W' E']|[[W' E']|[W' E']]]]]]];
    rewrite E, E'; simpl; try lia; exfalso; lra.
Qed.

(** Between two ticks of a playback the elapsed time does not decrease,
    also across the re-latching of a start time of 0. *)
Lemma elapsed_monotone (st : option Q) (t t' : Q) :
  (t <= t')%Q →
  (t - latch st t <= t' - latch (Some (latch st t)) t')%Q.
Proof.
  intros Hle. unfold latch.
  destruct st as [t0|].
  - destruct (Qeq_bool t0 0) eqn:H0.
    + destruct (Qeq_bool t 0); lra.
    + rewrite H0. lra.
  - destruct (Qeq_bool t 0); lra.
Qed.

(** A playback visits the phases in their fixed order: over timestamps
    that do not decrease the phase never goes back, every frame but the
    last requested its successor and is not the final one, and there is at
    most one frame per timestamp. *)
Theorem play_phases_in_order (sc : Scene) (st : option Q) (timestamps : list Q) :
  (0 < animationSpeed sc)%Q →
  Sorted Qle timestamps →
  let frames := play sc st timestamps in
  Sorted (λ f f', phaseIndex (status f) <= phaseIndex (status f'))%nat frames ∧
  (∀ i f, frames !! i = Some f → (S i < length frames)%nat →
     requested f = true ∧ status f ≠ Complete) ∧
  (length frames <= length timestamps)%nat.
Proof.
  intros Hspeed Hsorted. revert st.
  induction Hsorted as [|t rest Hrest IH Hhd]; intros st; simpl.
  { split_and!; [apply Sorted_nil|intros i f Hf; by rewrite lookup_nil in Hf|done]. }
  destruct (animate_phaseAt sc st t) as [Hstatus Hreq].
  destruct (requested (animate sc st t)) eqn:Hrequested.
  - destruct (IH (startTime (animate sc st t))) as (Hs & Hbefore & Hlen).
    assert (startTime (animate sc st t) = Some (latch st t)) as Hstart.
    { unfold animate. cbv zeta. repeat (destruct (Qltb _ _); [done|]). done. }
    split_and!.
    + constructor; [done|].
      destruct rest as [|t' rest']; simpl; [constructor|].
      constructor. rewrite Hstart.
      destruct (animate_phaseAt sc (Some (latch st t)) t') as [-> _].
      rewrite Hstatus. apply phaseAt_monotone; [done|].
      apply elapsed_monotone. by inversion Hhd.
    + intros [|i] f Hf Hi; simpl in *.
      * injection Hf as <-. split; [done|].
        intros Hc. rewrite Hc in Hreq. simpl in Hreq. congruence.
      * apply (Hbefore i f Hf). lia.
    + simpl. lia.
  - split_and!; [repeat constructor| |simpl; lia].
    intros [|i] f Hf Hi; simpl in *; lia.
Qed.

Lemma cube_unit (a : Q) : (0 <= a <= 1)%Q → (0 <= a ^ 3 <= 1)%Q.
Proof.
  intros Ha. change (a ^ 3)%Q with (a * (a * a))%Q.
  assert (0 <= a * a <= 1)%Q by nra. nra.
Qed.

Lemma cube_monotone (a a' : Q) : (0 <= a <= a')%Q → (a ^ 3 <= a' ^ 3)%Q.
Proof.
  intros Ha. change (a ^ 3)%Q with (a * (a * a))%Q.
  change (a' ^ 3)%Q with (a' * (a' * a'))%Q.
  assert (0 <= a * a <= a' * a')%Q by nra. nra.
Qed.

Lemma easedProgress_unit (p : Q) :
  (0 <= p <= 1)%Q → (0 <= easedProgress p <= 1)%Q.
Proof.
  intros Hp. unfold easedProgress.
  pose proof (cube_unit (1 - p) ltac:(lra)). lra.
Qed.

Lemma scaled_count_range (fraction : Q) (n : nat) :
  (0 <= fraction <= 1)%Q →
  0 <= Qfloor (fraction * inject_Z (Z.of_nat n)) <= Z.of_nat n.
Proof.
  intros [Hf0 Hf1].
  assert (0 <= inject_Z (Z.of_nat n))%Q as Hn
    by (change 0%Q with (inject_Z 0); rewrite <- Zle_Qle; lia).
  split.
  - apply (Qfloor_resp_le 0). by apply Qmult_le_0_compat.
  - rewrite <- (Qfloor_Z (Z.of_nat n)) at 2. apply Qfloor_resp_le. nra.
Qed.

(** The eased reveal: for a progress in [0,1] the count
    [floor((1 - (1 - progress)^3) * total)] lies between 0 and [total], is
    0 at progress 0 and [total] at progress 1, and never decreases when
    the progress grows. *)
Theorem revealCount_bounds (progress : Q) (total : nat) :
  (0 <= progress <= 1)%Q →
  0 <= revealCount progress total <= Z.of_nat total ∧
  revealCount 0 total = 0 ∧
  revealCount 1 total = Z.of_nat total ∧
  ∀ progress', (progress <= progress' <= 1)%Q →
    revealCount progress total <= revealCount progress' total.
Proof.
  intros Hp.
  assert (0 <= inject_Z (Z.of_nat total))%Q as Htotal
    by (change 0%Q with (inject_Z 0); rewrite <- Zle_Qle; lia).
  unfold revealCount. split_and!.
  - by apply scaled_count_range, easedProgress_unit.
  - by apply scaled_count_range, easedProgress_unit.
  - by destruct total.
  - rewrite <- (Qfloor_Z (Z.of_nat total)) at 2. apply Qfloor_comp.
    unfold easedProgress. change ((1 - 1) ^ 3)%Q with ((1 - 1) * ((1 - 1) * (1 - 1)))%Q.
    ring.
  - intros p' Hp'. apply Qfloor_resp_le.
    apply Qmult_le_compat_r; [|done]. unfold easedProgress.
    pose proof (cube_monotone (1 - p') (1 - progress) ltac:(lra)). lra.
Qed.

(** The reveal loops stay inside their arrays: in the point, wireframe and
    fill phases the number of points or triangles revealed is the floor of
    a fraction in [0,1] of their number, so it is at most that number, and
    the loops draw exactly that many leading entries. *)
Theorem animate_reveals_within_arrays (sc : Scene) (st : option Q)
    (timestamp : Q) :
  (0 < animationSpeed sc)%Q →
  let f := animate sc st timestamp in
  let total := length (triangles sc) in
  (status f = PointCloud →
     ∃ p n before,
       progress f = Some p ∧
       n = Qfloor (p * inject_Z (Z.of_nat (length (featurePoints sc)))) ∧
       0 <= n <= Z.of_nat (length (featurePoints sc)) ∧
       commands f =
         before ++
         flat_map (λ p : Point, [ BeginPath; Arc p.1 p.2 1; Fill ])
           (take (Z.to_nat n) (featurePoints sc))) ∧
  (status f = Wireframe →
     ∃ p before,
       progress f = Some p ∧
       0 <= revealCount p total <= Z.of_nat total ∧
       commands f =
         before ++
         flat_map (λ t, drawTrianglePath t ++ [ Stroke ])
           (take (Z.to_nat (revealCount p total)) (triangles sc))) ∧
  (status f = ColorFill →
     ∃ p before,
       progress f = Some p ∧
       0 <= revealCount p total <= Z.of_nat total ∧
       commands f =
         before ++
         mjoin (imap (λ i t,
                  drawTrianglePath t ++
                  (if Z.of_nat i <? revealCount p total
                   then [ SetFillStyle (Css (color t)); Fill;
                          SetStrokeStyle (Rgba 255 255 255 ((1 # 10) * (1 - p))) ]
                   else [ SetStrokeStyle (Rgba 0 255 204 (3 # 10)) ]) ++
                  [ SetLineWidth (1 # 2); Stroke ])
                (triangles sc))).
Proof.
  intros Hspeed f total.
  destruct (phases_positive sc Hspeed) as (H1 & H2 & H3 & H4 & H5 & H6).
  unfold f, animate. cbv zeta. unfold totalDuration.
  set (e := (timestamp - latch st timestamp)%Q).
  destruct (Qltb_spec e (PHASE_IMAGE sc)) as [|G1]; [by split_and!|].
  destruct (Qltb_spec e (PHASE_IMAGE sc + PHASE_SOBEL sc)) as [|G2];
    [by split_and!|].
  destruct (Qltb_spec e (PHASE_IMAGE sc + PHASE_SOBEL sc + PHASE_POINTS sc))
    as [|G3].
  { split_and!; [|done..]. intros _. cbn [progress commands].
    eexists _, _, _. split_and!; [reflexivity|reflexivity|..].
    - apply scaled_count_range, Qminb_progress; [lra|done].
    - apply scaled_count_range, Qminb_progress; [lra|done].
    - rewrite !app_comm_cons, !app_assoc. reflexivity. }
  destruct (Qltb_spec e
              (PHASE_IMAGE sc + PHASE_SOBEL sc + PHASE_POINTS sc + PHASE_LINES sc))
    as [|G4].
  { split_and!; [done| |done]. intros _. cbn [progress commands].
    eexists _, _. split_and!; [reflexivity|..].
    - apply scaled_count_range, easedProgress_unit, Qminb_progress; [lra|done].
    - apply scaled_count_range, easedProgress_unit, Qminb_progress; [lra|done].
    - rewrite !app_comm_cons, !app_assoc. reflexivity. }
  destruct (Qltb_spec e
              (PHASE_IMAGE sc + PHASE_SOBEL sc + PHASE_POINTS sc + PHASE_LINES sc +
               PHASE_COLORS sc)) as [|G5].
  { split_and!; [done|done|]. intros _. cbn [progress commands].
    eexists _, _. split_and!; [reflexivity|..].
    - apply scaled_count_range, easedProgress_unit, Qminb_progress; [lra|done].
    - apply scaled_count_range, easedProgress_unit, Qminb_progress; [lra|done].
    - rewrite !app_comm_cons, !app_assoc. reflexivity. }
  destruct (Qltb _ _); by split_and!.
Qed.

End AnimationProofs.

Section FlatImageProofs.
Context `{Builtins}.

Lemma scanCell_flat (sobelData : list Q) (width height cx cy size : Z) :
  (∀ v, v ∈ sobelData → (v <= 0)%Q) →
  scanCell sobelData width height cx cy size =
    {| maxGrad := 0; maxX := -1; maxY := -1 |}.
Proof.
  intros Hflat.
  destruct (scanCell_inv sobelData width height cx cy size)
    as [_ [->|(Hpos & _ & Hread)]]; [done|].
  exfalso. unfold readAt in Hread.
  destruct (_ <? 0); [done|].
  apply list_elem_of_lookup_2, Hflat in Hread. lra.
Qed.

Lemma processCell_flat fuel q sobelData width height cx cy size depth st :
  (q <= 5 # 4)%Q →
  (∀ v, v ∈ sobelData → (v <= 0)%Q) →
  processCell fuel q sobelData width height cx cy size depth st =
    cellLeaf q sobelData width height cx cy size depth st ∧
  ((∀ n, randomProb q <= mathRandom n)%Q →
   (cellLeaf q sobelData width height cx cy size depth st).1 = st.1).
Proof.
  intros Hq Hflat. split.
  - rewrite processCell_unfold. unfold cellSplits.
    rewrite (scanCell_flat sobelData width height cx cy size Hflat). simpl maxGrad.
    destruct (Qltb_spec (salientThreshold q) 0) as [Hneg|_]; [|done].
    unfold salientThreshold, edgeThreshold in Hneg. lra.
  - intros Hrandom. unfold cellLeaf.
    rewrite (scanCell_flat sobelData width height cx cy size Hflat).
    cbv zeta. simpl maxGrad.
    destruct (Qltb_spec (edgeThreshold q) 0) as [Hneg|_].
    { unfold edgeThreshold in Hneg. lra. }
    destruct (depth =? 0); [|done].
    destruct (Qltb_spec (mathRandom st.2) (randomProb q)) as [Hlt|_]; [|done].
    specialize (Hrandom st.2). lra.
Qed.

(** On an edge field without a positive value the sampler finds no edge
    point: at most one point is stored per base cell (the jittered point
    of the random fill), and nothing is stored when the random source
    never falls below the fill probability. *)
Theorem processCells_flat_field (q : Q) (sobelData : list Q)
    (width height : Z) (st : Sampling) :
  0 <= width → 0 <= height → (q <= 5 # 4)%Q →
  (∀ v, v ∈ sobelData → (v <= 0)%Q) →
  let st' := processCells q sobelData width height st in
  let cols := (width + baseCellSize q - 1) / baseCellSize q in
  let rows := (height + baseCellSize q - 1) / baseCellSize q in
  Z.of_nat (length (points st'.1)) <=
    Z.of_nat (length (points st.1)) + 1 * cols * rows ∧
  ((∀ n, randomProb q <= mathRandom n)%Q → st'.1 = st.1).
Proof.
  intros Hw Hh Hq Hflat st' cols rows.
  assert (1 <= baseCellSize q) as Hb by (unfold baseCellSize; lia).
  assert (0 <= cols) by (apply Z.div_pos; lia).
  split.
  - unfold st', processCells. cbv zeta.
    etrans; [apply (forBelow_count (λ s : Sampling, Z.of_nat (length (points s.1)))
                      (1 * cols)); try done; try lia|fold rows; lia].
    intros y s Hy.
    etrans; [apply (forBelow_count (λ s : Sampling, Z.of_nat (length (points s.1)))
                      1); try done; try lia|fold cols; lia].
    intros x s' Hx.
    destruct (processCell_flat (Z.to_nat maxDepth) q sobelData width height
                x y (baseCellSize q) 0 s' Hq Hflat) as [-> _].
    destruct (cellLeaf_cap q sobelData width height x y (baseCellSize q) 0 s')
      as (Hlen & _).
    lia.
  - intros Hrandom. unfold st', processCells. cbv zeta.
    apply (forBelow_invariant (λ s : Sampling, s.1 = st.1)); [|done].
    intros y s _ Hs.
    apply (forBelow_invariant (λ s : Sampling, s.1 = st.1)); [|done].
    intros x s' _ Hs'.
    destruct (processCell_flat (Z.to_nat maxDepth) q sobelData width height
                x y (baseCellSize q) 0 s' Hq Hflat) as [-> Hsame].
    by rewrite Hsame.
Qed.

End FlatImageProofs.

Lemma animate_phase_windows_witness :
  Sequencer.status (Sequencer.animate demoScene (Some 100%Q) 2600) =
    Sequencer.EdgeVisualization.
Proof.
  destruct (animate_phase_windows demoScene (Some 100%Q) 2600 ltac:(reflexivity))
    as (_ & [_ Hwindow] & _).
  apply Hwindow. vm_compute. split; [discriminate|reflexivity].
Defined.

Lemma play_phases_in_order_witness :
  Sorted (λ f f', phaseIndex (Sequencer.status f) <=
                  phaseIndex (Sequencer.status f'))%nat
    (Sequencer.play demoScene (Some 100%Q) [ 100; 2600; 5600; 12600; 13000 ]%Q) ∧
  (length (Sequencer.play demoScene (Some 100%Q)
             [ 100; 2600; 5600; 12600; 13000 ]%Q) <= 5)%nat.
Proof.
  destruct (play_phases_in_order demoScene (Some 100%Q)
              [ 100; 2600; 5600; 12600; 13000 ]%Q ltac:(reflexivity))
    as (Hsorted & _ & Hlength).
  - repeat constructor; discriminate.
  - split; [exact Hsorted|exact Hlength].
Defined.

Lemma revealCount_bounds_witness :
  0 <= revealCount (1 # 2) 8 <= 8 ∧
  ∀ progress', ((1 # 2) <= progress' <= 1)%Q →
    revealCount (1 # 2) 8 <= revealCount progress' 8.
Proof.
  destruct (revealCount_bounds (1 # 2) 8) as (Hrange & _ & _ & Hmono).
  - split; discriminate.
  - split; [exact Hrange|exact Hmono].
Defined.

Lemma animate_reveals_within_arrays_witness :
  Sequencer.status (Sequencer.animate demoScene (Some 100%Q) 5600) =
    Sequencer.Wireframe ∧
  ∃ p before,
    Sequencer.progress (Sequencer.animate demoScene (Some 100%Q) 5600) = Some p ∧
    0 <= revealCount p 1 <= 1 ∧
    Sequencer.commands (Sequencer.animate demoScene (Some 100%Q) 5600) =
      before ++
      flat_map (λ t, Sequencer.drawTrianglePath t ++ [ Sequencer.Stroke ])
        (take (Z.to_nat (revealCount p 1)) (Sequencer.triangles demoScene)).
Proof.
  destruct (animate_reveals_within_arrays demoScene (Some 100%Q) 5600
              ltac:(reflexivity)) as (_ & Hwire & _).
  split; [reflexivity|]. apply Hwire. reflexivity.
Defined.

Lemma processCells_flat_field_witness :
  let st' := processCells (H := demoBuiltins) (1 # 2) (replicate 9 0%Q) 3 3
               (emptySampler, 0%nat) in
  Z.of_nat (length (points st'.1)) <= 1 ∧ st'.1 = emptySampler.
Proof.
  destruct (processCells_flat_field (H := demoBuiltins) (1 # 2) (replicate 9 0%Q)
              3 3 (emptySampler, 0%nat)) as [Hcount Hnone].
  - lia.
  - lia.
  - discriminate.
  - intros v [-> _]%elem_of_replicate. discriminate.
  - split.
    + vm_compute in Hcount. vm_compute. exact Hcount.
    + apply Hnone. intros n. vm_compute. discriminate.
Defined.

(** ** The pipeline as a whole and the earlier versions *)

Section PipelineProofs.
Context `{Builtins}.

Lemma centroid_bounds (hi : Z) (a b c : Q) :
  (0 <= a <= inject_Z hi)%Q → (0 <= b <= inject_Z hi)%Q →
  (0 <= c <= inject_Z hi)%Q →
  (0 <= inject_Z (Qfloor ((a + b + c) / 3)) <= inject_Z hi)%Q.
Proof.
  intros [??] [??] [??].
  change 0%Q with (inject_Z 0). rewrite <- !Zle_Qle. split.
  - apply (Qfloor_resp_le 0). apply Qle_shift_div_l; [reflexivity|lra].
  - rewrite <- (Qfloor_Z hi). apply Qfloor_resp_le.
    apply Qle_shift_div_r; [reflexivity|lra].
Qed.

(** The pipeline as a whole: every triangle handed to the animation has
    its three vertices among the sampled points and inside the canvas,
    its centre inside the canvas, and a colour text [rgb(r,g,b)] with
    channels in [0,255] read from the unblurred pixels. *)
Theorem generate_triangles_in_canvas (quality : Q) (width height : Z)
    (originalData blurredData : list Z) :
  (∀ n, 0 <= mathRandom n < 1)%Q →
  1 <= width → 1 <= height → (quality <= 125)%Q →
  pixelBuffer width height originalData →
  ∀ t, t ∈ generate quality width height originalData blurredData →
    ∃ (p1 p2 p3 : Point) (vr vg vb : Z),
      Sequencer.points t = (p1, p2, p3) ∧
      Forall (λ p : Point,
                p ∈ meshPoints (processImage quality width height blurredData) ∧
                inBounds width height p) [ p1; p2; p3 ] ∧
      inBounds width height (Sequencer.center t) ∧
      0 <= vr <= 255 ∧ 0 <= vg <= 255 ∧ 0 <= vb <= 255 ∧
      Sequencer.color t =
        "rgb(" +:+ pretty vr +:+ "," +:+ pretty vg +:+ "," +:+ pretty vb +:+ ")".
Proof.
  intros _ Hw Hh Hq Hbuf t Ht.
  set (pts := meshPoints (processImage quality width height blurredData)) in *.
  assert (Forall (inBounds width height) pts) as Hall.
  { assert (Forall (inBounds width height)
              (points (addCorners width height emptySampler))) as Hcorners
      by (apply addCorners_bounds; [lia|lia|done]).
    unfold pts, processImage. destruct (Qltb 0 quality); simpl; [|done].
    apply refineLoop_bounds. simpl.
    apply (processCells_bounds _ _ _ _ (_, 0%nat)); [lia|lia| |].
    - apply Qle_shift_div_r; [reflexivity|lra].
    - simpl. apply addBorder_bounds; [unfold borderStep; lia|lia|lia|done]. }
  unfold generate, runTriangulation, shuffle in Ht. fold pts in Ht.
  rewrite shuffleFrom_perm in Ht.
  destruct (colorTriangles_spec pts originalData width height (delaunator pts))
    as [_ Hspec].
  destruct (proj1 (Forall_forall _ _) Hspec t Ht)
    as (p1 & p2 & p3 & H1 & H2 & H3 & Hpoints & Hcolor & Hcenter).
  destruct (rgbText_valid originalData width height p1 p2 p3 Hw Hh Hbuf)
    as (vr & vg & vb & Hr & Hg & Hb & Hrgb).
  pose proof (proj1 (Forall_forall _ _) Hall) as Hin.
  exists p1, p2, p3, vr, vg, vb.
  split; [done|]. split; [repeat (constructor; [by auto|]); constructor|].
  split; [|by rewrite Hcolor, Hrgb].
  rewrite Hcenter.
  destruct (Hin p1 H1) as [??], (Hin p2 H2) as [??], (Hin p3 H3) as [??].
  split; by apply centroid_bounds.
Qed.

End PipelineProofs.

Lemma generate_triangles_in_canvas_witness :
  generate (H := demoBuiltins) 50 3 3 demoImage3x3 demoImage3x3 =
    [ {| Sequencer.points := ((0, 0), (3, 0), (0, 3))%Q;
         Sequencer.color := "rgb(0,0,0)";
         Sequencer.center := (1, 1)%Q |} ] ∧
  inBounds 3 3 (1, 1)%Q.
Proof.
  assert (generate (H := demoBuiltins) 50 3 3 demoImage3x3 demoImage3x3 =
            [ {| Sequencer.points := ((0, 0), (3, 0), (0, 3))%Q;
                 Sequencer.color := "rgb(0,0,0)";
                 Sequencer.center := (1, 1)%Q |} ]) as Hgen
    by (vm_compute; reflexivity).
  split; [exact Hgen|].
  destruct (generate_triangles_in_canvas (H := demoBuiltins) 50 3 3
              demoImage3x3 demoImage3x3)
    with (t := {| Sequencer.points := ((0, 0), (3, 0), (0, 3))%Q;
                  Sequencer.color := "rgb(0,0,0)";
                  Sequencer.center := (1, 1)%Q |})
    as (p1 & p2 & p3 & vr & vg & vb & _ & _ & Hcenter & _);
    [ | lia | lia | discriminate | | | exact Hcenter ].
  - intros n. simpl. split; [discriminate|reflexivity].
  - split; [reflexivity|]. unfold demoImage3x3. repeat constructor; lia.
  - rewrite Hgen. apply list_elem_of_here.
Defined.

Section DensityProofs.
Context `{Builtins}.

Lemma forLoop_fst {A B : Type} fuel i cond step
    (body : Z → A → A) (body' : Z → A * B → A * B) (s : A * B) :
  (∀ j s, (body' j s).1 = body j s.1) →
  (forLoop fuel i cond step body' s).1 = forLoop fuel i cond step body s.1.
Proof.
  intros Hbody. revert i s.
  induction fuel as [|fuel IH]; intros i s; simpl; [done|].
  destruct (cond i); [|done]. by rewrite IH, Hbody.
Qed.

(** A loop of unit step whose body raises a measure by at most [c] raises
    it by at most [c] times the number of its iterations. *)
Lemma forBelow_unit_count {S : Type} (μ : S → Z) (c start hi : Z) body (st : S) :
  (∀ j st, start <= j < hi → μ st <= μ (body j st) <= μ st + c) →
  μ st <= μ (forBelow start hi 1 body st) <= μ st + c * Z.max 0 (hi - start).
Proof.
  intros Hbody.
  replace (Z.max 0 (hi - start)) with (Z.max start hi - start) by lia.
  apply (forBelow_unit_rule
           (λ j s, μ st <= μ s <= μ st + c * (j - start))).
  - lia.
  - intros j s Hj Hs. specialize (Hbody j s Hj).
    replace (c * (j + 1 - start)) with (c * (j - start) + c) by ring. lia.
Qed.

Lemma sobelCount_field (q : Q) (data : list Z) (width height : Z) :
  (DensitySampler.sobelCount q data width height).1 =
    sobelPass data width height.
Proof.
  unfold DensitySampler.sobelCount, sobelPass, forBelow.
  apply forLoop_fst. intros y s. by apply forLoop_fst.
Qed.

Lemma sobelCount_range (q : Q) (data : list Z) (width height : Z) :
  0 <= (DensitySampler.sobelCount q data width height).2 <=
    Z.max 0 (width - 2) * Z.max 0 (height - 2).
Proof.
  unfold DensitySampler.sobelCount.
  pose proof (forBelow_unit_count (λ s : list Q * Z, s.2)
                (Z.max 0 (width - 2)) 1 (height - 1)) as Houter.
  cbv beta in Houter.
  match goal with
  | |- _ <= (forBelow _ _ _ ?body ?st).2 <= _ =>
      specialize (Houter body st)
  end.
  replace (height - 1 - 1) with (height - 2) in Houter by lia.
  simpl in Houter. apply Houter. clear Houter.
  intros y s _.
  pose proof (forBelow_unit_count (λ s : list Q * Z, s.2) 1 1 (width - 1))
    as Hinner.
  cbv beta in Hinner.
  match goal with
  | |- _ <= (forBelow _ _ _ ?body ?st).2 <= _ =>
      specialize (Hinner body st)
  end.
  replace (width - 1 - 1) with (width - 2) in Hinner by lia.
  rewrite Z.mul_1_l in Hinner. apply Hinner.
  intros x s' _. simpl. destruct (Qltb _ _); lia.
Qed.

Lemma areaScale_positive width height :
  (3 # 10 <= DensitySampler.areaScale width height)%Q.
Proof. unfold DensitySampler.areaScale. apply Qmaxb_spec. Qed.

(** The cap on the edge points: the count of edge pixels is at most the
    number of interior pixels; the density is a number between 0 and
    [q / 2], and the density times the count of edge pixels, the expected
    number of sampled edge points, is at most the target
    [12000 * q * areaScale]. *)
Theorem actualDensity_caps_edge_points (q : Q) (data : list Z)
    (width height : Z) :
  (0 <= q)%Q →
  let s := DensitySampler.sobelCount q data width height in
  let density := DensitySampler.actualDensity q width height s.2 in
  s.1 = sobelPass data width height ∧
  0 <= s.2 <= Z.max 0 (width - 2) * Z.max 0 (height - 2) ∧
  (0 <= density <= q * (1 # 2))%Q ∧
  (density * inject_Z s.2 <= DensitySampler.targetEdgePoints q width height)%Q.
Proof.
  intros Hq s density.
  pose proof (sobelCount_range q data width height) as Hrange. fold s in Hrange.
  split; [apply sobelCount_field|]. split; [done|].
  pose proof (areaScale_positive width height) as Harea.
  set (target := DensitySampler.targetEdgePoints q width height).
  assert (0 <= target)%Q as Htarget.
  { unfold target, DensitySampler.targetEdgePoints.
    apply Qmult_le_0_compat; [|lra]. lra. }
  set (m := Qmaxb 1 (inject_Z s.2)).
  destruct (Qmaxb_spec 1 (inject_Z s.2)) as (Hm1 & Hm2 & _). fold m in Hm1, Hm2.
  assert (0 <= target / m)%Q as Hquot
    by (apply Qle_shift_div_l; lra).
  assert (target / m * m == target)%Q as Hcancel
    by (field; intros Hzero; lra).
  destruct (Qminb_spec (q * (1 # 2)) (target / m)) as (Hd1 & Hd2 & Hd).
  change (Qminb (q * (1 # 2)) (target / m)) with density in Hd1, Hd2, Hd.
  assert (0 <= density)%Q as Hd0 by (destruct Hd as [-> | ->]; lra).
  split; [done|].
  assert (0 <= inject_Z s.2)%Q as Hcount
    by (change 0%Q with (inject_Z 0); rewrite <- Zle_Qle; lia).
  apply Qle_trans with (density * m)%Q.
  - rewrite !(Qmult_comm density). by apply Qmult_le_compat_r.
  - rewrite <- Hcancel. apply Qmult_le_compat_r; lra.
Qed.

Lemma densityPass_inv density thr sobelData width height (st : Sampling) :
  densityInv thr sobelData width height st
    (DensitySampler.densityPass density thr sobelData width height st).
Proof.
  unfold DensitySampler.densityPass.
  apply (forBelow_unit_rule
           (λ _ s, densityInv thr sobelData width height st s)).
  { split; [done|]. exists []. rewrite app_nil_r.
    split_and!; [done|simpl; lia|constructor]. }
  intros y s Hy Hs.
  apply (forBelow_unit_rule
           (λ _ s, densityInv thr sobelData width height st s)); [done|].
  clear s Hs. intros x s Hx (Hdraws & added & Hpts & Hlen & Hall).
  destruct (readAt sobelData (y * width + x)) as [v|] eqn:Hread;
    [|by split; [|exists added]].
  destruct (Qltb_spec thr v) as [Hv|_]; [|by split; [|exists added]].
  destruct (Qltb (mathRandom s.2) density); unfold densityInv; simpl.
  - split; [lia|].
    destruct (addPoint_cases (inject_Z x) (inject_Z y) s.1)
      as [[_ ->]|[_ ->]]; simpl.
    + exists added. split_and!; [done|lia|done].
    + exists (added ++ [(inject_Z x, inject_Z y)]).
      rewrite Hpts, app_assoc, length_app. simpl.
      split_and!; [done|lia|].
      apply Forall_app. split; [done|]. constructor; [|constructor].
      exists x, y, v. by split_and!.
  - split; [lia|]. exists added. split_and!; [done|lia|done].
Qed.

Lemma densityPass_draws density thr sobelData width height (st : Sampling) :
  Z.of_nat (DensitySampler.densityPass density thr sobelData width height st).2 <=
    Z.of_nat st.2 + Z.max 0 (width - 2) * Z.max 0 (height - 2).
Proof.
  unfold DensitySampler.densityPass.
  pose proof (forBelow_unit_count (λ s : Sampling, Z.of_nat s.2)
                (Z.max 0 (width - 2)) 1 (height - 1)) as Houter.
  cbv beta in Houter.
  match goal with
  | |- Z.of_nat (forBelow _ _ _ ?body ?st).2 <= _ =>
      specialize (Houter body st)
  end.
  replace (height - 1 - 1) with (height - 2) in Houter by lia.
  apply Houter. clear Houter. intros y s _.
  pose proof (forBelow_unit_count (λ s : Sampling, Z.of_nat s.2) 1 1 (width - 1))
    as Hinner.
  cbv beta in Hinner.
  match goal with
  | |- _ <= Z.of_nat (forBelow _ _ _ ?body ?st).2 <= _ =>
      specialize (Hinner body st)
  end.
  replace (width - 1 - 1) with (width - 2) in Hinner by lia.
  rewrite Z.mul_1_l in Hinner. apply Hinner.
  intros x s' _. destruct (readAt _ _); [|lia].
  destruct (Qltb _ _); [|lia]. destruct (Qltb _ _); simpl; lia.
Qed.

(** The sampling loop of the density sampler stores only edge pixels: what
    it appends are pixels inside the one-pixel frame whose gradient
    exceeds the threshold, at most one per call of [Math.random]; it calls
    [Math.random] at most once per interior pixel, and stores nothing when
    no random number falls below the density. *)
Theorem densityPass_adds_edge_pixels (density thr : Q) (sobelData : list Q)
    (width height : Z) (st : Sampling) :
  let st' := DensitySampler.densityPass density thr sobelData width height st in
  (∃ added : list Point,
     points st'.1 = points st.1 ++ added ∧
     (length added <= st'.2 - st.2)%nat ∧
     Forall (λ p : Point, ∃ x y v,
               p = (inject_Z x, inject_Z y) ∧
               interiorPixel width height x y ∧
               readAt sobelData (y * width + x) = Some v ∧ (thr < v)%Q)
       added) ∧
  Z.of_nat st.2 <= Z.of_nat st'.2 <=
    Z.of_nat st.2 + Z.max 0 (width - 2) * Z.max 0 (height - 2) ∧
  ((∀ n, density <= mathRandom n)%Q → st'.1 = st.1).
Proof.
  intros st'.
  destruct (densityPass_inv density thr sobelData width height st)
    as (Hdraws & Hadded).
  fold st' in Hdraws, Hadded.
  split; [done|]. split.
  - split; [lia|apply densityPass_draws].
  - intros Hrandom. unfold st', DensitySampler.densityPass.
    apply (forBelow_invariant (λ s : Sampling, s.1 = st.1)); [|done].
    intros y s _ Hs.
    apply (forBelow_invariant (λ s : Sampling, s.1 = st.1)); [|done].
    intros x s' _ Hs'.
    destruct (readAt _ _); [|done]. destruct (Qltb _ _); [|done].
    destruct (Qltb_spec (mathRandom s'.2) density) as [Hlt|_]; [|done].
    specialize (Hrandom s'.2). lra.
Qed.

End DensityProofs.

Lemma actualDensity_caps_edge_points_witness :
  let s := DensitySampler.sobelCount (H := demoBuiltins) (1 # 2) demoImage3x3 3 3 in
  0 <= s.2 <= 1 ∧
  (0 <= DensitySampler.actualDensity (1 # 2) 3 3 s.2 <= (1 # 2) * (1 # 2))%Q.
Proof.
  destruct (actualDensity_caps_edge_points (H := demoBuiltins) (1 # 2)
              demoImage3x3 3 3) as (_ & Hcount & Hdensity & _).
  - discriminate.
  - split; [exact Hcount|exact Hdensity].
Defined.

Section FillProofs.
Context `{Builtins}.

Lemma densityPass_closed (P : Sampler → Prop) density thr sobelData
    width height (st : Sampling) :
  addPointClosed P → P st.1 →
  P (DensitySampler.densityPass density thr sobelData width height st).1.
Proof.
  intros HP Hst. unfold DensitySampler.densityPass.
  apply (forBelow_invariant (λ s : Sampling, P s.1)); [|done].
  intros y s _ Hs.
  apply (forBelow_invariant (λ s : Sampling, P s.1)); [|done].
  intros x s' _ Hs'.
  destruct (readAt _ _); [|done]. destruct (Qltb _ _); [|done].
  destruct (Qltb _ _); [|done]. by apply HP.
Qed.

Lemma randomFill_closed (P : Sampler → Prop) width height count (st : Sampling) :
  addPointClosed P → P st.1 →
  P (DensitySampler.randomFill width height count st).1.
Proof.
  intros HP Hst. unfold DensitySampler.randomFill.
  apply (forBelow_invariant (λ s : Sampling, P s.1)); [|done].
  intros i s _ Hs. by apply HP.
Qed.

Lemma scaled_random_bounds (hi : Z) (r : Q) :
  0 <= hi → (0 <= r < 1)%Q → (0 <= r * inject_Z hi <= inject_Z hi)%Q.
Proof.
  intros Hhi [Hr0 Hr1].
  assert (0 <= inject_Z hi)%Q as Hq
    by (change 0%Q with (inject_Z 0); by rewrite <- Zle_Qle).
  split; [by apply Qmult_le_0_compat|].
  rewrite <- (Qmult_1_l (inject_Z hi)) at 2.
  apply Qmult_le_compat_r; [lra|done].
Qed.

(** The random fill appends at most [numRandomPoints] points and calls
    [Math.random] exactly twice per round, also when a point drawn is
    dropped; with [Math.random] in [0, 1) every point it stores lies in
    the image rectangle. *)
Theorem randomFill_count (width height count : Z) (st : Sampling) :
  let st' := DensitySampler.randomFill width height count st in
  points st.1 `prefix_of` points st'.1 ∧
  Z.of_nat (length (points st'.1)) <=
    Z.of_nat (length (points st.1)) + Z.max 0 count ∧
  Z.of_nat st'.2 = Z.of_nat st.2 + 2 * Z.max 0 count ∧
  ((∀ n, 0 <= mathRandom n < 1)%Q → 0 <= width → 0 <= height →
   Forall (inBounds width height) (points st.1) →
   Forall (inBounds width height) (points st'.1)).
Proof.
  intros st'. split_and!.
  - apply (randomFill_closed (λ s, points st.1 `prefix_of` points s));
      [apply prefix_closed|done].
  - unfold st', DensitySampler.randomFill.
    pose proof (forBelow_unit_count
                  (λ s : Sampling, Z.of_nat (length (points s.1))) 1 0 count)
      as Hcount.
    cbv beta in Hcount.
    match goal with
    | |- Z.of_nat (length (points (forBelow _ _ _ ?body ?s).1)) <= _ =>
        specialize (Hcount body s)
    end.
    rewrite Z.sub_0_r, Z.mul_1_l in Hcount. apply Hcount.
    intros i s _. simpl.
    pose proof (addPoint_length (mathRandom s.2 * inject_Z width)%Q
                  (mathRandom (S s.2) * inject_Z height)%Q s.1).
    pose proof (prefix_length _ _
                  (addPoint_prefix (mathRandom s.2 * inject_Z width)%Q
                     (mathRandom (S s.2) * inject_Z height)%Q s.1)).
    lia.
  - unfold st', DensitySampler.randomFill.
    replace (Z.max 0 count) with (Z.max 0 count - 0) by lia.
    apply (forBelow_unit_rule
             (λ i (s : Sampling), Z.of_nat s.2 = Z.of_nat st.2 + 2 * (i - 0)));
      [lia|].
    intros i s _ Hs. simpl. lia.
  - intros Hrandom Hw Hh Hst. unfold st', DensitySampler.randomFill.
    apply (forBelow_invariant
             (λ s : Sampling, Forall (inBounds width height) (points s.1)));
      [|done].
    intros i s _ Hs. simpl. apply addPoint_Forall; [|done].
    split; simpl; by apply scaled_random_bounds.
Qed.

(** The density sampler as a whole: with [Math.random] in [0, 1) every
    point lies in the image rectangle, no two points share a key, the
    first points are the corners, and [Math.random] is called at most once
    per interior pixel and twice per random point. *)
Theorem densitySampler_points_in_bounds (budget quality : Q)
    (width height : Z) (data : list Z) :
  (∀ n, 0 <= mathRandom n < 1)%Q → 0 <= width → 0 <= height →
  let st := DensitySampler.processImage budget quality width height data in
  Forall (inBounds width height) (points st.1) ∧
  samplerInv st.1 ∧
  points (addCorners width height emptySampler) `prefix_of` points st.1 ∧
  Z.of_nat st.2 <=
    Z.max 0 (width - 2) * Z.max 0 (height - 2) +
    2 * Z.max 0 (DensitySampler.numRandomPoints budget (quality / 100)
                   width height).
Proof.
  intros Hrandom Hw Hh st.
  set (corners := addCorners width height emptySampler).
  assert (Forall (inBounds width height) (points corners)) as Hcorners
    by (by apply addCorners_bounds).
  assert (samplerInv corners) as Hinv
    by (apply addCorners_closed; [apply samplerInv_addPoint|apply samplerInv_empty]).
  unfold st, DensitySampler.processImage. fold corners.
  destruct (Qltb 0 quality); cbv zeta;
    [|simpl; split; [done|split; [done|split; [done|]]];
      pose proof (Z.mul_nonneg_nonneg (Z.max 0 (width - 2))
                    (Z.max 0 (height - 2))); lia].
  set (q := (quality / 100)%Q).
  set (border := addBorder (borderStep q) width height corners).
  set (s := DensitySampler.sobelCount q data width height).
  set (density := DensitySampler.actualDensity q width height s.2).
  set (sampled := DensitySampler.densityPass density (DensitySampler.threshold q)
                    s.1 width height (border, 0%nat)).
  set (count := DensitySampler.numRandomPoints budget q width height).
  destruct (densityPass_inv density (DensitySampler.threshold q) s.1
              width height (border, 0%nat))
    as (_ & added & Hpts & _ & Hadded).
  fold sampled in Hpts.
  pose proof (densityPass_draws density (DensitySampler.threshold q) s.1
                width height (border, 0%nat)) as Hdraws.
  fold sampled in Hdraws. simpl in Hdraws.
  assert (Forall (inBounds width height) (points border)) as Hborder
    by (apply addBorder_bounds; [unfold borderStep; lia|done..]).
  assert (Forall (inBounds width height) (points sampled.1)) as Hsampled.
  { rewrite Hpts. apply Forall_app. split; [done|].
    eapply Forall_impl; [exact Hadded|].
    intros p (x & y & v & -> & [Hx Hy] & _). apply inBounds_integer; lia. }
  split_and!.
  - unfold DensitySampler.randomFill.
    apply (forBelow_invariant
             (λ s : Sampling, Forall (inBounds width height) (points s.1)));
      [|done].
    intros i s' _ Hs'. simpl. apply addPoint_Forall; [|done].
    split; simpl; by apply scaled_random_bounds.
  - apply randomFill_closed; [apply samplerInv_addPoint|].
    apply densityPass_closed; [apply samplerInv_addPoint|].
    apply addBorder_closed; [apply samplerInv_addPoint|done].
  - apply (randomFill_closed (λ s, points corners `prefix_of` points s));
      [apply prefix_closed|].
    apply (densityPass_closed (λ s, points corners `prefix_of` points s));
      [apply prefix_closed|].
    by apply (addBorder_closed (λ s, points corners `prefix_of` points s));
      [apply prefix_closed|].
  - unfold DensitySampler.randomFill.
    assert (Z.of_nat
              (forBelow 0 count 1
                 (λ (_ : Z) (st0 : Sampling),
                    (addPoint (mathRandom st0.2 * inject_Z width)%Q
                       (mathRandom (S st0.2) * inject_Z height)%Q st0.1,
                     (st0.2 + 2)%nat)) sampled).2 =
            Z.of_nat sampled.2 + 2 * (Z.max 0 count - 0)) as ->; [|lia].
    apply (forBelow_unit_rule
             (λ i (s : Sampling),
                Z.of_nat s.2 = Z.of_nat sampled.2 + 2 * (i - 0))); [lia|].
    intros i s' _ Hs'. simpl. lia.
Qed.

End FillProofs.

Lemma densitySampler_points_in_bounds_witness :
  let st := DensitySampler.processImage (H := demoBuiltins) 3000 50 3 3
              demoImage3x3 in
  Forall (inBounds 3 3) (points st.1) ∧ samplerInv st.1.
Proof.
  destruct (densitySampler_points_in_bounds (H := demoBuiltins) 3000 50 3 3
              demoImage3x3) as (Hbounds & Hinv & _).
  - intros n. simpl. split; [discriminate|reflexivity].
  - lia.
  - lia.
  - split; [exact Hbounds|exact Hinv].
Defined.

Section SortProofs.
Context `{Builtins}.

Lemma insertByCenter_perm t l :
  DensitySampler.insertByCenter t l ≡ₚ t :: l.
Proof.
  induction l as [|u l IH]; simpl; [done|].
  destruct (Qltb _ _); [|done]. rewrite IH. apply Permutation_swap.
Qed.

Lemma sortByCenter_perm l : DensitySampler.sortByCenter l ≡ₚ l.
Proof.
  induction l as [|t l IH]; simpl; [done|].
  by rewrite insertByCenter_perm, IH.
Qed.

Lemma insertByCenter_sorted t l :
  Sorted (λ a b, (Sequencer.center a).1 <= (Sequencer.center b).1)%Q l →
  Sorted (λ a b, (Sequencer.center a).1 <= (Sequencer.center b).1)%Q
    (DensitySampler.insertByCenter t l).
Proof.
  induction 1 as [|u l Hl IH Hhd]; simpl; [by repeat constructor|].
  destruct (Qltb_spec (Sequencer.center u).1 (Sequencer.center t).1) as [Hlt|Hge].
  - constructor; [done|].
    destruct l as [|u' l']; simpl in *.
    + constructor. lra.
    + destruct (Qltb _ _); constructor; [|lra].
      by inversion Hhd.
  - constructor; [by constructor|]. constructor. lra.
Qed.

Lemma insertByCenter_filter (c : Q) t l :
  List.filter (λ u, Qeq_bool (Sequencer.center u).1 c)
    (DensitySampler.insertByCenter t l) =
  List.filter (λ u, Qeq_bool (Sequencer.center u).1 c) (t :: l).
Proof.
  induction l as [|u l IH]; [done|]. cbn [DensitySampler.insertByCenter].
  destruct (Qltb_spec (Sequencer.center u).1 (Sequencer.center t).1) as [Hlt|_];
    [|done].
  cbn [List.filter] in *. rewrite IH.
  destruct (Qeq_bool (Sequencer.center t).1 c) eqn:Ht; [|done].
  destruct (Qeq_bool (Sequencer.center u).1 c) eqn:Hu; [|done].
  apply Qeq_bool_iff in Ht, Hu. lra.
Qed.

(** The earliest version hands the triangles over from left to right: the
    sorted array is a permutation of the coloured triangles, the x
    coordinates of the centres never decrease along it, and triangles
    whose centres have the same x coordinate keep the order in which they
    were coloured. *)
Theorem runTriangulation_left_to_right (pts : list Point) (data : list Z)
    (width height : Z) :
  let colored := colorTriangles pts data width height (delaunator pts) in
  let sorted := DensitySampler.runTriangulation pts data width height in
  sorted ≡ₚ colored ∧
  (∀ i j a b, (i < j)%nat → sorted !! i = Some a → sorted !! j = Some b →
     ((Sequencer.center a).1 <= (Sequencer.center b).1)%Q) ∧
  (∀ c, List.filter (λ t, Qeq_bool (Sequencer.center t).1 c) sorted =
        List.filter (λ t, Qeq_bool (Sequencer.center t).1 c) colored).
Proof.
  intros colored sorted. unfold sorted, DensitySampler.runTriangulation.
  fold colored. clearbody colored. clear sorted.
  split_and!.
  - apply sortByCenter_perm.
  - assert (StronglySorted
              (λ a b, (Sequencer.center a).1 <= (Sequencer.center b).1)%Q
              (DensitySampler.sortByCenter colored)) as Hsorted.
    { apply Sorted_StronglySorted; [intros a b c ??; lra|].
      induction colored as [|t l IH]; simpl; [constructor|].
      by apply insertByCenter_sorted. }
    revert Hsorted. generalize (DensitySampler.sortByCenter colored).
    intros l Hsorted. induction Hsorted as [|u l Hl IH Hall];
      intros i j a b Hij Ha Hb.
    { by rewrite lookup_nil in Ha. }
    destruct j as [|j]; [lia|]. simpl in Hb.
    destruct i as [|i]; simpl in Ha.
    + injection Ha as ->.
      apply (proj1 (Forall_forall _ _) Hall).
      by eapply list_elem_of_lookup_2.
    + apply (IH i j); [lia|done..].
  - intros c. induction colored as [|t l IH]; [done|].
    cbn [DensitySampler.sortByCenter foldr].
    rewrite insertByCenter_filter. cbn [List.filter].
    fold (DensitySampler.sortByCenter l). by rewrite IH.
Qed.

End SortProofs.
